(** * vue3-sfc-loader, [src/tools.ts]: the loading, caching and execution engine

    A shallow embedding of [tools.ts] and the properties of its module cache,
    its compilation cache and its dispatcher.

    JavaScript values are dynamically typed, so the embedding has one type
    [value]; an [async function] is a tree of the operations it performs, cut
    at every [await]; the module cache, the promises and the suspended
    activations live in one [state], and the cooperative scheduler is the
    relation [step] on that state.

    What is not code of [tools.ts] is a parameter or the environment's move:
    the libraries are the fields of [Host]; [options.getResource] is a
    function of the path context; the callbacks and the other asynchronous
    collaborators return a fresh promise at once, without calling back into
    the loader before they return, and the environment settles that promise
    later, with any outcome, at any time. A suspended activation may go on
    at any time after what it awaits has settled: every order in which the
    JavaScript job queue can run the continuations is a schedule, and the
    properties hold for all schedules. *)

From Stdlib Require Import String List Bool Arith Lia.
From stdpp Require Import base option list gmap strings.

Set Warnings "-register-all".
Local Open Scope string_scope.

(** ** JavaScript values *)

Definition promise := nat.

(** [VLoading p] is an instance of the class [Loading] (tools.ts:133), whose
    only field is its promise [p]. [VRec] is an object literal, [VObj n] any
    other object, known by its identity.

    No [value] is a thenable (a promise, or an object with a [then]). What
    has passed an [await] never is one, and that is the case of all that
    the loader puts in the module cache (tools.ts:264, 278, 281). What the
    caller puts there may be one, and an asynchronous function that returns
    a thenable resolves it through its [then] (as [return moduleCache[id]],
    tools.ts:256, would): the properties below that say what a call returns
    from the module cache are stated for the entries the loader put there,
    not for those of the caller. *)
Inductive value : Type :=
| VUndefined
| VNull
| VStr (s : string)
| VArr (l : list value)
| VRec (fields : list (string * value))
| VObj (n : nat)
| VLoading (p : promise).

Inductive error : Type :=
| TypeError (msg : string)
| Error (msg : string)
| SyntaxError (msg : string)
| Other (n : nat).

(** [ex.message] *)
Definition message (ex : error) : string :=
  match ex with
  | TypeError msg | Error msg | SyntaxError msg => msg
  | Other _ => ""
  end.

Inductive outcome : Type :=
| Fulfilled (v : value)
| Rejected (e : error).

(** [x instanceof Loading] *)
Definition instanceof_Loading (v : value) : bool :=
  match v with VLoading _ => true | _ => false end.

(** [x !== undefined] *)
Definition is_undefined (v : value) : bool :=
  match v with VUndefined => true | _ => false end.

(** ** The host: the libraries [tools.ts] imports and the JavaScript engine

    None of them is code of this file; each is a field the development is
    parametric in. *)

Inductive parse_result : Type :=
| ParseOk (ast : value)
| ParseError (ex : error) (line column : nat).

(** What a function body made by [Function(..., source)] does when it is
    called (tools.ts:324): it may call [require], call [import__], throw, or
    finish, leaving a value in [module.exports]. That value is a [value],
    so not a thenable: a [module.exports] that is one would be resolved
    through its [then] by the asynchronous return of tools.ts:343, and is
    outside what is modelled. *)
Inductive script : Type :=
| SReturn (exports : value)
| SThrow (e : error)
| SRequire (relPath : string) (k : outcome -> script)
| SImport (relPath : string) (k : script).

Record Host := {
  (** [process.env.VERSION] *)
  version : string;
  (** [String(v)] for a value that is not a string *)
  ToString : value -> string;
  (** spark-md5: the hexadecimal digest of everything appended *)
  md5 : string -> string;
  (** [JSON.stringify(v)]: a text, or [undefined] (as for [undefined]
      itself), or an exception (as for an object with a cycle) *)
  JSON_stringify : value -> option string + error;
  JSON_parse : string -> value + error;
  (** @babel/parser [parse], @babel/code-frame [codeFrameColumns] *)
  babel_parse : string -> bool -> string -> parse_result;
  codeFrameColumns : string -> nat -> nat -> string -> string;
  (** the two traversals of the syntax tree (tools.ts:160, 175) *)
  renameDynamicImport : value -> value;
  parseDeps : value -> list string;
  (** [Function('exports', 'require', 'module', '__filename', '__dirname',
      'import__', source)] applied to its arguments *)
  js_function : string -> string -> string -> script;
}.

(** ** [hash] (tools.ts:94) *)

(** A [SparkMD5] instance, as the text appended to it so far. The library
    turns each part into UTF-8 by itself before it appends it; the strings
    here are sequences of 8-bit characters, for which doing so part by part
    or on the whole text is the same, and [md5] is the digest of the text
    so encoded. (A part cut inside a surrogate pair, which the library
    refuses with an exception, is no [string] of the model: such a list of
    parts has no key.) *)
Record SparkMD5 := { appended : string }.

Definition SparkMD5_new : SparkMD5 := {| appended := "" |}.

Definition SparkMD5_append (h : SparkMD5) (s : string) : SparkMD5 :=
  {| appended := appended h +:+ s |}.

Definition SparkMD5_end (host : Host) (h : SparkMD5) : string :=
  md5 host (appended h).

(** [s.slice(0, n)] *)
Definition slice0 (n : nat) (s : string) : string := String.substring 0 n s.

(** [val ? val : ""]: a string is falsy exactly when it is empty. *)
Definition truthy_or_empty (val : string) : string :=
  if String.eqb val "" then "" else val.

Definition hash (host : Host) (valueList : list string) : string :=
  slice0 8
    (SparkMD5_end host
       (fold_left (fun hashInstance val => SparkMD5_append hashInstance (truthy_or_empty val))
                  valueList SparkMD5_new)).

(** The text a list of key parts is digested as: the parts, end to end. *)
Definition joined (valueList : list string) : string :=
  fold_right String.append "" valueList.

(** ** Asynchronous functions

    An [async function] is the tree of what it does. [Call] invokes another
    asynchronous function: the callee runs at once, up to its first [await],
    and the caller goes on with the callee's promise. [Ext] invokes a
    collaborator that is not code of this file and yields the promise it
    returns; when and how that promise settles is the environment's choice.
    [Await] ends the synchronous run; what follows is the continuation. *)

Record PathContext := { refPath : string; relPath : string }.

(** What [options.getResource] returns: [{ id, path, getContent }]. The call
    [getContent()] is the collaborator call [E_getContent id]. *)
Record Resource := { r_id : string; r_path : string }.

Inductive ext_call : Type :=
| E_loadModule (id : string)
| E_getContent (id : string)
| E_handleModule (extname : value) (content : string) (path : string)
| E_createSFCModule (source : string) (path : string)
| E_transformFromAstAsync (ast : value) (source : string).

Inductive fname : Type :=
| F_loadModuleInternal (pathCx : PathContext)
| F_loading (id : string)
| F_valueFactory
| F_withCache
| F_transformJSCode (filename : string)
| F_createJSModule (filename : string) (moduleSourceType : bool)
| F_loadDeps (refPath : string)
| F_defaultHandleModule (extname : value) (path : string)
| F_importFunction (refPath : string) (relPath : string).

(** What an [await] waits for: a promise, [Promise.all] of promises, or a
    value that is no promise (the activation is suspended all the same). *)
Inductive wait : Type :=
| WPromise (p : promise)
| WAll (ps : list promise)
| WValue (v : value).

Inductive async : Type :=
| Ret (v : value)
| Throw (e : error)
| GetResource (pathCx : PathContext) (k : Resource -> async)
| CacheIn (id : string) (k : bool -> async)
| CacheGet (id : string) (k : value -> async)
| CacheSet (id : string) (v : value) (k : async)
| NewFlag (k : nat -> async)
| SetFlag (f : nat) (k : async)
| GetFlag (f : nat) (k : bool -> async)
| StoreGet (key : string) (k : value -> async)
| StoreSet (key : string) (valueStr : option string) (k : async)
| Log (type : string) (args : list string) (k : async)
| Ext (c : ext_call) (k : promise -> async)
| Call (f : fname) (callee : async) (k : promise -> async)
| Await (w : wait) (k : kont)
with kont : Type :=
| KFun (k : value -> async)
| K_loadModule (id : string) (path : string)
| K_getContent (id : string) (path : string).

(** [return await x] *)
Definition return_await (w : wait) : async := Await w (KFun Ret).

Inductive event : Type :=
| EvGetResource (pathCx : PathContext)
| EvCall (f : fname) (p : promise)
| EvExt (c : ext_call) (p : promise)
| EvStoreGet (key : string)
| EvStoreSet (key : string) (valueStr : option string)
| EvLog (type : string) (args : list string).

Record task := { t_wait : wait; t_kont : kont; t_result : promise }.

(** [trace] and [settled] are newest first. *)
Record state := {
  moduleCache : gmap string value;
  compiledStore : gmap string string;
  flags : list bool;
  settled : list (promise * outcome);
  pool : list task;
  next_promise : promise;
  trace : list event;
}.

Definition emit (e : event) (s : state) : state :=
  {| moduleCache := moduleCache s; compiledStore := compiledStore s; flags := flags s;
     settled := settled s; pool := pool s; next_promise := next_promise s;
     trace := e :: trace s |}.

Definition fresh (s : state) : state :=
  {| moduleCache := moduleCache s; compiledStore := compiledStore s; flags := flags s;
     settled := settled s; pool := pool s; next_promise := S (next_promise s);
     trace := trace s |}.

Definition set_moduleCache (m : gmap string value) (s : state) : state :=
  {| moduleCache := m; compiledStore := compiledStore s; flags := flags s;
     settled := settled s; pool := pool s; next_promise := next_promise s;
     trace := trace s |}.

Definition set_compiledStore (m : gmap string string) (s : state) : state :=
  {| moduleCache := moduleCache s; compiledStore := m; flags := flags s;
     settled := settled s; pool := pool s; next_promise := next_promise s;
     trace := trace s |}.

Definition set_flags (l : list bool) (s : state) : state :=
  {| moduleCache := moduleCache s; compiledStore := compiledStore s; flags := l;
     settled := settled s; pool := pool s; next_promise := next_promise s;
     trace := trace s |}.

Definition set_pool (l : list task) (s : state) : state :=
  {| moduleCache := moduleCache s; compiledStore := compiledStore s; flags := flags s;
     settled := settled s; pool := l; next_promise := next_promise s;
     trace := trace s |}.

Definition outcome_of (l : list (promise * outcome)) (p : promise) : option outcome :=
  match find (fun x => Nat.eqb (fst x) p) l with
  | Some x => Some (snd x)
  | None => None
  end.

(** Settling a promise that is settled already does nothing. *)
Definition settle (p : promise) (o : outcome) (s : state) : state :=
  match outcome_of (settled s) p with
  | Some _ => s
  | None =>
    {| moduleCache := moduleCache s; compiledStore := compiledStore s; flags := flags s;
       settled := (p, o) :: settled s; pool := pool s; next_promise := next_promise s;
       trace := trace s |}
  end.

(** [cacheInstance.set(key, valueStr)]; [None] is [undefined], after which
    the store answers [undefined] for the key, as a [Map] does. *)
Definition store_set (key : string) (valueStr : option string) (store : gmap string string)
    : gmap string string :=
  match valueStr with
  | Some str => <[key := str]> store
  | None => delete key store
  end.

(** [id in moduleCache] *)
Definition in_cache (s : state) (id : string) : bool :=
  match moduleCache s !! id with Some _ => true | None => false end.

(** [moduleCache[id]] *)
Definition cache_get (s : state) (id : string) : value :=
  match moduleCache s !! id with Some v => v | None => VUndefined end.

Section Run.

Context (getResource : PathContext -> Resource).

(** One synchronous run: from a call or a resumption to the next [await] of
    the activation whose promise is [self]. *)
Fixpoint run (a : async) (self : promise) (s : state) : state :=
  match a with
  | Ret v => settle self (Fulfilled v) s
  | Throw e => settle self (Rejected e) s
  | GetResource pathCx k => run (k (getResource pathCx)) self (emit (EvGetResource pathCx) s)
  | CacheIn id k => run (k (in_cache s id)) self s
  | CacheGet id k => run (k (cache_get s id)) self s
  | CacheSet id v k => run k self (set_moduleCache (<[id := v]> (moduleCache s)) s)
  | NewFlag k => run (k (length (flags s))) self (set_flags (flags s ++ [false]) s)
  | SetFlag f k => run k self (set_flags (<[f := true]> (flags s)) s)
  | GetFlag f k => run (k (default false (flags s !! f))) self s
  | StoreGet key k =>
      run (k (match compiledStore s !! key with Some str => VStr str | None => VUndefined end))
          self (emit (EvStoreGet key) s)
  | StoreSet key str k =>
      run k self (emit (EvStoreSet key str)
                    (set_compiledStore (store_set key str (compiledStore s)) s))
  | Log type args k => run k self (emit (EvLog type args) s)
  | Ext c k => run (k (next_promise s)) self (emit (EvExt c (next_promise s)) (fresh s))
  | Call f callee k =>
      let p := next_promise s in
      run (k p) self (run callee p (emit (EvCall f p) (fresh s)))
  | Await w k =>
      set_pool ({| t_wait := w; t_kont := k; t_result := self |} :: pool s) s
  end.

End Run.

(** ** The options *)

(** Modelled from the spec: the type [Options] is declared in [types.ts],
    which is not part of the source at hand; these are the fields
    [tools.ts] reads. [moduleCache] and [compiledCache] are objects the
    caller shares with the loader: their contents are the fields
    [moduleCache] and [compiledStore] of [state], the latter a [CacheStore]
    with [get(key) -> string|absent] and [set(key, string) -> void]. The
    callbacks [loadModule] and [handleModule] are collaborators
    ([E_loadModule], [E_handleModule]); here, whether each is configured. *)
Record Options := {
  getResource : PathContext -> Resource;
  resolve : PathContext -> string;
  loadModule : bool;
  handleModule : bool;
  compiledCache : bool;
  log : bool;
}.

(** [obj.name], and the destructuring [{ name } = obj] *)
Definition get_field (name : string) (obj : value) : value + error :=
  match obj with
  | VUndefined | VNull => inr (TypeError ("Cannot read property " +:+ name))
  | VRec fields =>
      inl (match find (fun f => String.eqb (fst f) name) fields with
           | Some f => snd f
           | None => VUndefined
           end)
  | _ => inl VUndefined
  end.

Fixpoint as_strings (l : list value) : option (list string) :=
  match l with
  | [] => Some []
  | VStr s :: l' => option_map (cons s) (as_strings l')
  | _ => None
  end.

(** [if (x)] on what a cache store or a transform hands back *)
Definition truthy (v : value) : bool :=
  match v with
  | VUndefined | VNull => false
  | VStr s => negb (String.eqb s "")
  | _ => true
  end.

Section Loader.

Context (host : Host) (options : Options).

(** [`${ v }`] *)
Definition template (v : value) : string :=
  match v with
  | VStr s => s
  | VUndefined => "undefined"
  | VNull => "null"
  | _ => ToString host v
  end.

(** tools.ts:52 *)
Definition formatError (message path source : string) : string :=
  path +:+ String (Ascii.ascii_of_nat 10) "" +:+ message.

(** tools.ts:60; a [line] that is absent or zero is falsy *)
Definition formatErrorLineColumn (message path source : string) (line column : nat) : string :=
  match line with
  | 0 => formatError message path source
  | _ => formatError (codeFrameColumns host source line column message) path source
  end.

(** tools.ts:106. [cachePrevented] is a local variable that the closure
    [api.preventCache] sets: a flag of the state, and [api] is its name.
    The function is cut at its [await]s, last part first. *)

(** tools.ts:124-127, after [await valueFactory(api)] *)
Definition withCache_after_valueFactory (hashedKey : string) (cachePrevented : nat)
    (value : value) : async :=
  GetFlag cachePrevented (fun prevented =>
  if negb prevented then
    match JSON_stringify host value with
    | inl valueStr =>
        StoreSet hashedKey valueStr (Await (WValue VUndefined) (KFun (fun _ => Ret value)))
    | inr e => Throw e
    end
  else Ret value).

(** tools.ts:119-122, after [await cacheInstance.get(hashedKey)] *)
Definition withCache_after_get (hashedKey : string) (cachePrevented : nat)
    (valueFactory : nat -> async) (valueStr : value) : async :=
  if truthy valueStr then
    match JSON_parse host (template valueStr) with
    | inl v => Ret v
    | inr e => Throw e
    end
  else
    Call F_valueFactory (valueFactory cachePrevented) (fun p =>
    Await (WPromise p) (KFun (withCache_after_valueFactory hashedKey cachePrevented))).

Definition withCache (cacheInstance : bool) (key : list string)
    (valueFactory : nat -> async) : async :=
  NewFlag (fun cachePrevented =>
  if negb cacheInstance then
    Call F_valueFactory (valueFactory cachePrevented) (fun p => return_await (WPromise p))
  else
    let hashedKey := hash host key in
    StoreGet hashedKey (fun got =>
    Await (WValue got) (KFun (withCache_after_get hashedKey cachePrevented valueFactory)))).

(** tools.ts:205 *)
Definition transformJSCode (source : string) (moduleSourceType : bool) (filename : string)
    : async :=
  match babel_parse host source moduleSourceType filename with
  | ParseError ex line column =>
      let rethrow := Throw ex in
      if log options then
        Log "error" ["parse script";
                     formatErrorLineColumn (message ex) filename source line (column + 1)]
            rethrow
      else rethrow
  | ParseOk ast =>
      let ast := renameDynamicImport host ast in
      let depsList := parseDeps host ast in
      Ext (E_transformFromAstAsync ast source) (fun p =>
      Await (WPromise p) (KFun (fun transformedScript =>
      match get_field "code" transformedScript with
      | inl code => Ret (VArr [VArr (map VStr depsList); code])
      | inr e => Throw e
      end)))
  end.

(** tools.ts:269, the call and the [await]; what follows is
    [loading_after_getContent] *)
Definition await_getContent (id path : string) : async :=
  Ext (E_getContent id) (fun p => Await (WPromise p) (K_getContent id path)).

(** tools.ts:260-264: the asynchronous function whose promise the [Loading]
    holds, up to its first [await] *)
Definition loading (id path : string) : async :=
  if loadModule options then
    Ext (E_loadModule id) (fun p => Await (WPromise p) (K_loadModule id path))
  else await_getContent id path.

(** tools.ts:245 *)
Definition loadModuleInternal (pathCx : PathContext) : async :=
  GetResource pathCx (fun res =>
  let id := r_id res in
  let path := r_path res in
  CacheIn id (fun present =>
  if present then
    CacheGet id (fun entry =>
    match entry with
    | VLoading p => return_await (WPromise p)
    | _ => Ret entry
    end)
  else
    Call (F_loading id) (loading id path) (fun p =>
    CacheSet id (VLoading p)
      (CacheGet id (fun entry =>
       match entry with
       | VLoading p' => return_await (WPromise p')
       | VUndefined | VNull => Throw (TypeError "Cannot read property promise")
       | _ => return_await (WValue VUndefined)
       end))))).

(** tools.ts:351: [deps.map(...)] starts the loads, one after the other *)
Fixpoint map_loadModuleInternal (refPath : string) (deps : list string)
    (started : list promise) (k : list promise -> async) : async :=
  match deps with
  | [] => k started
  | relPath :: deps' =>
      let pathCx := {| refPath := refPath; relPath := relPath |} in
      Call (F_loadModuleInternal pathCx) (loadModuleInternal pathCx) (fun p =>
      map_loadModuleInternal refPath deps' (started ++ [p]) k)
  end.

Definition loadDeps (refPath : string) (deps : list string) : async :=
  map_loadModuleInternal refPath deps [] (fun ps =>
  Await (WAll ps) (KFun (fun _ => Ret VUndefined))).

(** tools.ts:304: the [require] handed to the module's code; [k] is the code
    that called it, which may catch what [require] throws *)
Definition require (refPath relPath : string) (k : outcome -> async) : async :=
  GetResource {| refPath := refPath; relPath := relPath |} (fun res =>
  let id := r_id res in
  CacheIn id (fun present =>
  if present then CacheGet id (fun entry => k (Fulfilled entry))
  else k (Rejected (Error (id +:+ " not found in moduleCache"))))).

(** tools.ts:313 *)
Definition importFunction (refPath relPath : string) : async :=
  let pathCx := {| refPath := refPath; relPath := relPath |} in
  Call (F_loadModuleInternal pathCx) (loadModuleInternal pathCx) (fun p =>
  return_await (WPromise p)).

Fixpoint run_script (refPath : string) (code : script) : async :=
  match code with
  | SReturn exports => Ret exports
  | SThrow e => Throw e
  | SRequire relPath k => require refPath relPath (fun o => run_script refPath (k o))
  | SImport relPath k =>
      Call (F_importFunction refPath relPath) (importFunction refPath relPath) (fun _ =>
      run_script refPath k)
  end.

(** tools.ts:300, and the [.exports] its caller reads *)
Definition createModule (refPath source : string) : async :=
  run_script refPath
    (js_function host source refPath (resolve options {| refPath := refPath; relPath := "." |})).

(** tools.ts:333. A cached value of another shape than
    [[depsList, transformedSource]] with [depsList] an array of strings makes
    the destructuring or [deps.map] fail. *)
Definition createJSModule (source : string) (moduleSourceType : bool) (filename : string)
    : async :=
  Call F_withCache
    (withCache (compiledCache options) [version host; source; filename] (fun _ =>
       Call (F_transformJSCode filename) (transformJSCode source moduleSourceType filename)
         (fun p => return_await (WPromise p))))
    (fun p =>
  Await (WPromise p) (KFun (fun r =>
  match r with
  | VArr (VArr depsList :: rest) =>
      match as_strings depsList with
      | Some deps =>
          let transformedSource := template (hd VUndefined rest) in
          Call (F_loadDeps filename) (loadDeps filename deps) (fun p =>
          Await (WPromise p) (KFun (fun _ =>
          createModule filename transformedSource)))
      | None => Throw (TypeError "relPath is not a string")
      end
  | _ => Throw (TypeError "depsList is not iterable")
  end))).

(** Modelled from the spec: [createSFCModule] (./createSFCModule, not part of
    the source at hand) is the ComponentCompiler collaborator,
    [compile(content, path, options) -> exportsValue], opaque to the core. *)
Definition createSFCModule (source path : string) : async :=
  Ext (E_createSFCModule source path) (fun p => return_await (WPromise p)).

(** tools.ts:360; [source.toString()] of a string is the string *)
Definition defaultHandleModule (extname : value) (source path : string) : async :=
  match extname with
  | VStr ext =>
      if String.eqb ext ".vue" then createSFCModule source path
      else if String.eqb ext ".js" then
        Call (F_createJSModule path false) (createJSModule source false path)
          (fun p => return_await (WPromise p))
      else if String.eqb ext ".mjs" then
        Call (F_createJSModule path true) (createJSModule source true path)
          (fun p => return_await (WPromise p))
      else Ret VUndefined
  | _ => Ret VUndefined
  end.

(** tools.ts:266 and 286: [return moduleCache[id] = module] *)
Definition loading_return (id : string) (module : value) : async :=
  CacheSet id module (Ret module).

(** tools.ts:283-286 *)
Definition loading_after_default (id path : string) (extname : value) (module : value)
    : async :=
  if is_undefined module then
    Throw (TypeError ("Unable to handle " +:+ template extname +:+ " files (" +:+ path +:+ ")"))
  else loading_return id module.

(** tools.ts:280-281 *)
Definition loading_after_handleModule (id path : string) (extname : value) (content : string)
    (module : value) : async :=
  if is_undefined module then
    Call (F_defaultHandleModule extname path) (defaultHandleModule extname content path)
      (fun p => Await (WPromise p) (KFun (loading_after_default id path extname)))
  else loading_after_default id path extname module.

(** tools.ts:269-278 *)
Definition loading_after_getContent (id path : string) (got : value) : async :=
  match get_field "content" got, get_field "extname" got with
  | inl content, inl extname =>
      match content with
      | VStr text =>
          if handleModule options then
            Ext (E_handleModule extname text path) (fun p =>
            Await (WPromise p) (KFun (loading_after_handleModule id path extname text)))
          else loading_after_handleModule id path extname text VUndefined
      | _ =>
          Throw (TypeError ("Invalid module content (" +:+ path +:+ "): " +:+ template content))
      end
  | inr e, _ | _, inr e => Throw e
  end.

(** tools.ts:264-269 *)
Definition loading_after_loadModule (id path : string) (module : value) : async :=
  if is_undefined module then await_getContent id path
  else loading_return id module.

Definition apply_kont (k : kont) (v : value) : async :=
  match k with
  | KFun f => f v
  | K_loadModule id path => loading_after_loadModule id path v
  | K_getContent id path => loading_after_getContent id path v
  end.

End Loader.

(** ** The scheduler

    One thread, cooperative: between two [await]s nothing else runs. A step
    is a request from the loader's caller, the environment settling the
    promise of a collaborator, or a suspended activation going on once what
    it awaits has settled. Any order of such steps is a schedule. *)

Definition rejection_among (ps : list promise) (x : promise * outcome) : option error :=
  match snd x with
  | Rejected e => if existsb (Nat.eqb (fst x)) ps then Some e else None
  | Fulfilled _ => None
  end.

(** The first rejection, in time, of one of [ps]; [oldest_first] is in the
    order of settling. *)
Fixpoint first_rejected (ps : list promise) (oldest_first : list (promise * outcome))
    : option error :=
  match oldest_first with
  | [] => None
  | x :: rest =>
      match rejection_among ps x with
      | Some e => Some e
      | None => first_rejected ps rest
      end
  end.

Fixpoint all_fulfilled (l : list (promise * outcome)) (ps : list promise)
    : option (list value) :=
  match ps with
  | [] => Some []
  | p :: ps' =>
      match outcome_of l p with
      | Some (Fulfilled v) => option_map (cons v) (all_fulfilled l ps')
      | _ => None
      end
  end.

(** What an [await] of [w] yields now, if anything. [Promise.all] rejects
    with the first rejection and fulfils once all have. *)
Definition poll (s : state) (w : wait) : option outcome :=
  match w with
  | WPromise p => outcome_of (settled s) p
  | WAll ps =>
      match first_rejected ps (rev (settled s)) with
      | Some e => Some (Rejected e)
      | None => option_map (fun vs => Fulfilled (VArr vs)) (all_fulfilled (settled s) ps)
      end
  | WValue v => Some (Fulfilled v)
  end.

Inductive label : Type :=
| Request (pathCx : PathContext)
| Settle (p : promise) (o : outcome)
| Resume (i : nat).

Definition is_ext (p : promise) (e : event) : bool :=
  match e with EvExt _ q => Nat.eqb q p | _ => false end.

(** [p] is the promise of a collaborator and has not settled. *)
Definition awaits_environment (s : state) (p : promise) : bool :=
  existsb (is_ext p) (trace s) &&
  match outcome_of (settled s) p with Some _ => false | None => true end.

Section Scheduler.

Context (host : Host) (options : Options).

(** A call of an asynchronous function from outside any activation. *)
Definition start (f : fname) (callee : async) (s : state) : state :=
  run (getResource options) callee (next_promise s) (emit (EvCall f (next_promise s)) (fresh s)).

(** A suspended activation goes on with the outcome of what it awaited; all
    the [await]s of [tools.ts] are outside any [try], so a rejection rejects
    the activation's own promise. *)
Definition resume (t : task) (o : outcome) (s : state) : state :=
  match o with
  | Fulfilled v =>
      run (getResource options) (apply_kont host options (t_kont t) v) (t_result t) s
  | Rejected e => settle (t_result t) (Rejected e) s
  end.

Definition step (l : label) (s : state) : option state :=
  match l with
  | Request pathCx =>
      Some (start (F_loadModuleInternal pathCx) (loadModuleInternal options pathCx) s)
  | Settle p o =>
      if awaits_environment s p then Some (settle p o s) else None
  | Resume i =>
      match pool s !! i with
      | Some t =>
          match poll s (t_wait t) with
          | Some o => Some (resume t o (set_pool (delete i (pool s)) s))
          | None => None
          end
      | None => None
      end
  end.

Fixpoint steps (ls : list label) (s : state) : option state :=
  match ls with
  | [] => Some s
  | l :: ls' =>
      match step l s with
      | Some s' => steps ls' s'
      | None => None
      end
  end.

End Scheduler.

(** A session starts with whatever the caller put in the module cache and in
    the compilation cache's store, and nothing in flight. *)
Definition init (cache : gmap string value) (store : gmap string string) : state :=
  {| moduleCache := cache; compiledStore := store; flags := []; settled := [];
     pool := []; next_promise := 0; trace := [] |}.

(** ** What every reachable state satisfies *)

(** The calls of the function of tools.ts:260 recorded in a trace: the
    identity loaded and the promise of the [Loading]. *)
Fixpoint loadings (tr : list event) : list (string * promise) :=
  match tr with
  | [] => []
  | EvCall (F_loading id) p :: tr' => (id, p) :: loadings tr'
  | _ :: tr' => loadings tr'
  end.

Definition event_promise (e : event) : option promise :=
  match e with
  | EvCall _ p | EvExt _ p => Some p
  | _ => None
  end.

(** The identity whose [Loading] the promise [p] belongs to, if any. *)
Definition role_of (tr : list event) (p : promise) : option string :=
  match find (fun x => Nat.eqb (snd x) p) (loadings tr) with
  | Some x => Some (fst x)
  | None => None
  end.

Definition not_loading (f : fname) : Prop :=
  match f with
  | F_loading _ | F_loadModuleInternal _ => False
  | _ => True
  end.

Definition is_load (p : promise) (e : event) : bool :=
  match e with
  | EvCall (F_loadModuleInternal _) q => Nat.eqb q p
  | _ => false
  end.

Section Invariant.

Context (host : Host) (options : Options).

(** [ok r a]: the activation [a] writes the module cache only as the
    function of tools.ts:260 does, [return moduleCache[id] = module], and
    only if it is that function for [id] ([r = Some id]); any other
    activation reaches the module cache through [loadModuleInternal]. *)
Inductive ok : option string -> async -> Prop :=
| ok_Ret v : ok None (Ret v)
| ok_Throw r e : ok r (Throw e)
| ok_GetResource r pathCx k : (forall res, ok r (k res)) -> ok r (GetResource pathCx k)
| ok_CacheIn r id k : (forall b, ok r (k b)) -> ok r (CacheIn id k)
| ok_CacheGet r id k : (forall v, ok r (k v)) -> ok r (CacheGet id k)
| ok_return id v : ok (Some id) (CacheSet id v (Ret v))
| ok_NewFlag r k : (forall f, ok r (k f)) -> ok r (NewFlag k)
| ok_SetFlag r f k : ok r k -> ok r (SetFlag f k)
| ok_GetFlag r f k : (forall b, ok r (k b)) -> ok r (GetFlag f k)
| ok_StoreGet r key k : (forall v, ok r (k v)) -> ok r (StoreGet key k)
| ok_StoreSet r key str k : ok r k -> ok r (StoreSet key str k)
| ok_Log r type args k : ok r k -> ok r (Log type args k)
| ok_Ext r c k : (forall p, ok r (k p)) -> ok r (Ext c k)
| ok_Call r f callee k :
    not_loading f -> ok None callee -> (forall p, ok r (k p)) -> ok r (Call f callee k)
| ok_load r pathCx k :
    (forall p, ok r (k p)) ->
    ok r (Call (F_loadModuleInternal pathCx) (loadModuleInternal options pathCx) k)
| ok_Await r w f : (forall v, ok r (f v)) -> ok r (Await w (KFun f))
| ok_Await_loadModule id path w : ok (Some id) (Await w (K_loadModule id path))
| ok_Await_getContent id path w : ok (Some id) (Await w (K_getContent id path)).

Definition kont_ok (r : option string) (k : kont) : Prop :=
  match k with
  | KFun f => forall v, ok r (f v)
  | K_loadModule id _ | K_getContent id _ => r = Some id
  end.

Context (cache0 : gmap string value).

(** The promise a call of [loadModuleInternal] for [id] found in the entry. *)
Definition entry_promise (s : state) (id : string) (q : promise) : Prop :=
  In (id, q) (loadings (trace s)) \/
  (exists p0, In (id, p0) (loadings (trace s)) /\
              outcome_of (settled s) p0 = Some (Fulfilled (VLoading q))) \/
  cache0 !! id = Some (VLoading q).

(** The value a call of [loadModuleInternal] for [id] found in the entry. *)
Definition entry_value (s : state) (id : string) (v : value) : Prop :=
  (exists p0, In (id, p0) (loadings (trace s)) /\
              outcome_of (settled s) p0 = Some (Fulfilled v)) \/
  cache0 !! id = Some v.

(** A call of [loadModuleInternal] awaits the promise it found in the entry
    and settles as that promise does, or it has returned the value it found. *)
Definition load_settled (s : state) (pathCx : PathContext) (pr : promise) : Prop :=
  let id := r_id (getResource options pathCx) in
  (exists q, entry_promise s id q /\
     ((outcome_of (settled s) pr = None /\
       In {| t_wait := WPromise q; t_kont := KFun Ret; t_result := pr |} (pool s)) \/
      (exists o, outcome_of (settled s) pr = Some o /\ outcome_of (settled s) q = Some o))) \/
  (exists v, outcome_of (settled s) pr = Some (Fulfilled v) /\
             instanceof_Loading v = false /\ entry_value s id v).

Definition owners (R : list (promise * option string)) (s : state) : list promise :=
  map fst R ++ map t_result (pool s).

(** The promises the calls recorded in a trace made. *)
Fixpoint event_promises (tr : list event) : list promise :=
  match tr with
  | [] => []
  | e :: tr' =>
      match event_promise e with
      | Some p => p :: event_promises tr'
      | None => event_promises tr'
      end
  end.

(** [R] lists the activations that are running (the one at work and its
    callers up the stack) with the identity each is the [Loading] of. *)
Record Inv_core (R : list (promise * option string)) (s : state) : Prop := {
  inv_trace_lt : forall p, In p (event_promises (trace s)) -> p < next_promise s;
  inv_trace_nodup : List.NoDup (event_promises (trace s));
  inv_settled_lt : forall p o, In (p, o) (settled s) -> p < next_promise s;
  inv_owners_lt : forall p, In p (owners R s) -> p < next_promise s;
  inv_owners_nodup : List.NoDup (owners R s);
  inv_owners_pending : forall p, In p (owners R s) -> outcome_of (settled s) p = None;
  inv_owners_not_ext : forall p c, In p (owners R s) -> ~ In (EvExt c p) (trace s);
  inv_pool_ok : forall t, In t (pool s) -> kont_ok (role_of (trace s) (t_result t)) (t_kont t);
  inv_R_role : forall p r, In (p, r) R -> role_of (trace s) p = r;
  inv_loadings_nodup : List.NoDup (map fst (loadings (trace s)));
  inv_loading : forall id p, In (id, p) (loadings (trace s)) ->
    (moduleCache s !! id = Some (VLoading p) /\
     forall v, outcome_of (settled s) p <> Some (Fulfilled v)) \/
    (exists v, outcome_of (settled s) p = Some (Fulfilled v) /\ moduleCache s !! id = Some v);
  inv_loading_new : forall id p, In (id, p) (loadings (trace s)) -> cache0 !! id = None;
  inv_cache0 : forall id,
    (exists p, In (id, p) (loadings (trace s))) \/ moduleCache s !! id = cache0 !! id;
}.

Definition loads_ok (s : state) : Prop :=
  forall pathCx pr,
    In (EvCall (F_loadModuleInternal pathCx) pr) (trace s) -> load_settled s pathCx pr.

Definition Inv (R : list (promise * option string)) (s : state) : Prop :=
  Inv_core R s /\ loads_ok s.

(** How a state can evolve: the trace and the settled promises only grow, and
    an entry of the module cache changes only from a [Loading] whose promise
    was pending, at the moment that promise is fulfilled. *)
Record evolves (s s' : state) : Prop := {
  ev_trace : exists tr, trace s' = (tr ++ trace s)%list;
  ev_next : next_promise s <= next_promise s';
  ev_settled : forall p o,
    outcome_of (settled s) p = Some o -> outcome_of (settled s') p = Some o;
  ev_cache : forall id x, moduleCache s !! id = Some x ->
    moduleCache s' !! id = Some x \/
    (exists p, x = VLoading p /\ outcome_of (settled s) p = None /\
               exists v, outcome_of (settled s') p = Some (Fulfilled v));
}.

End Invariant.

(** tools.ts:260, when [id] is not in the module cache: the function is
    called, calls a collaborator and awaits it; then the [Loading] is put in
    the module cache. *)
Definition installed (id : string) (c : ext_call) (k : kont) (s : state) : state :=
  let p := next_promise s in
  let q := S p in
  set_moduleCache (<[id := VLoading p]> (moduleCache s))
    (set_pool ({| t_wait := WPromise q; t_kont := k; t_result := p |} :: pool s)
       (emit (EvExt c q) (fresh (emit (EvCall (F_loading id) p) (fresh s))))).


Ltac case_find H :=
  match goal with
  | |- context [find ?f ?l] => destruct (find f l) eqn:H
  end.

Definition reachable (host : Host) (options : Options) (cache0 : gmap string value)
    (s : state) : Prop :=
  exists store0 ls, steps host options ls (init cache0 store0) = Some s.

(** ** What the properties count and name *)

(** How many times the function of tools.ts:260 was called for [id]: how
    many times a load of [id] began. *)
Definition times_loaded (id : string) (s : state) : nat :=
  count_occ string_dec (map fst (loadings (trace s))) id.

Definition is_getResource (e : event) : bool :=
  match e with EvGetResource _ => true | _ => false end.

Definition is_getContent (id : string) (e : event) : bool :=
  match e with EvExt (E_getContent id') _ => String.eqb id' id | _ => false end.

Definition is_dispatch (e : event) : bool :=
  match e with
  | EvExt (E_handleModule _ _ _) _ | EvExt (E_createSFCModule _ _) _
  | EvCall (F_defaultHandleModule _ _) _ | EvCall (F_createJSModule _ _) _ => true
  | _ => false
  end.


Definition is_valueFactory (e : event) : bool :=
  match e with EvCall F_valueFactory _ => true | _ => false end.

Definition is_store (e : event) : bool :=
  match e with EvStoreGet _ | EvStoreSet _ _ => true | _ => false end.

(** How many events of a kind a trace has. *)
Definition count (kind : event -> bool) (tr : list event) : nat :=
  length (List.filter kind tr).

(** [loadModuleInternal] was called for a reference that resolves to [id]. *)
Definition load_requested (options : Options) (id : string) (s : state) : Prop :=
  exists pathCx pr,
    In (EvCall (F_loadModuleInternal pathCx) pr) (trace s) /\
    r_id (getResource options pathCx) = id.

(** The load of [id] has failed: the entry is the [Loading] whose promise
    was rejected with [e]. *)
Definition failed (s : state) (id : string) (e : error) : Prop :=
  exists p, moduleCache s !! id = Some (VLoading p) /\
            outcome_of (settled s) p = Some (Rejected e).

(** No [Loading] stands where the exported value of [id] is expected:
    neither in what the caller put in the module cache nor in what the load
    of [id] produced. *)
Definition exports_no_Loading (cache0 : gmap string value) (s : state) (id : string) : Prop :=
  (forall q, cache0 !! id <> Some (VLoading q)) /\
  (forall p q, In (id, p) (loadings (trace s)) ->
               outcome_of (settled s) p <> Some (Fulfilled (VLoading q))).

(** ** A small configuration, for the examples *)

Definition reexport (o : outcome) : script :=
  match o with
  | Fulfilled v => SReturn v
  | Rejected e => SThrow e
  end.

Definition demo_host : Host := {|
  version := "0.2";
  ToString := fun _ => "[object Object]";
  md5 := fun s => s;
  JSON_stringify := fun v =>
    match v with VUndefined => inl None | VStr s => inl (Some s) | _ => inl (Some "[]") end;
  JSON_parse := fun s => inl (VStr s);
  babel_parse := fun source _ _ => ParseOk (VStr source);
  codeFrameColumns := fun _ _ _ msg => msg;
  renameDynamicImport := fun ast => ast;
  parseDeps := fun ast =>
    match ast with
    | VStr "require('./x.js'); require('./y.js')" => ["./x.js"; "./y.js"]
    | _ => []
    end;
  js_function := fun source _ _ =>
    if String.eqb source "module.exports = require(name)"
    then SRequire "./dep.js" reexport
    else SReturn (VObj 1);
|}.

Definition demo_options : Options := {|
  getResource := fun pathCx => {| r_id := relPath pathCx; r_path := relPath pathCx |};
  resolve := fun pathCx => refPath pathCx;
  loadModule := false;
  handleModule := false;
  compiledCache := false;
  log := true;
|}.

Definition demo_options_loadModule : Options := {|
  getResource := fun pathCx => {| r_id := relPath pathCx; r_path := relPath pathCx |};
  resolve := fun pathCx => refPath pathCx;
  loadModule := true;
  handleModule := false;
  compiledCache := false;
  log := true;
|}.

Definition demo_options_handleModule : Options := {|
  getResource := fun pathCx => {| r_id := relPath pathCx; r_path := relPath pathCx |};
  resolve := fun pathCx => refPath pathCx;
  loadModule := false;
  handleModule := true;
  compiledCache := false;
  log := true;
|}.

Definition from_root (relPath : string) : PathContext :=
  {| refPath := "/"; relPath := relPath |}.

(** What [getContent()] is fulfilled with: [{ content, extname }]. *)
Definition got (content extname : value) : value :=
  VRec [("content", content); ("extname", extname)].

(** The state a schedule leads to, from an empty session. *)
Definition after (host : Host) (options : Options) (ls : list label) : state :=
  match steps host options ls (init ∅ ∅) with
  | Some s => s
  | None => init ∅ ∅
  end.

(** Two requests for one module while it loads, the whole pipeline of a
    script without dependencies, and a third request once it has loaded. *)
Definition schedule_three_requests : list label :=
  [Request (from_root "./a.js"); Request (from_root "./a.js");
   Settle 2 (Fulfilled (got (VStr "let a") (VStr ".js"))); Resume 2;
   Settle 9 (Fulfilled (VRec [("code", VStr "exports.a = 1")]));
   Resume 5; Resume 4; Resume 3; Resume 2; Resume 1; Resume 0; Resume 1; Resume 0;
   Resume 0; Resume 0;
   Request (from_root "./a.js")].

(** A load that fails: the content cannot be fetched. *)
Definition schedule_failed_load : list label :=
  [Request (from_root "./a.js"); Settle 2 (Rejected (Other 404)); Resume 1; Resume 0].

(** With a [loadModule] callback that answers for the module. *)
Definition schedule_loadModule : list label :=
  [Request (from_root "./a.js"); Settle 2 (Fulfilled (VObj 7))].

(** With a [handleModule] callback that answers [null] for a stylesheet. *)
Definition schedule_handler_null : list label :=
  [Request (from_root "./a.css"); Settle 2 (Fulfilled (got (VStr "a {}") (VStr ".css")));
   Resume 1; Settle 3 (Fulfilled VNull)].

(** With a [handleModule] callback that declines a stylesheet. *)
Definition schedule_handler_declines : list label :=
  [Request (from_root "./a.css"); Settle 2 (Fulfilled (got (VStr "a {}") (VStr ".css")));
   Resume 1; Settle 3 (Fulfilled VUndefined); Resume 0].

(** The call of [loadModuleInternal] whose promise is [pr] awaits the promise
    [q]: it is suspended on [q], or it has settled as [q] did. *)
Definition attached (s : state) (pr q : promise) : Prop :=
  (outcome_of (settled s) pr = None /\
   In {| t_wait := WPromise q; t_kont := KFun Ret; t_result := pr |} (pool s)) \/
  (exists o, outcome_of (settled s) pr = Some o /\ outcome_of (settled s) q = Some o).

(** The load of [id] has not finished: it has not begun, or the promise of
    its [Loading] is pending. *)
Definition in_flight (s : state) (id : string) : Prop :=
  moduleCache s !! id = None \/
  exists p, In (id, p) (loadings (trace s)) /\ outcome_of (settled s) p = None.

(** [./dep.js] is requested and stays pending; [./main.js] is loaded, and
    its code requires [./dep.js] by a computed name, which [parseDeps] does
    not see. *)
Definition schedule_require_pending : list label :=
  [Request (from_root "./dep.js"); Request (from_root "./main.js");
   Settle 5 (Fulfilled (got (VStr "module.exports = require(name)") (VStr ".js")));
   Resume 1;
   Settle 11 (Fulfilled (VRec [("code", VStr "module.exports = require(name)")]));
   Resume 5; Resume 4; Resume 3; Resume 2; Resume 1; Resume 0; Resume 1; Resume 0; Resume 0].

(** Then [./main.js] is requested again, and [./dep.js] fails. *)
Definition schedule_require_pending_then_fails : list label :=
  schedule_require_pending ++
  [Request (from_root "./main.js"); Settle 2 (Rejected (Other 500));
   Resume 2; Resume 0; Resume 0].

(** A producer that returns [v] at once, after calling
    [api.preventCache()] if [prevent]. *)
Definition producer (prevent : bool) (v : value) : nat -> async :=
  fun api => if prevent then SetFlag api (Ret v) else Ret v.

(** What [withCache] hands to [set] after the producer has answered [v]:
    nothing when the producer has called [preventCache], nor when
    [JSON.stringify] throws; what [JSON.stringify] answers otherwise. *)
Definition handed_to_set (host : Host) (prevent : bool) (v : value) : option (option string) :=
  if prevent then None
  else match JSON_stringify host v with
       | inl valueStr => Some valueStr
       | inr _ => None
       end.

(** A host whose [JSON.stringify] throws for the objects, as it does for an
    object with a cycle. *)
Definition demo_host_circular : Host := {|
  version := version demo_host;
  ToString := ToString demo_host;
  md5 := md5 demo_host;
  JSON_stringify := fun v =>
    match v with
    | VObj _ => inr (TypeError "Converting circular structure to JSON")
    | _ => JSON_stringify demo_host v
    end;
  JSON_parse := JSON_parse demo_host;
  babel_parse := babel_parse demo_host;
  codeFrameColumns := codeFrameColumns demo_host;
  renameDynamicImport := renameDynamicImport demo_host;
  parseDeps := parseDeps demo_host;
  js_function := js_function demo_host;
|}.

(** One call of [withCache] with a store configured, run to its end: the
    call, then the three [await]s of a miss (or as many as there are). *)
Definition call_withCache (host : Host) (options : Options) (key : list string)
    (valueFactory : nat -> async) (s : state) : state :=
  let s1 := start options F_withCache (withCache host true key valueFactory) s in
  let go s := match step host options (Resume 0) s with Some s' => s' | None => s end in
  go (go (go s1)).

Definition demo_key : list string := ["0.2"; "let a"; "/a.js"].


Definition two_requires : string := "require('./x.js'); require('./y.js')".


(** The part of it up to the moment the code of [./main.js] is ready, just
    before [loadDeps] is called. *)
Definition schedule_two_deps_called : list label :=
  [Request (from_root "./main.js");
   Settle 2 (Fulfilled (got (VStr two_requires) (VStr ".js"))); Resume 1;
   Settle 8 (Fulfilled (VRec [("code", VStr two_requires)]));
   Resume 5; Resume 4; Resume 3].


(** ** Who may still fetch

    [getContent] is called at tools.ts:269 alone, by the function of
    tools.ts:260, after [loadModule] if there is one. *)

(** An event that is neither the beginning of a load nor a fetch. *)
Definition quiet (e : event) : bool :=
  match e with
  | EvCall (F_loading _) _ | EvExt (E_getContent _) _ => false
  | _ => true
  end.

Definition is_fetch (c : ext_call) : bool :=
  match c with E_getContent _ => true | _ => false end.

(** The identities whose load awaits [loadModule] (tools.ts:264): the loads
    that have yet to reach tools.ts:269. *)
Fixpoint before_fetch (pool : list task) : list string :=
  match pool with
  | [] => []
  | t :: rest =>
      match t_kont t with
      | K_loadModule id _ => id :: before_fetch rest
      | _ => before_fetch rest
      end
  end.

Section FetchInvariant.

Context (options : Options).

(** [no_fetch a]: the activation [a] calls [getContent] only through
    [loadModuleInternal]. *)
Inductive no_fetch : async -> Prop :=
| nf_Ret v : no_fetch (Ret v)
| nf_Throw e : no_fetch (Throw e)
| nf_GetResource pathCx k : (forall res, no_fetch (k res)) -> no_fetch (GetResource pathCx k)
| nf_CacheIn id k : (forall b, no_fetch (k b)) -> no_fetch (CacheIn id k)
| nf_CacheGet id k : (forall v, no_fetch (k v)) -> no_fetch (CacheGet id k)
| nf_CacheSet id v k : no_fetch k -> no_fetch (CacheSet id v k)
| nf_NewFlag k : (forall f, no_fetch (k f)) -> no_fetch (NewFlag k)
| nf_SetFlag f k : no_fetch k -> no_fetch (SetFlag f k)
| nf_GetFlag f k : (forall b, no_fetch (k b)) -> no_fetch (GetFlag f k)
| nf_StoreGet key k : (forall v, no_fetch (k v)) -> no_fetch (StoreGet key k)
| nf_StoreSet key str k : no_fetch k -> no_fetch (StoreSet key str k)
| nf_Log type args k : no_fetch k -> no_fetch (Log type args k)
| nf_Ext c k : is_fetch c = false -> (forall p, no_fetch (k p)) -> no_fetch (Ext c k)
| nf_Call f callee k :
    not_loading f -> no_fetch callee -> (forall p, no_fetch (k p)) ->
    no_fetch (Call f callee k)
| nf_load pathCx k :
    (forall p, no_fetch (k p)) ->
    no_fetch (Call (F_loadModuleInternal pathCx) (loadModuleInternal options pathCx) k)
| nf_Await w f : (forall v, no_fetch (f v)) -> no_fetch (Await w (KFun f))
| nf_Await_getContent id path w : no_fetch (Await w (K_getContent id path)).

(** The content of an identity is fetched at most once, and only after its
    load began; an identity whose load began is in the module cache; the
    loads that await [loadModule] have not fetched, and there is one of
    them for an identity at most; for an identity in [finished], whose load
    began and no longer awaits [loadModule], the number of fetches is the
    number [n] noted when it was found so. *)
Record Fetch (finished : string -> Prop) (n : string -> nat) (s : state) : Prop := {
  f_once : forall id, count (is_getContent id) (trace s) <= 1;
  f_began : forall id, count (is_getContent id) (trace s) <> 0 ->
                       In id (map fst (loadings (trace s)));
  f_cache : forall id, In id (map fst (loadings (trace s))) -> in_cache s id = true;
  f_waiting_nodup : List.NoDup (before_fetch (pool s));
  f_waiting : forall id, In id (before_fetch (pool s)) ->
                In id (map fst (loadings (trace s))) /\
                count (is_getContent id) (trace s) = 0;
  f_pool : forall t f, In t (pool s) -> t_kont t = KFun f -> forall v, no_fetch (f v);
  f_finished : forall id, finished id ->
                 In id (map fst (loadings (trace s))) /\
                 ~ In id (before_fetch (pool s)) /\
                 count (is_getContent id) (trace s) = n id;
}.

End FetchInvariant.

(** ** The rest of [tools.ts] *)

(** The line break of tools.ts:53 *)
Definition newline : Ascii.ascii := Ascii.ascii_of_nat 10.

Fixpoint has_newline (s : string) : bool :=
  match s with
  | EmptyString => false
  | String c rest => Ascii.eqb c newline || has_newline rest
  end.

(** tools.ts:148: [obj && obj.__esModule ? obj : { default: obj }] *)
Definition interopRequireDefault (obj : value) : value :=
  if truthy obj then
    match get_field "__esModule" obj with
    | inl marked => if truthy marked then obj else VRec [("default", obj)]
    | inr _ => VRec [("default", obj)]
    end
  else VRec [("default", obj)].

(** ** The two traversals of the syntax tree (tools.ts:160, 175)

    [traverse] of @babel/core walks the tree from the root, calling the
    visitor of a node's type when it enters the node and then walking the
    node's children in order; a node put in place by [replaceWith] is
    visited in its turn. *)
Module Ast.

(** The nodes the two visitors tell apart; [Node] is a node of any other
    type, with its children in the order they are walked. [Import] is the
    keyword [import] in the place of a callee. *)
Inductive node : Type :=
| Identifier (name : string)
| StringLiteral (value : string)
| Import
| CallExpression (callee : node) (arguments : list node)
| ImportDeclaration (specifiers : list node) (source : string)
| Node (type : string) (children : list node).

(** [t.isImport(node)] *)
Definition isImport (n : node) : bool :=
  match n with Import => true | _ => false end.

(** tools.ts:160: a call whose callee is [import] becomes a call of
    [import__] with the same arguments. *)
Fixpoint renameDynamicImport (n : node) : node :=
  match n with
  | CallExpression callee arguments =>
      CallExpression
        (if isImport callee then Identifier "import__" else renameDynamicImport callee)
        (map renameDynamicImport arguments)
  | ImportDeclaration specifiers source =>
      ImportDeclaration (map renameDynamicImport specifiers) source
  | Node type children => Node type (map renameDynamicImport children)
  | _ => n
  end.

(** tools.ts:186-190: [callee.name === 'require' && arguments.length === 1
    && t.isStringLiteral(arguments[0])], and then [arguments[0].value] *)
Definition required (callee : node) (arguments : list node) : option string :=
  match callee, arguments with
  | Identifier name, [StringLiteral value] =>
      if String.eqb name "require" then Some value else None
  | _, _ => None
  end.

(** tools.ts:175: the sources of the import declarations and the literal
    arguments of the calls of [require], in the order the walk meets them. *)
Fixpoint parseDeps (n : node) : list string :=
  match n with
  | ImportDeclaration specifiers source => source :: flat_map parseDeps specifiers
  | CallExpression callee arguments =>
      (match required callee arguments with Some value => [value] | None => [] end)
      ++ parseDeps callee ++ flat_map parseDeps arguments
  | Node _ children => flat_map parseDeps children
  | _ => []
  end.

(** How many calls of [import] a tree holds. *)
Fixpoint dynamic_imports (n : node) : nat :=
  match n with
  | CallExpression callee arguments =>
      (if isImport callee then 1 else dynamic_imports callee)
      + list_sum (map dynamic_imports arguments)
  | ImportDeclaration specifiers _ => list_sum (map dynamic_imports specifiers)
  | Node _ children => list_sum (map dynamic_imports children)
  | _ => 0
  end.

End Ast.

(** ** Awaiting all the dependencies *)


(** A script that fails to parse, for the examples: [babel_parse] throws
    for the source ["let"]. *)
Definition demo_host_parse_error : Host := {|
  version := "0.2";
  ToString := fun _ => "[object Object]";
  md5 := fun s => s;
  JSON_stringify := fun v =>
    match v with VUndefined => inl None | VStr s => inl (Some s) | _ => inl (Some "[]") end;
  JSON_parse := fun s => inl (VStr s);
  babel_parse := fun source _ _ =>
    if String.eqb source "let" then ParseError (SyntaxError "Unexpected token") 1 3
    else ParseOk (VStr source);
  codeFrameColumns := fun _ _ _ msg => msg;
  renameDynamicImport := fun ast => ast;
  parseDeps := fun _ => [];
  js_function := fun _ _ _ => SReturn (VObj 1);
|}.

(** The code of a module that never calls [import__]. *)
Fixpoint requires_only (code : script) : Prop :=
  match code with
  | SReturn _ | SThrow _ => True
  | SRequire _ k => forall o, requires_only (k o)
  | SImport _ _ => False
  end.

(** The state once the code of a module has made its calls of [require],
    each answered from the module cache as it is (tools.ts:304-310). *)
Fixpoint state_after_requires (options : Options) (refPath : string) (code : script)
    (s : state) : state :=
  match code with
  | SRequire relPath k =>
      let pathCx := {| refPath := refPath; relPath := relPath |} in
      let id := r_id (getResource options pathCx) in
      state_after_requires options refPath
        (k (match moduleCache s !! id with
            | Some entry => Fulfilled entry
            | None => Rejected (Error (id +:+ " not found in moduleCache"))
            end))
        (emit (EvGetResource pathCx) s)
  | _ => s
  end.

(** ** More schedules, for the examples *)

(** [getContent] answers with a content that is [null]. *)
Definition schedule_invalid_content : list label :=
  [Request (from_root "./a.js"); Settle 2 (Fulfilled (got VNull (VStr ".js")))].

(** [getContent] is rejected; the load has yet to go on. *)
Definition schedule_fetch_rejected : list label :=
  [Request (from_root "./a.js"); Settle 2 (Rejected (Other 404))].

(** With a [loadModule] callback that answers [undefined]. *)
Definition schedule_loadModule_declines : list label :=
  [Request (from_root "./a.js"); Settle 2 (Fulfilled VUndefined)].

(** [./main.js] requires [./x.js] and [./y.js]; up to the [await] of
    [loadDeps]. *)
Definition schedule_deps_awaited : list label :=
  (schedule_two_deps_called ++ [Resume 2])%list.

(** Then both dependencies are loaded, two components the built-in compiler
    answers for, and [loadDeps] is resumed. *)
Definition schedule_deps_loaded : list label :=
  [Settle 12 (Fulfilled (got (VStr "<x/>") (VStr ".vue"))); Resume 5;
   Settle 17 (Fulfilled (VObj 5)); Resume 1; Resume 0; Resume 4;
   Settle 15 (Fulfilled (got (VStr "<y/>") (VStr ".vue"))); Resume 3;
   Settle 19 (Fulfilled (VObj 6)); Resume 1; Resume 0; Resume 2; Resume 1].

(** ** The built-in dispatch, as a state *)

Section DispatchDefs.

Context (host : Host) (options : Options).

(** tools.ts:280-281, when the handler has answered [undefined] or there is
    none: the state once the load of [id], which was the activation [i] of
    the pool with the promise [p], has called the built-in dispatch and
    awaits its promise, to go on with [loading_after_default]. *)
Definition dispatched (id path : string) (extname : value) (text : string) (i : nat)
    (p : promise) (s : state) : state :=
  let n := next_promise s in
  let sd := run (getResource options) (defaultHandleModule host options extname text path) n
              (emit (EvCall (F_defaultHandleModule extname path) n)
                 (fresh (set_pool (delete i (pool s)) s))) in
  set_pool ({| t_wait := WPromise n; t_kont := KFun (loading_after_default host id path extname);
               t_result := p |} :: pool sd) sd.

End DispatchDefs.

(** A type tag that the built-in dispatch does not know (tools.ts:362-368). *)
Definition unsupported (extname : value) : Prop :=
  extname <> VStr ".vue" /\ extname <> VStr ".js" /\ extname <> VStr ".mjs".


(** The content of a component has arrived. *)
Definition schedule_vue : list label :=
  [Request (from_root "./a.vue");
   Settle 2 (Fulfilled (got (VStr "<template/>") (VStr ".vue")))].

(** * Properties *)

(** ** The cache key *)

Lemma truthy_or_empty_id (val : string) : truthy_or_empty val = val.
Proof.
  unfold truthy_or_empty. destruct (String.eqb_spec val ""); congruence.
Qed.

Lemma append_assoc (a b c : string) : (a +:+ b) +:+ c = a +:+ (b +:+ c).
Proof.
  induction a as [|ch a IH]; [reflexivity|].
  change (String ch ((a +:+ b) +:+ c) = String ch (a +:+ (b +:+ c))).
  now rewrite IH.
Qed.

Lemma append_empty_r (a : string) : a +:+ "" = a.
Proof.
  induction a as [|ch a IH]; [reflexivity|].
  change (String ch (a +:+ "") = String ch a). now rewrite IH.
Qed.

Lemma fold_append (valueList : list string) (h : SparkMD5) :
  fold_left (fun hashInstance val => SparkMD5_append hashInstance (truthy_or_empty val))
            valueList h
  = {| appended := appended h +:+ joined valueList |}.
Proof.
  revert h. induction valueList as [|val rest IH]; intros [buf].
  - cbn [fold_left joined fold_right appended]. now rewrite append_empty_r.
  - cbn [fold_left]. rewrite IH. cbn [SparkMD5_append appended joined fold_right].
    now rewrite truthy_or_empty_id, append_assoc.
Qed.

(** The key is the first eight characters of the digest of the parts put end
    to end, with nothing between them. *)
Lemma hash_joined (host : Host) (valueList : list string) :
  hash host valueList = slice0 8 (md5 host (joined valueList)).
Proof.
  unfold hash, SparkMD5_end. now rewrite fold_append.
Qed.

Lemma length_append (a b : string) :
  String.length (a +:+ b) = String.length a + String.length b.
Proof.
  induction a as [|ch a IH]; [reflexivity|].
  change (S (String.length (a +:+ b)) = S (String.length a + String.length b)).
  now rewrite IH.
Qed.

Lemma append_inj_l (a b c : string) : a +:+ b = a +:+ c -> b = c.
Proof.
  induction a as [|ch a IH]; [auto|].
  change (String ch (a +:+ b) = String ch (a +:+ c) -> b = c).
  intros H. injection H as H. auto.
Qed.

Lemma append_inj_r (a b c : string) : a +:+ c = b +:+ c -> a = b.
Proof.
  revert b. induction a as [|ch a IH]; intros [|ch' b] H.
  - reflexivity.
  - apply (f_equal String.length) in H. rewrite !length_append in H. cbn in H. lia.
  - apply (f_equal String.length) in H. rewrite !length_append in H. cbn in H. lia.
  - change (String ch (a +:+ c) = String ch' (b +:+ c)) in H.
    injection H as -> H. f_equal. auto.
Qed.

Lemma append_same_length (a b a' b' : string) :
  String.length a = String.length a' -> a +:+ b = a' +:+ b' -> a = a' /\ b = b'.
Proof.
  revert a'. induction a as [|ch a IH]; intros [|ch' a'] Hlen H; try discriminate Hlen.
  - now split.
  - change (String ch (a +:+ b) = String ch' (a' +:+ b')) in H.
    injection H as -> H. injection Hlen as Hlen.
    destruct (IH a' Hlen H) as [-> ->]. now split.
Qed.

(** Lists of parts of the same shape, part for part of the same length,
    read the same end to end only if they are the same. *)
Lemma joined_same_shape (l1 l2 : list string) :
  Forall2 (fun a b => String.length a = String.length b) l1 l2 ->
  joined l1 = joined l2 -> l1 = l2.
Proof.
  induction 1 as [|a b l1 l2 Hlen _ IH]; [reflexivity|].
  cbn [joined fold_right]. intros H.
  destruct (append_same_length _ _ _ _ Hlen H) as [-> Hrest]. f_equal. now apply IH.
Qed.

(** C3, as the code has it. The key is the first eight characters of the
    digest of the parts put end to end, with nothing between them. So equal
    lists have the same key, and so have lists that read the same end to
    end; the keys of two lists differ whenever the first eight characters
    of the digests of their texts do. Changing one part of [version],
    [source], [filename] and leaving the two others changes the text, and
    so does any change that keeps the length of each part: such a change
    changes the key, short of a collision of the digest's first eight
    characters. *)
Theorem hash_same_text_same_key (host : Host) (l1 l2 : list string) :
  hash host l1 = slice0 8 (md5 host (joined l1)) /\
  (l1 = l2 -> hash host l1 = hash host l2) /\
  (joined l1 = joined l2 -> hash host l1 = hash host l2) /\
  (slice0 8 (md5 host (joined l1)) <> slice0 8 (md5 host (joined l2)) ->
   hash host l1 <> hash host l2) /\
  (forall v c p v' c' p',
     l1 = [v; c; p] -> l2 = [v'; c'; p'] -> l1 <> l2 ->
     (v = v' /\ c = c') \/ (v = v' /\ p = p') \/ (c = c' /\ p = p') ->
     joined l1 <> joined l2) /\
  (Forall2 (fun a b => String.length a = String.length b) l1 l2 -> l1 <> l2 ->
   joined l1 <> joined l2) /\
  (joined l1 <> joined l2 ->
   (slice0 8 (md5 host (joined l1)) = slice0 8 (md5 host (joined l2)) ->
    joined l1 = joined l2) ->
   hash host l1 <> hash host l2).
Proof.
  rewrite !hash_joined. split; [reflexivity|]. split; [now intros ->|].
  split; [now intros ->|]. split; [auto|]. split; [|split].
  - intros v c p v' c' p' -> -> Hne Hone Heq. apply Hne.
    cbn [joined fold_right] in Heq. rewrite !append_empty_r in Heq.
    destruct Hone as [[-> ->]|[[-> ->]|[-> ->]]].
    + do 2 apply append_inj_l in Heq. now subst.
    + apply append_inj_l in Heq. apply append_inj_r in Heq. now subst.
    + apply append_inj_r in Heq. now subst.
  - intros Hshape Hne Heq. apply Hne. now apply joined_same_shape.
  - intros Hne Hinj Heq. apply Hne, Hinj, Heq.
Qed.

Lemma hash_same_text_same_key_witness :
  hash demo_host ["0.1"; "export default 1"; "/main.js"]
  = hash demo_host ["0.1"; "export default 1/"; "main.js"] /\
  hash demo_host ["0.1"; "export default 1"; "/main.js"]
  <> hash demo_host ["0.2"; "export default 1"; "/main.js"].
Proof.
  split.
  - destruct (hash_same_text_same_key demo_host ["0.1"; "export default 1"; "/main.js"]
                ["0.1"; "export default 1/"; "main.js"]) as (_ & _ & Hsame & _).
    apply Hsame. reflexivity.
  - destruct (hash_same_text_same_key demo_host ["0.1"; "export default 1"; "/main.js"]
                ["0.2"; "export default 1"; "/main.js"]) as (_ & _ & _ & Hdiff & _).
    apply Hdiff. vm_compute. discriminate.
Defined.

(** C3, as the spec has it, fails: the source text ["a"] at the path ["bc"]
    and the source text ["ab"] at the path ["c"] have the same key under
    every digest, because the parts are appended with nothing between. *)
Lemma hash_collision_by_combination :
  ["1"; "a"; "bc"] <> ["1"; "ab"; "c"] /\
  forall host : Host, hash host ["1"; "a"; "bc"] = hash host ["1"; "ab"; "c"].
Proof.
  split; [discriminate | intros host; rewrite !hash_joined; reflexivity].
Qed.

(** ** Promises *)


Lemma outcome_of_cons (p : promise) (o : outcome) (l : list (promise * outcome)) (q : promise) :
  outcome_of ((p, o) :: l) q = if Nat.eqb p q then Some o else outcome_of l q.
Proof. unfold outcome_of. simpl. destruct (Nat.eqb p q); reflexivity. Qed.

Lemma outcome_of_In (l : list (promise * outcome)) (p : promise) (o : outcome) :
  outcome_of l p = Some o -> In (p, o) l.
Proof.
  unfold outcome_of. case_find Hf; [|discriminate].
  intros [= <-]. apply find_some in Hf as [Hin Heq].
  apply Nat.eqb_eq in Heq. destruct p0 as [q o']. simpl in *. now subst q.
Qed.

Lemma outcome_settle (p : promise) (o : outcome) (s : state) (q : promise) :
  outcome_of (settled (settle p o s)) q =
  match outcome_of (settled s) q with
  | Some o' => Some o'
  | None => if Nat.eqb p q then Some o else None
  end.
Proof.
  unfold settle. destruct (outcome_of (settled s) p) as [o'|] eqn:Hp.
  - destruct (outcome_of (settled s) q) eqn:Hq; [reflexivity|].
    destruct (Nat.eqb_spec p q); [congruence | reflexivity].
  - cbn [settled]. rewrite outcome_of_cons.
    destruct (Nat.eqb_spec p q) as [->|Hne].
    + now rewrite Hp.
    + now destruct (outcome_of (settled s) q).
Qed.

Lemma outcome_settle_other (p : promise) (o : outcome) (s : state) (q : promise) :
  q <> p -> outcome_of (settled (settle p o s)) q = outcome_of (settled s) q.
Proof.
  intros Hne. rewrite outcome_settle.
  destruct (outcome_of (settled s) q); [reflexivity|].
  destruct (Nat.eqb_spec p q); [congruence | reflexivity].
Qed.

Lemma outcome_settle_pending (p : promise) (o : outcome) (s : state) :
  outcome_of (settled s) p = None -> outcome_of (settled (settle p o s)) p = Some o.
Proof. intros Hp. rewrite outcome_settle, Hp. now rewrite Nat.eqb_refl. Qed.

Lemma outcome_settle_keeps (p : promise) (o : outcome) (s : state) (q : promise) (o' : outcome) :
  outcome_of (settled s) q = Some o' -> outcome_of (settled (settle p o s)) q = Some o'.
Proof. intros Hq. now rewrite outcome_settle, Hq. Qed.

Lemma settle_fields (p : promise) (o : outcome) (s : state) :
  moduleCache (settle p o s) = moduleCache s /\
  compiledStore (settle p o s) = compiledStore s /\
  flags (settle p o s) = flags s /\
  pool (settle p o s) = pool s /\
  next_promise (settle p o s) = next_promise s /\
  trace (settle p o s) = trace s.
Proof. unfold settle. destruct (outcome_of (settled s) p); repeat split. Qed.

Ltac settle_fields p o s :=
  let H := fresh "Hf" in
  pose proof (settle_fields p o s) as H;
  destruct H as (? & ? & ? & ? & ? & ?).

Lemma settle_settled_In (p : promise) (o : outcome) (s : state) (q : promise) (o' : outcome) :
  In (q, o') (settled (settle p o s)) -> In (q, o') (settled s) \/ q = p.
Proof.
  unfold settle. destruct (outcome_of (settled s) p); [now left|].
  cbn [settled]. intros [[= <- <-]|Hin]; [now right | now left].
Qed.


(** ** The calls recorded in a trace *)

Lemma loadings_In (tr : list event) (id : string) (p : promise) :
  In (id, p) (loadings tr) <-> In (EvCall (F_loading id) p) tr.
Proof.
  induction tr as [|e tr IH]; [reflexivity|].
  destruct e as [cx|f q|c q|k|k v|t a]; cbn [loadings In]; try (rewrite IH; intuition congruence).
  destruct f; cbn [In]; rewrite ?IH; intuition congruence.
Qed.

Lemma role_of_Some (tr : list event) (p : promise) (id : string) :
  role_of tr p = Some id -> In (id, p) (loadings tr).
Proof.
  unfold role_of. case_find Hf; [|discriminate].
  intros [= <-]. apply find_some in Hf as [Hin Heq]. destruct p0 as [id' q]. simpl in *.
  apply Nat.eqb_eq in Heq. now subst q.
Qed.

Lemma role_of_None (tr : list event) (p : promise) (id : string) :
  role_of tr p = None -> ~ In (id, p) (loadings tr).
Proof.
  unfold role_of. case_find Hf; [discriminate|].
  intros _ Hin. eapply find_none in Hf; [|exact Hin]. simpl in Hf.
  now rewrite Nat.eqb_refl in Hf.
Qed.

Lemma role_of_cons (e : event) (tr : list event) (p : promise) :
  event_promise e <> Some p -> role_of (e :: tr) p = role_of tr p.
Proof.
  intros Hne. unfold role_of.
  destruct e as [cx|f q|c q|k|k v|t a]; cbn [loadings]; try reflexivity.
  destruct f; cbn [loadings]; try reflexivity.
  cbn [find snd]. destruct (Nat.eqb_spec q p) as [->|]; [|reflexivity].
  now contradiction Hne.
Qed.

Lemma role_of_loading_new (id : string) (tr : list event) (p : promise) :
  role_of (EvCall (F_loading id) p :: tr) p = Some id.
Proof. unfold role_of. cbn [loadings find snd fst]. now rewrite Nat.eqb_refl. Qed.

Lemma event_promises_In (tr : list event) (e : event) (p : promise) :
  In e tr -> event_promise e = Some p -> In p (event_promises tr).
Proof.
  induction tr as [|e' tr IH]; [contradiction|].
  intros [->|Hin] Hp; cbn [event_promises].
  - rewrite Hp. now left.
  - destruct (event_promise e'); [right|]; auto.
Qed.

Lemma event_unique (tr : list event) (e1 e2 : event) (p : promise) :
  List.NoDup (event_promises tr) -> In e1 tr -> In e2 tr ->
  event_promise e1 = Some p -> event_promise e2 = Some p -> e1 = e2.
Proof.
  induction tr as [|e tr IH]; [contradiction|].
  cbn [event_promises]. intros Hnd [->|H1] [->|H2] Hp1 Hp2; [reflexivity| | |].
  - rewrite Hp1 in Hnd. apply List.NoDup_cons_iff in Hnd as [Hnotin _].
    contradiction Hnotin. eapply event_promises_In; eauto.
  - rewrite Hp2 in Hnd. apply List.NoDup_cons_iff in Hnd as [Hnotin _].
    contradiction Hnotin. eapply event_promises_In; eauto.
  - apply IH; auto. destruct (event_promise e); [now apply List.NoDup_cons_iff in Hnd|assumption].
Qed.

Lemma loadings_promise_In (tr : list event) (id : string) (p : promise) :
  In (id, p) (loadings tr) -> In p (event_promises tr).
Proof.
  intros Hin. apply loadings_In in Hin. eapply event_promises_In; eauto.
Qed.

Lemma loadings_same_promise (tr : list event) (id id' : string) (p : promise) :
  List.NoDup (event_promises tr) ->
  In (id, p) (loadings tr) -> In (id', p) (loadings tr) -> id = id'.
Proof.
  intros Hnd H1 H2. apply loadings_In in H1, H2.
  assert (EvCall (F_loading id) p = EvCall (F_loading id') p) as Heq
    by (eapply event_unique; eauto).
  congruence.
Qed.

Lemma loadings_same_id (l : list (string * promise)) (id : string) (p p' : promise) :
  List.NoDup (map fst l) -> In (id, p) l -> In (id, p') l -> p = p'.
Proof.
  induction l as [|[id0 p0] l IH]; [contradiction|].
  cbn [map fst]. intros Hnd H1 H2. apply List.NoDup_cons_iff in Hnd as [Hnotin Hnd].
  destruct H1 as [E1|H1]; destruct H2 as [E2|H2].
  - congruence.
  - inversion E1; subst. contradiction Hnotin. apply (in_map fst) in H2. exact H2.
  - inversion E2; subst. contradiction Hnotin. apply (in_map fst) in H1. exact H1.
  - auto.
Qed.

Lemma role_of_In (tr : list event) (id : string) (p : promise) :
  List.NoDup (event_promises tr) -> In (id, p) (loadings tr) -> role_of tr p = Some id.
Proof.
  intros Hnd Hin. destruct (role_of tr p) as [id'|] eqn:Hr.
  - apply role_of_Some in Hr. f_equal. eapply loadings_same_promise; eauto.
  - now apply role_of_None with (id := id) in Hr.
Qed.

Lemma ext_not_loading (tr : list event) (c : ext_call) (id : string) (p : promise) :
  List.NoDup (event_promises tr) -> In (EvExt c p) tr -> ~ In (id, p) (loadings tr).
Proof.
  intros Hnd Hext Hin. apply loadings_In in Hin.
  assert (EvExt c p = EvCall (F_loading id) p) by (eapply event_unique; eauto).
  discriminate.
Qed.

(** ** How states evolve *)

Section Evolution.

Lemma evolves_refl (s : state) : evolves s s.
Proof.
  constructor; auto.
  exists []. reflexivity.
Qed.

Lemma evolves_trans (s1 s2 s3 : state) : evolves s1 s2 -> evolves s2 s3 -> evolves s1 s3.
Proof.
  intros [[tr1 Ht1] Hn1 Hs1 Hc1] [[tr2 Ht2] Hn2 Hs2 Hc2]. constructor.
  - exists (tr2 ++ tr1)%list. rewrite Ht2, Ht1. now rewrite app_assoc.
  - lia.
  - auto.
  - intros id x Hx. destruct (Hc1 id x Hx) as [Hkeep|(p & -> & Hp & v & Hv)].
    + destruct (Hc2 id x Hkeep) as [Hkeep2|(p & -> & Hp & v & Hv)]; [now left|].
      right. exists p. split; [reflexivity|]. split; [|eauto].
      destruct (outcome_of (settled s1) p) as [o|] eqn:Ho; [|reflexivity].
      apply Hs1 in Ho. congruence.
    + right. exists p. split; [reflexivity|]. split; [assumption|]. eauto.
Qed.

Lemma evolves_same (s s' : state) :
  moduleCache s' = moduleCache s -> settled s' = settled s ->
  (exists tr, trace s' = (tr ++ trace s)%list) -> next_promise s <= next_promise s' ->
  evolves s s'.
Proof.
  intros Hc Hs Ht Hn. constructor; auto.
  - intros p o. now rewrite Hs.
  - intros id x. rewrite Hc. now left.
Qed.

Lemma evolves_emit (e : event) (s : state) : evolves s (emit e s).
Proof. apply evolves_same; auto. exists [e]. reflexivity. Qed.

Lemma evolves_fresh (s : state) : evolves s (fresh s).
Proof. apply evolves_same; cbn; auto. exists []. reflexivity. Qed.

Lemma evolves_set_flags (l : list bool) (s : state) : evolves s (set_flags l s).
Proof. apply evolves_same; auto. exists []. reflexivity. Qed.

Lemma evolves_set_compiledStore (m : gmap string string) (s : state) :
  evolves s (set_compiledStore m s).
Proof. apply evolves_same; auto. exists []. reflexivity. Qed.

Lemma evolves_set_pool (l : list task) (s : state) : evolves s (set_pool l s).
Proof. apply evolves_same; auto. exists []. reflexivity. Qed.

Lemma evolves_settle (p : promise) (o : outcome) (s : state) : evolves s (settle p o s).
Proof.
  settle_fields p o s. constructor.
  - exists []. assumption.
  - lia.
  - intros q o'. apply outcome_settle_keeps.
  - intros id x Hx. left. congruence.
Qed.

(** [return moduleCache[id] = module], by the function whose promise [p] the
    entry holds. *)
Lemma evolves_return (id : string) (p : promise) (v : value) (s : state) :
  moduleCache s !! id = Some (VLoading p) -> outcome_of (settled s) p = None ->
  evolves s (settle p (Fulfilled v) (set_moduleCache (<[id := v]> (moduleCache s)) s)).
Proof.
  intros Hc Hp. set (s1 := set_moduleCache _ s).
  settle_fields p (Fulfilled v) s1. constructor.
  - exists []. assumption.
  - cbn in *. lia.
  - intros q o' Hq. apply outcome_settle_keeps. exact Hq.
  - intros id' x Hx. destruct (decide (id' = id)) as [->|Hne].
    + right. exists p. rewrite Hc in Hx. injection Hx as <-.
      split; [reflexivity|]. split; [assumption|].
      exists v. apply outcome_settle_pending. exact Hp.
    + left. rewrite H. subst s1. cbn. now rewrite lookup_insert_ne.
Qed.

End Evolution.

(** ** The invariant, operation by operation *)

Lemma loadings_cons_other (e : event) (tr : list event) :
  (forall id p, e <> EvCall (F_loading id) p) -> loadings (e :: tr) = loadings tr.
Proof.
  intros Hne. destruct e as [cx|f q|c q|k|k v|t a]; try reflexivity.
  destruct f; try reflexivity. now contradiction (Hne id q).
Qed.

Lemma role_of_cons_other (e : event) (tr : list event) (p : promise) :
  (forall id q, e <> EvCall (F_loading id) q) -> role_of (e :: tr) p = role_of tr p.
Proof. intros Hne. unfold role_of. now rewrite loadings_cons_other. Qed.

Lemma event_promises_cons (e : event) (tr : list event) (p : promise) :
  event_promise e = Some p -> event_promises (e :: tr) = p :: event_promises tr.
Proof. intros He. cbn [event_promises]. now rewrite He. Qed.

Lemma event_promises_plain (e : event) (tr : list event) :
  event_promise e = None -> event_promises (e :: tr) = event_promises tr.
Proof. intros He. cbn [event_promises]. now rewrite He. Qed.

Lemma fresh_unsettled (l : list (promise * outcome)) (n : nat) (p : promise) :
  (forall q o, In (q, o) l -> q < n) -> n <= p -> outcome_of l p = None.
Proof.
  intros Hlt Hp. destruct (outcome_of l p) as [o|] eqn:Ho; [|reflexivity].
  apply outcome_of_In, Hlt in Ho. lia.
Qed.

Section InvariantSteps.

Context (options : Options) (cache0 : gmap string value).

Local Abbreviation Inv_core := (Inv_core options cache0).
Local Abbreviation kont_ok := (kont_ok options).

Lemma Inv_core_same (R : list (promise * option string)) (s s' : state) :
  trace s' = trace s -> settled s' = settled s -> pool s' = pool s ->
  next_promise s' = next_promise s -> moduleCache s' = moduleCache s ->
  Inv_core R s -> Inv_core R s'.
Proof.
  intros Ht Hs Hp Hn Hc [].
  constructor; unfold owners in *; rewrite ?Ht, ?Hs, ?Hp, ?Hn, ?Hc; assumption.
Qed.

Lemma Inv_core_emit (R : list (promise * option string)) (e : event) (s : state) :
  event_promise e = None -> Inv_core R s -> Inv_core R (emit e s).
Proof.
  intros He [].
  assert (forall id p, e <> EvCall (F_loading id) p) as Hne
    by (intros id p ->; discriminate He).
  constructor; unfold owners in *; cbn [emit trace settled pool next_promise moduleCache];
    rewrite ?event_promises_plain, ?loadings_cons_other by assumption; try assumption.
  - intros p c Hin [->|Hext]; [discriminate He|]. now apply (inv_owners_not_ext0 p c).
  - intros t Hin. rewrite role_of_cons_other by assumption. auto.
  - intros p r Hin. rewrite role_of_cons_other by assumption. auto.
Qed.

Lemma Inv_core_ext (R : list (promise * option string)) (c : ext_call) (s : state) :
  Inv_core R s -> Inv_core R (emit (EvExt c (next_promise s)) (fresh s)).
Proof.
  intros [].
  assert (forall id p, EvExt c (next_promise s) <> EvCall (F_loading id) p) as Hne
    by discriminate.
  constructor; unfold owners in *;
    cbn [emit fresh trace settled pool next_promise moduleCache];
    rewrite ?loadings_cons_other by assumption; try assumption.
  - cbn [event_promises event_promise]. intros p [<-|Hin]; [lia|]. apply inv_trace_lt0 in Hin. lia.
  - cbn [event_promises event_promise]. constructor; [|assumption].
    intros Hin. apply inv_trace_lt0 in Hin. lia.
  - intros p o Hin. apply inv_settled_lt0 in Hin. lia.
  - intros p Hin. apply inv_owners_lt0 in Hin. lia.
  - intros p c' Hin [Heq|Hext]; [|now apply (inv_owners_not_ext0 p c')].
    injection Heq as _ <-. apply inv_owners_lt0 in Hin. lia.
Qed.

Lemma Inv_core_call (R : list (promise * option string)) (f : fname) (s : state) :
  (forall id, f <> F_loading id) -> Inv_core R s ->
  Inv_core ((next_promise s, None) :: R) (emit (EvCall f (next_promise s)) (fresh s)).
Proof.
  intros Hf [].
  assert (forall id p, EvCall f (next_promise s) <> EvCall (F_loading id) p) as Hne
    by (intros id p [= -> _]; now apply (Hf id)).
  constructor; unfold owners in *;
    cbn [emit fresh trace settled pool next_promise moduleCache map fst app];
    rewrite ?loadings_cons_other by assumption; try assumption.
  - cbn [event_promises event_promise]. intros p [<-|Hin]; [lia|]. apply inv_trace_lt0 in Hin. lia.
  - cbn [event_promises event_promise]. constructor; [|assumption].
    intros Hin. apply inv_trace_lt0 in Hin. lia.
  - intros p o Hin. apply inv_settled_lt0 in Hin. lia.
  - intros p [<-|Hin]; [lia|]. apply inv_owners_lt0 in Hin. lia.
  - constructor; [|assumption]. intros Hin. apply inv_owners_lt0 in Hin. lia.
  - intros p [<-|Hin]; [|auto]. eapply fresh_unsettled; eauto.
  - intros p c [<-|Hin] [Heq|Hext]; try discriminate Heq.
    + eapply event_promises_In in Hext; [|reflexivity]. apply inv_trace_lt0 in Hext. lia.
    + now apply (inv_owners_not_ext0 p c).
  - intros t Hin. rewrite role_of_cons_other by assumption. auto.
  - intros p r [[= <- <-]|Hin]; rewrite role_of_cons_other by assumption; [|auto].
    destruct (role_of (trace s) (next_promise s)) as [id|] eqn:Hr; [|reflexivity].
    apply role_of_Some, loadings_promise_In, inv_trace_lt0 in Hr. lia.
Qed.

Lemma Inv_core_drop (R : list (promise * option string)) (p : promise) (r : option string)
    (s : state) :
  Inv_core ((p, r) :: R) s ->
  Inv_core R s /\ ~ In p (owners R s) /\ p < next_promise s /\
  outcome_of (settled s) p = None /\ role_of (trace s) p = r /\
  (forall c, ~ In (EvExt c p) (trace s)).
Proof.
  intros []. unfold owners in *. cbn [map fst app] in *.
  apply List.NoDup_cons_iff in inv_owners_nodup0 as [Hnotin Hnd].
  split; [|repeat split; auto with datatypes].
  constructor; unfold owners; auto with datatypes.
Qed.

Lemma Inv_core_settle (R : list (promise * option string)) (p : promise) (o : outcome)
    (s : state) :
  Inv_core R s -> ~ In p (owners R s) -> p < next_promise s ->
  (forall id v, In (id, p) (loadings (trace s)) -> o <> Fulfilled v) ->
  Inv_core R (settle p o s).
Proof.
  intros [] Hnotin Hlt Hrej. settle_fields p o s.
  constructor; unfold owners in *; rewrite ?H, ?H0, ?H1, ?H2, ?H3, ?H4; try assumption.
  - intros q o' Hin. apply settle_settled_In in Hin as [Hin| ->]; eauto.
  - intros q Hin. rewrite outcome_settle_other; [auto|]. intros ->. contradiction.
  - intros id q Hin. destruct (inv_loading0 id q Hin) as [[Hc Hnf]|(v & Hv & Hc)].
    + left. split; [assumption|]. intros v. rewrite outcome_settle.
      destruct (outcome_of (settled s) q) as [o'|] eqn:Ho; [apply Hnf|].
      destruct (Nat.eqb_spec p q) as [->|]; [|discriminate].
      intros [= ->]. now apply (Hrej id v).
    + right. exists v. split; [|assumption]. now apply outcome_settle_keeps.
Qed.

Lemma Inv_core_return (R : list (promise * option string)) (id : string) (p : promise)
    (v : value) (s : state) :
  Inv_core R s -> ~ In p (owners R s) -> p < next_promise s ->
  outcome_of (settled s) p = None -> In (id, p) (loadings (trace s)) ->
  Inv_core R (settle p (Fulfilled v) (set_moduleCache (<[id := v]> (moduleCache s)) s)).
Proof.
  intros [] Hnotin Hlt Hpend Hload. set (s1 := set_moduleCache _ s).
  settle_fields p (Fulfilled v) s1.
  assert (outcome_of (settled s1) p = None) as Hpend1 by exact Hpend.
  constructor; unfold owners in *; rewrite ?H, ?H0, ?H1, ?H2, ?H3, ?H4;
    subst s1; cbn [set_moduleCache trace settled pool next_promise moduleCache] in *;
    try assumption.
  - intros q o' Hin. apply settle_settled_In in Hin as [Hin| ->]; eauto.
  - intros q Hin. rewrite outcome_settle_other; [auto|]. intros ->. contradiction.
  - intros id' q Hin. destruct (decide (id' = id)) as [->|Hne].
    + assert (q = p) as -> by (eapply loadings_same_id; eauto).
      right. exists v. split; [now apply outcome_settle_pending|]. apply lookup_insert_eq.
    + assert (q <> p) as Hqp.
      { intros ->. apply Hne. eapply loadings_same_promise; eauto. }
      rewrite lookup_insert_ne by congruence. rewrite outcome_settle_other by assumption.
      now apply inv_loading0.
  - intros id'. destruct (decide (id' = id)) as [->|Hne]; [left; eauto|].
    rewrite lookup_insert_ne by congruence. apply inv_cache1.
Qed.

Lemma Inv_core_await (R : list (promise * option string)) (p : promise) (w : wait) (k : kont)
    (s : state) :
  Inv_core R s -> ~ In p (owners R s) -> p < next_promise s ->
  outcome_of (settled s) p = None -> (forall c, ~ In (EvExt c p) (trace s)) ->
  kont_ok (role_of (trace s) p) k ->
  Inv_core R (set_pool ({| t_wait := w; t_kont := k; t_result := p |} :: pool s) s).
Proof.
  intros [] Hnotin Hlt Hpend Hext Hk.
  assert (forall x, In x (map fst R ++ p :: map t_result (pool s)) ->
                    x = p \/ In x (owners R s)) as Hin_inv.
  { intros x Hin. apply in_elt_inv in Hin as [->|Hin]; auto. }
  constructor; unfold owners in *;
    cbn [set_pool trace settled pool next_promise moduleCache map t_result]; try assumption.
  - intros x Hin. apply Hin_inv in Hin as [->|Hin]; auto.
  - eapply Permutation.Permutation_NoDup; [apply Permutation.Permutation_middle|].
    constructor; assumption.
  - intros x Hin. apply Hin_inv in Hin as [->|Hin]; auto.
  - intros x c Hin. apply Hin_inv in Hin as [->|Hin]; auto.
  - intros t [<-|Hin]; cbn [t_result t_kont]; auto.
Qed.

Lemma role_of_older (id : string) (p : promise) (tr : list event) (x : promise) :
  x <> p -> role_of (EvCall (F_loading id) p :: tr) x = role_of tr x.
Proof.
  intros Hne. unfold role_of. cbn [loadings find snd].
  destruct (Nat.eqb_spec p x); [congruence | reflexivity].
Qed.

Lemma Inv_core_not_loaded (R : list (promise * option string)) (s : state) (id : string)
    (p : promise) :
  Inv_core R s -> moduleCache s !! id = None -> ~ In (id, p) (loadings (trace s)).
Proof.
  intros [] Hnone Hin.
  destruct (inv_loading0 id p Hin) as [[Hc _]|(v & _ & Hc)]; congruence.
Qed.

Lemma Inv_core_install (R : list (promise * option string)) (id : string) (c : ext_call)
    (k : kont) (s : state) :
  Inv_core R s -> moduleCache s !! id = None -> kont_ok (Some id) k ->
  Inv_core R (installed id c k s).
Proof.
  intros HI Hnone Hk.
  pose proof (Inv_core_not_loaded R s id) as Hnl. destruct HI.
  assert (forall x, In x (owners R s) -> x <> next_promise s) as Hown.
  { intros x Hin ->. apply inv_owners_lt0 in Hin. lia. }
  assert (forall x, In x (map fst R ++ next_promise s :: map t_result (pool s)) ->
                    x = next_promise s \/ In x (owners R s)) as Hin_inv.
  { intros x Hin. apply in_elt_inv in Hin as [->|Hin]; auto. }
  constructor; unfold owners, installed in *;
    cbn [set_moduleCache set_pool emit fresh trace settled pool next_promise moduleCache
         map t_result t_kont loadings event_promises event_promise].
  - intros x [<-|[<-|Hin]]; [lia|lia|]. apply inv_trace_lt0 in Hin. lia.
  - constructor; [|constructor; [|assumption]].
    + intros [Heq|Hin]; [lia|]. apply inv_trace_lt0 in Hin. lia.
    + intros Hin. apply inv_trace_lt0 in Hin. lia.
  - intros x o Hin. apply inv_settled_lt0 in Hin. lia.
  - intros x Hin. apply Hin_inv in Hin as [->|Hin]; [lia|]. apply inv_owners_lt0 in Hin. lia.
  - eapply Permutation.Permutation_NoDup; [apply Permutation.Permutation_middle|].
    constructor; [|assumption]. intros Hin. now apply Hown in Hin.
  - intros x Hin. apply Hin_inv in Hin as [->|Hin]; [|auto].
    eapply fresh_unsettled; eauto.
  - intros x c' Hin. apply Hin_inv in Hin as [->|Hin].
    + intros [Heq|[Heq|Hext]]; [injection Heq; lia|discriminate Heq|].
      eapply event_promises_In in Hext; [|reflexivity]. apply inv_trace_lt0 in Hext. lia.
    + intros [Heq|[Heq|Hext]]; [|discriminate Heq|now apply (inv_owners_not_ext0 x c')].
      injection Heq as _ <-. apply inv_owners_lt0 in Hin. lia.
  - intros t [<-|Hin]; cbn [t_result t_kont].
    + change (kont_ok (role_of (EvCall (F_loading id) (next_promise s) :: trace s)
                               (next_promise s)) k).
      now rewrite role_of_loading_new.
    + change (kont_ok (role_of (EvCall (F_loading id) (next_promise s) :: trace s)
                               (t_result t)) (t_kont t)).
      rewrite role_of_older; [auto|]. apply Hown. apply in_or_app. right. now apply in_map.
  - intros x r Hin.
    change (role_of (EvCall (F_loading id) (next_promise s) :: trace s) x = r).
    rewrite role_of_older; [auto|]. apply Hown. apply in_or_app. left.
    apply (in_map fst) in Hin. exact Hin.
  - cbn [map fst]. constructor; [|assumption].
    intros Hin. apply in_map_iff in Hin as ([id' p'] & Heq & Hin). cbn in Heq. subst id'.
    now apply (Hnl p').
  - intros id' x [[= <- <-]|Hin].
    + left. split; [apply lookup_insert_eq|]. intros v.
      rewrite (fresh_unsettled (settled s) (next_promise s)); [discriminate|eauto|lia].
    + assert (id' <> id) as Hne by (intros ->; now apply (Hnl x)).
      rewrite lookup_insert_ne by congruence. now apply inv_loading0.
  - intros id' x [[= <- <-]|Hin]; [|eauto].
    destruct (inv_cache1 id) as [(p' & Hin)|Heq]; [now apply Hnl in Hin|congruence].
  - intros id'. destruct (decide (id' = id)) as [->|Hne]; [left; eexists; now left|].
    rewrite lookup_insert_ne by congruence.
    destruct (inv_cache1 id') as [(p' & Hin)|Heq]; [left; exists p'; now right|now right].
Qed.

(** *** The calls of [loadModuleInternal] *)

Local Abbreviation loads_ok := (loads_ok options cache0).
Local Abbreviation Inv := (Inv options cache0).

Lemma load_settled_mono (s s' : state) (pathCx : PathContext) (pr : promise) :
  load_settled options cache0 s pathCx pr ->
  (forall x, In x (loadings (trace s)) -> In x (loadings (trace s'))) ->
  (forall p o, outcome_of (settled s) p = Some o -> outcome_of (settled s') p = Some o) ->
  (forall t, In t (pool s) -> t_result t = pr -> outcome_of (settled s) pr = None ->
             In t (pool s') /\ outcome_of (settled s') pr = None) ->
  load_settled options cache0 s' pathCx pr.
Proof.
  intros Hl Hload Hset Hpool. unfold load_settled in *.
  assert (forall id q, entry_promise cache0 s id q -> entry_promise cache0 s' id q) as Hep.
  { intros id q [H|[(p0 & H & Hp0)|H]]; [left; auto|right; left; eauto|right; right; auto]. }
  assert (forall id v, entry_value cache0 s id v -> entry_value cache0 s' id v) as Hev.
  { intros id v [(p0 & H & Hp0)|H]; [left; eauto|right; auto]. }
  destruct Hl as [(q & Hq & [[Hpend Hin]|(o & Ho & Hqo)])|(v & Hv & Hplain & Hval)].
  - left. exists q. split; [auto|]. left.
    destruct (Hpool _ Hin eq_refl Hpend) as [Hin' Hpend']. split; assumption.
  - left. exists q. split; [auto|]. right. exists o. auto.
  - right. exists v. auto.
Qed.

Lemma loads_ok_mono (s s' : state) :
  loads_ok s ->
  (forall pathCx pr, In (EvCall (F_loadModuleInternal pathCx) pr) (trace s') ->
                     In (EvCall (F_loadModuleInternal pathCx) pr) (trace s)) ->
  (forall x, In x (loadings (trace s)) -> In x (loadings (trace s'))) ->
  (forall p o, outcome_of (settled s) p = Some o -> outcome_of (settled s') p = Some o) ->
  (forall t, In t (pool s) -> outcome_of (settled s) (t_result t) = None ->
             In t (pool s') /\ outcome_of (settled s') (t_result t) = None) ->
  loads_ok s'.
Proof.
  intros Hok Hev Hload Hset Hpool pathCx pr Hin.
  eapply load_settled_mono; eauto.
  intros t Ht <- Hp. now apply Hpool.
Qed.

Lemma Inv_same (R : list (promise * option string)) (s s' : state) :
  trace s' = trace s -> settled s' = settled s -> pool s' = pool s ->
  next_promise s' = next_promise s -> moduleCache s' = moduleCache s ->
  Inv R s -> Inv R s'.
Proof.
  intros Ht Hs Hp Hn Hc [HI HL]. split; [eapply Inv_core_same; eauto|].
  eapply loads_ok_mono; [exact HL|..]; rewrite ?Ht, ?Hs, ?Hp; auto.
Qed.

Lemma Inv_emit (R : list (promise * option string)) (e : event) (s : state) :
  event_promise e = None -> Inv R s -> Inv R (emit e s).
Proof.
  intros He [HI HL]. split; [now apply Inv_core_emit|].
  eapply loads_ok_mono; [exact HL|..]; cbn [emit trace settled pool]; auto.
  - intros pathCx pr [->|Hin]; [discriminate He|assumption].
  - rewrite loadings_cons_other; [auto|]. intros id p ->. discriminate He.
Qed.

Lemma Inv_ext (R : list (promise * option string)) (c : ext_call) (s : state) :
  Inv R s -> Inv R (emit (EvExt c (next_promise s)) (fresh s)).
Proof.
  intros [HI HL]. split; [now apply Inv_core_ext|].
  eapply loads_ok_mono; [exact HL|..]; cbn [emit fresh trace settled pool]; auto.
  intros pathCx pr [Heq|Hin]; [discriminate Heq|assumption].
Qed.

Lemma Inv_call (R : list (promise * option string)) (f : fname) (s : state) :
  not_loading f -> Inv R s ->
  Inv ((next_promise s, None) :: R) (emit (EvCall f (next_promise s)) (fresh s)).
Proof.
  intros Hf [HI HL]. split.
  - apply Inv_core_call; [|assumption]. intros id ->. exact Hf.
  - eapply loads_ok_mono; [exact HL|..]; cbn [emit fresh trace settled pool]; auto.
    + intros pathCx pr [Heq|Hin]; [|assumption]. injection Heq as -> _. contradiction Hf.
    + rewrite loadings_cons_other; [auto|]. intros id p [= -> _]. exact Hf.
Qed.

Lemma Inv_settle (R : list (promise * option string)) (p : promise) (r : option string)
    (o : outcome) (s : state) :
  Inv ((p, r) :: R) s -> (r = None \/ exists e, o = Rejected e) -> Inv R (settle p o s).
Proof.
  intros [HI HL] Hr.
  apply Inv_core_drop in HI as (HI & Hnotin & Hlt & Hpend & Hrole & Hext).
  settle_fields p o s. split.
  - apply Inv_core_settle; auto. intros id v Hin ->.
    destruct Hr as [->|(e & He)]; [|discriminate He].
    now apply (role_of_None _ _ id) in Hrole.
  - eapply loads_ok_mono; [exact HL|..]; rewrite ?H2, ?H4; auto.
    + intros q o'. apply outcome_settle_keeps.
    + intros t Hin Hpend'. split; [assumption|]. rewrite outcome_settle_other; [assumption|].
      intros Heq. apply Hnotin. unfold owners. apply in_or_app. right.
      rewrite <- Heq. now apply in_map.
Qed.

Lemma Inv_return (R : list (promise * option string)) (p : promise) (id : string) (v : value)
    (s : state) :
  Inv ((p, Some id) :: R) s ->
  Inv R (settle p (Fulfilled v) (set_moduleCache (<[id := v]> (moduleCache s)) s)).
Proof.
  intros [HI HL].
  apply Inv_core_drop in HI as (HI & Hnotin & Hlt & Hpend & Hrole & Hext).
  set (s1 := set_moduleCache _ s). settle_fields p (Fulfilled v) s1. split.
  - apply Inv_core_return; auto. now apply role_of_Some.
  - eapply loads_ok_mono; [exact HL|..]; rewrite ?H2, ?H4.
    + auto.
    + auto.
    + intros q o' Hq. apply outcome_settle_keeps. exact Hq.
    + intros t Hin Hpend'. split; [assumption|]. rewrite outcome_settle_other; [assumption|].
      intros Heq. apply Hnotin. unfold owners. apply in_or_app. right.
      rewrite <- Heq. now apply in_map.
Qed.

Lemma Inv_await (R : list (promise * option string)) (p : promise) (r : option string)
    (w : wait) (k : kont) (s : state) :
  Inv ((p, r) :: R) s -> kont_ok r k ->
  Inv R (set_pool ({| t_wait := w; t_kont := k; t_result := p |} :: pool s) s).
Proof.
  intros [HI HL] Hk.
  apply Inv_core_drop in HI as (HI & Hnotin & Hlt & Hpend & Hrole & Hext). split.
  - apply Inv_core_await; auto. now rewrite Hrole.
  - eapply loads_ok_mono; [exact HL|..]; cbn [set_pool trace settled pool]; auto.
    intros t Hin Hpend'. split; [now right|assumption].
Qed.

Lemma entry_promise_of_cache (R : list (promise * option string)) (s : state) (id : string)
    (q : promise) :
  Inv_core R s -> moduleCache s !! id = Some (VLoading q) -> entry_promise cache0 s id q.
Proof.
  intros [] Hc. destruct (inv_cache1 id) as [(p & Hin)|Heq].
  - destruct (inv_loading0 id p Hin) as [[Hc' _]|(v & Hv & Hc')].
    + left. congruence.
    + right. left. exists p. split; [assumption|]. congruence.
  - right. right. congruence.
Qed.

Lemma entry_value_of_cache (R : list (promise * option string)) (s : state) (id : string)
    (v : value) :
  Inv_core R s -> moduleCache s !! id = Some v -> instanceof_Loading v = false ->
  entry_value cache0 s id v.
Proof.
  intros [] Hc Hplain. destruct (inv_cache1 id) as [(p & Hin)|Heq].
  - destruct (inv_loading0 id p Hin) as [[Hc' _]|(v' & Hv & Hc')].
    + rewrite Hc in Hc'. injection Hc' as ->. discriminate Hplain.
    + left. exists p. split; [assumption|]. congruence.
  - right. congruence.
Qed.

(** What the first await of the function of tools.ts:260 is, and on which
    collaborator. *)
Lemma loading_run (gr : PathContext -> Resource) (id path : string) (p : promise) (s : state) :
  run gr (loading options id path) p s =
  set_pool ({| t_wait := WPromise (next_promise s);
               t_kont := if loadModule options then K_loadModule id path
                         else K_getContent id path;
               t_result := p |} :: pool s)
    (emit (EvExt (if loadModule options then E_loadModule id else E_getContent id)
                 (next_promise s)) (fresh s)).
Proof. unfold loading, await_getContent. destruct (loadModule options); reflexivity. Qed.

(** One call of [loadModuleInternal], up to its [await] or its return. *)
Lemma start_load (pathCx : PathContext) (s : state) :
  let id := r_id (getResource options pathCx) in
  let path := r_path (getResource options pathCx) in
  let pr := next_promise s in
  let s2 := emit (EvGetResource pathCx) (emit (EvCall (F_loadModuleInternal pathCx) pr) (fresh s)) in
  start options (F_loadModuleInternal pathCx) (loadModuleInternal options pathCx) s =
  match moduleCache s !! id with
  | Some (VLoading q) =>
      set_pool ({| t_wait := WPromise q; t_kont := KFun Ret; t_result := pr |} :: pool s2) s2
  | Some v => settle pr (Fulfilled v) s2
  | None =>
      let s6 := installed id (if loadModule options then E_loadModule id else E_getContent id)
                  (if loadModule options then K_loadModule id path else K_getContent id path)
                  s2 in
      set_pool ({| t_wait := WPromise (S pr); t_kont := KFun Ret; t_result := pr |} :: pool s6) s6
  end.
Proof.
  intros id path pr s2. unfold start, loadModuleInternal. cbn [run].
  fold id path pr s2. unfold in_cache, cache_get.
  change (moduleCache s2) with (moduleCache s).
  destruct (moduleCache s !! id) as [v|] eqn:Hc.
  - cbn [run]. unfold cache_get. change (moduleCache s2) with (moduleCache s). rewrite Hc.
    destruct v; reflexivity.
  - cbn [run]. rewrite loading_run. unfold cache_get.
    cbn [set_moduleCache moduleCache]. rewrite lookup_insert_eq. reflexivity.
Qed.

Lemma ok_Ret_any (v : value) : ok options None (Ret v).
Proof. constructor. Qed.

Lemma Inv_load (R : list (promise * option string)) (pathCx : PathContext) (s : state) :
  Inv R s ->
  Inv R (start options (F_loadModuleInternal pathCx) (loadModuleInternal options pathCx) s) /\
  evolves s (start options (F_loadModuleInternal pathCx) (loadModuleInternal options pathCx) s).
Proof.
  intros [HI HL].
  pose proof (start_load pathCx s) as Heq. cbv zeta in Heq. rewrite Heq. clear Heq.
  set (id := r_id (getResource options pathCx)).
  set (path := r_path (getResource options pathCx)).
  set (pr := next_promise s).
  set (s2 := emit (EvGetResource pathCx) (emit (EvCall (F_loadModuleInternal pathCx) pr) (fresh s))).
  assert (Inv_core ((pr, None) :: R) s2) as HI2.
  { apply Inv_core_emit; [reflexivity|]. apply Inv_core_call; [discriminate|assumption]. }
  assert (evolves s s2) as He2.
  { apply evolves_same; cbn; auto. eexists [_; _]. reflexivity. }
  assert (forall t, In t (pool s) -> t_result t <> pr) as Hres.
  { intros t Hin Heq. destruct HI. specialize (inv_owners_lt0 (t_result t)).
    unfold owners in inv_owners_lt0. rewrite in_app_iff in inv_owners_lt0.
    specialize (inv_owners_lt0 (or_intror (in_map _ _ _ Hin))). subst pr. lia. }
  assert (outcome_of (settled s) pr = None) as Hfresh.
  { destruct HI. eapply fresh_unsettled; eauto. }
  destruct (moduleCache s !! id) as [v|] eqn:Hc.
  - assert (instanceof_Loading v = false ->
            Inv R (settle pr (Fulfilled v) s2) /\ evolves s (settle pr (Fulfilled v) s2)) as Hplain.
    { intros Hv. settle_fields pr (Fulfilled v) s2.
      pose proof (Inv_core_drop _ _ _ _ HI2) as (HI2' & Hnotin & Hlt & Hpend & Hrole & Hext).
      split; [split|].
      - apply Inv_core_settle; auto. intros id' v' Hin _.
        now apply (role_of_None _ _ id') in Hrole.
      - intros cx' pr' Hin. rewrite H4 in Hin. cbn in Hin.
        destruct Hin as [Hin|[Hin|Hin]]; [discriminate Hin| |].
        + injection Hin as <- <-. right. exists v. split; [|split; [assumption|]].
          * now apply outcome_settle_pending.
          * fold id. destruct (entry_value_of_cache _ _ _ _ HI Hc Hv) as [(p0 & Hp0 & Ho)|Hv0].
            -- left. exists p0. rewrite H4. split; [exact Hp0|].
               apply outcome_settle_keeps. exact Ho.
            -- now right.
        + eapply load_settled_mono; [apply HL; exact Hin|..].
          * rewrite H4. auto.
          * intros q o Hq. apply outcome_settle_keeps. exact Hq.
          * intros t Hin' Ht Hp. rewrite H2. split; [exact Hin'|].
            rewrite outcome_settle_other; [exact Hp|]. rewrite <- Ht. now apply Hres.
      - eapply evolves_trans; [exact He2|apply evolves_settle]. }
    destruct v; try (apply Hplain; reflexivity). clear Hplain. rename p into q.
    pose proof (Inv_core_drop _ _ _ _ HI2) as (HI2' & Hnotin & Hlt & Hpend & Hrole & Hext).
    split; [split|].
    + apply Inv_core_await; auto. rewrite Hrole. exact ok_Ret_any.
    + intros cx' pr' Hin. cbn in Hin.
      destruct Hin as [Hin|[Hin|Hin]]; [discriminate Hin| |].
      * injection Hin as <- <-. left. exists q. split.
        -- apply (entry_promise_of_cache R s id q HI Hc).
        -- left. split; [exact Hfresh|now left].
      * eapply load_settled_mono; [apply HL; exact Hin|..]; cbn; auto.
    + eapply evolves_trans; [exact He2|apply evolves_set_pool].
  - set (c := if loadModule options then E_loadModule id else E_getContent id).
    set (k := if loadModule options then K_loadModule id path else K_getContent id path).
    assert (kont_ok (Some id) k) as Hk by (subst k; destruct (loadModule options); reflexivity).
    pose proof (Inv_core_install _ id c k s2 HI2 Hc Hk) as HI6.
    set (s6 := installed id c k s2) in *.
    pose proof (Inv_core_drop _ _ _ _ HI6) as (HI6' & Hnotin & Hlt & Hpend & Hrole & Hext).
    split; [split|].
    + apply Inv_core_await; auto. rewrite Hrole. exact ok_Ret_any.
    + intros cx' pr' Hin. cbn in Hin.
      destruct Hin as [Hin|[Hin|[Hin|[Hin|Hin]]]]; try discriminate Hin.
      * injection Hin as <- <-. left. exists (S pr). split.
        -- left. subst s6. unfold installed. cbn. now left.
        -- left. split; [exact Hfresh|now left].
      * eapply load_settled_mono; [apply HL; exact Hin|..]; cbn; auto.
    + constructor; cbn; auto.
      * eexists [_; _; _; _]. reflexivity.
      * intros id' x Hx. left. rewrite lookup_insert_ne; [exact Hx|]. congruence.
Qed.

(** *** One synchronous run *)

Local Abbreviation gr := (getResource options).

Lemma run_ok (r : option string) (a : async) :
  ok options r a ->
  forall (self : promise) (R : list (promise * option string)) (s : state),
    Inv ((self, r) :: R) s ->
    Inv R (run gr a self s) /\ evolves s (run gr a self s).
Proof.
  induction 1 as
    [v|r e|r pathCx k _ IH|r id k _ IH|r id k _ IH|id v|r k _ IH|r f k _ IH|r f k _ IH
    |r key k _ IH|r key str k _ IH|r type args k _ IH|r c k _ IH
    |r f callee k Hf _ IHc _ IHk|r pathCx k _ IH|r w f Hk _|id path w|id path w];
    intros self R s HInv; cbn [run].
  - split; [eapply Inv_settle; eauto|apply evolves_settle].
  - split; [eapply Inv_settle; eauto|apply evolves_settle].
  - destruct (IH (gr pathCx) self R (emit (EvGetResource pathCx) s)) as [HI He].
    { now apply Inv_emit. }
    split; [exact HI|]. eapply evolves_trans; [apply evolves_emit|exact He].
  - now apply IH.
  - now apply IH.
  - split; [now apply Inv_return|].
    destruct HInv as [HI _].
    pose proof (Inv_core_drop _ _ _ _ HI) as (HI' & Hnotin & Hlt & Hpend & Hrole & Hext).
    apply role_of_Some in Hrole. destruct HI'.
    destruct (inv_loading0 id self Hrole) as [[Hc _]|(v' & Hv & _)]; [|congruence].
    now apply evolves_return.
  - destruct (IH (length (flags s)) self R (set_flags (flags s ++ [false]) s)) as [HI He].
    { eapply Inv_same; [..|exact HInv]; reflexivity. }
    split; [exact HI|]. eapply evolves_trans; [apply evolves_set_flags|exact He].
  - destruct (IH self R (set_flags (<[f := true]> (flags s)) s)) as [HI He].
    { eapply Inv_same; [..|exact HInv]; reflexivity. }
    split; [exact HI|]. eapply evolves_trans; [apply evolves_set_flags|exact He].
  - now apply IH.
  - match goal with |- context [run gr (k ?x) self ?s'] =>
      destruct (IH x self R s') as [HI He]; [now apply Inv_emit|] end.
    split; [exact HI|]. eapply evolves_trans; [apply evolves_emit|exact He].
  - match goal with |- context [run gr k self ?s'] =>
      destruct (IH self R s') as [HI He] end.
    { apply Inv_emit; [reflexivity|]. eapply Inv_same; [..|exact HInv]; reflexivity. }
    split; [exact HI|].
    eapply evolves_trans; [apply evolves_set_compiledStore|].
    eapply evolves_trans; [apply evolves_emit|exact He].
  - destruct (IH self R (emit (EvLog type args) s)) as [HI He].
    { now apply Inv_emit. }
    split; [exact HI|]. eapply evolves_trans; [apply evolves_emit|exact He].
  - destruct (IH (next_promise s) self R (emit (EvExt c (next_promise s)) (fresh s)))
      as [HI He].
    { now apply Inv_ext. }
    split; [exact HI|].
    eapply evolves_trans; [apply evolves_fresh|].
    eapply evolves_trans; [apply evolves_emit|exact He].
  - set (s1 := emit (EvCall f (next_promise s)) (fresh s)).
    destruct (IHc (next_promise s) ((self, r) :: R) s1) as [HI1 He1].
    { now apply Inv_call. }
    destruct (IHk (next_promise s) self R (run gr callee (next_promise s) s1)) as [HI2 He2].
    { exact HI1. }
    split; [exact HI2|].
    eapply evolves_trans; [apply evolves_fresh|].
    eapply evolves_trans; [apply (evolves_emit (EvCall f (next_promise s)))|].
    eapply evolves_trans; [exact He1|exact He2].
  - destruct (Inv_load ((self, r) :: R) pathCx s HInv) as [HI1 He1].
    destruct (IH (next_promise s) self R _ HI1) as [HI2 He2].
    split; [exact HI2|]. eapply evolves_trans; [exact He1|exact He2].
  - split; [apply (Inv_await R self r); [exact HInv|exact Hk]|apply evolves_set_pool].
  - split; [apply (Inv_await R self (Some id)); [exact HInv|reflexivity]|apply evolves_set_pool].
  - split; [apply (Inv_await R self (Some id)); [exact HInv|reflexivity]|apply evolves_set_pool].
Qed.

End InvariantSteps.

(** ** The functions of [tools.ts] keep to the discipline [ok] *)

Section Programs.

Context (host : Host) (options : Options).

Ltac ok_step :=
  match goal with
  | |- ok _ _ (Ret _) => apply ok_Ret
  | |- ok _ _ (Throw _) => apply ok_Throw
  | |- ok _ _ (GetResource _ _) => apply ok_GetResource; intros
  | |- ok _ _ (CacheIn _ _) => apply ok_CacheIn; intros
  | |- ok _ _ (CacheGet _ _) => apply ok_CacheGet; intros
  | |- ok _ _ (CacheSet _ _ (Ret _)) => apply ok_return
  | |- ok _ _ (NewFlag _) => apply ok_NewFlag; intros
  | |- ok _ _ (SetFlag _ _) => apply ok_SetFlag
  | |- ok _ _ (GetFlag _ _) => apply ok_GetFlag; intros
  | |- ok _ _ (StoreGet _ _) => apply ok_StoreGet; intros
  | |- ok _ _ (StoreSet _ _ _) => apply ok_StoreSet
  | |- ok _ _ (Log _ _ _) => apply ok_Log
  | |- ok _ _ (Ext _ _) => apply ok_Ext; intros
  | |- ok _ _ (Call (F_loadModuleInternal _) _ _) => apply ok_load; intros
  | |- ok _ _ (Call _ _ _) => apply ok_Call; [exact I| |intros]
  | |- ok _ _ (Await _ (KFun _)) => apply ok_Await; intros
  | |- ok _ _ (Await _ (K_loadModule _ _)) => apply ok_Await_loadModule
  | |- ok _ _ (Await _ (K_getContent _ _)) => apply ok_Await_getContent
  | |- ok _ _ (if ?b then _ else _) => destruct b
  | |- ok _ _ (match ?x with _ => _ end) => destruct x
  end.

Lemma ok_withCache (cacheInstance : bool) (key : list string) (valueFactory : nat -> async) :
  (forall api, ok options None (valueFactory api)) ->
  ok options None (withCache host cacheInstance key valueFactory).
Proof.
  intros Hvf. unfold withCache, withCache_after_get, withCache_after_valueFactory, return_await.
  repeat first [apply Hvf | ok_step].
Qed.

Lemma ok_transformJSCode (source : string) (moduleSourceType : bool) (filename : string) :
  ok options None (transformJSCode host options source moduleSourceType filename).
Proof. unfold transformJSCode. repeat ok_step. Qed.

Lemma ok_map_loadModuleInternal (r : option string) (refPath : string) (deps : list string) :
  forall (started : list promise) (k : list promise -> async),
    (forall ps, ok options r (k ps)) ->
    ok options r (map_loadModuleInternal options refPath deps started k).
Proof.
  induction deps as [|relPath deps IH]; intros started k Hk; cbn [map_loadModuleInternal].
  - apply Hk.
  - apply ok_load. intros p. now apply IH.
Qed.

Lemma ok_loadDeps (refPath : string) (deps : list string) :
  ok options None (loadDeps options refPath deps).
Proof.
  unfold loadDeps. apply ok_map_loadModuleInternal. intros ps. repeat ok_step.
Qed.

Lemma ok_run_script (refPath : string) (code : script) :
  ok options None (run_script options refPath code).
Proof.
  induction code as [v|e|relPath k IH|relPath k IH]; cbn [run_script].
  - apply ok_Ret.
  - apply ok_Throw.
  - unfold require. repeat first [apply IH | ok_step].
  - unfold importFunction, return_await. repeat first [apply IH | ok_step].
Qed.

Lemma ok_createJSModule (source : string) (moduleSourceType : bool) (filename : string) :
  ok options None (createJSModule host options source moduleSourceType filename).
Proof.
  unfold createJSModule, createModule, return_await.
  apply ok_Call; [exact I| |intros p].
  - apply ok_withCache. intros _.
    apply ok_Call; [exact I|apply ok_transformJSCode|intros p]. repeat ok_step.
  - apply ok_Await. intros r.
    repeat first [apply ok_loadDeps | apply ok_run_script | ok_step].
Qed.

Lemma ok_defaultHandleModule (extname : value) (source path : string) :
  ok options None (defaultHandleModule host options extname source path).
Proof.
  unfold defaultHandleModule, createSFCModule, return_await.
  repeat first [apply ok_createJSModule | ok_step].
Qed.

Lemma ok_loading_after_default (id path : string) (extname module : value) :
  ok options (Some id) (loading_after_default host id path extname module).
Proof. unfold loading_after_default, loading_return. repeat ok_step. Qed.

Lemma ok_loading_after_handleModule (id path : string) (extname : value) (content : string)
    (module : value) :
  ok options (Some id) (loading_after_handleModule host options id path extname content module).
Proof.
  unfold loading_after_handleModule.
  repeat first [apply ok_defaultHandleModule | apply ok_loading_after_default | ok_step].
Qed.

Lemma ok_loading_after_getContent (id path : string) (got : value) :
  ok options (Some id) (loading_after_getContent host options id path got).
Proof.
  unfold loading_after_getContent.
  repeat first [apply ok_loading_after_handleModule | ok_step].
Qed.

Lemma ok_loading_after_loadModule (id path : string) (module : value) :
  ok options (Some id) (loading_after_loadModule id path module).
Proof. unfold loading_after_loadModule, await_getContent, loading_return. repeat ok_step. Qed.

Lemma apply_kont_ok (r : option string) (k : kont) (v : value) :
  kont_ok options r k -> ok options r (apply_kont host options k v).
Proof.
  destruct k as [f|id path|id path]; cbn [kont_ok apply_kont].
  - intros Hf. apply Hf.
  - intros ->. apply ok_loading_after_loadModule.
  - intros ->. apply ok_loading_after_getContent.
Qed.

End Programs.

(** ** Every step keeps the invariant *)

Lemma lookup_In {A : Type} (l : list A) (i : nat) (x : A) : l !! i = Some x -> In x l.
Proof.
  revert i. induction l as [|y l IH]; intros [|i] H; try discriminate H.
  - injection H as ->. now left.
  - right. eapply IH. exact H.
Qed.

Lemma In_delete {A : Type} (l : list A) (i : nat) (x : A) : In x (delete i l) -> In x l.
Proof.
  revert i. induction l as [|y l IH]; intros [|i] H; cbn in *; auto.
  destruct H as [->|H]; [now left|right; eauto].
Qed.

Lemma In_delete_other {A : Type} (l : list A) (i : nat) (t x : A) :
  l !! i = Some t -> In x l -> x <> t -> In x (delete i l).
Proof.
  revert i. induction l as [|y l IH]; intros [|i] Hi Hin Hne; cbn in *; try discriminate Hi.
  - injection Hi as ->. destruct Hin as [->|Hin]; [congruence|assumption].
  - destruct Hin as [->|Hin]; [now left|right; eauto].
Qed.

Lemma delete_perm {A : Type} (l : list A) (i : nat) (t : A) :
  l !! i = Some t -> Permutation.Permutation (t :: delete i l) l.
Proof.
  revert i. induction l as [|y l IH]; intros [|i] Hi; cbn in *; try discriminate Hi.
  - injection Hi as ->. reflexivity.
  - etransitivity; [apply Permutation.perm_swap|]. constructor. now apply IH.
Qed.

Lemma task_by_result (l : list task) (t t' : task) :
  List.NoDup (map t_result l) -> In t l -> In t' l -> t_result t = t_result t' -> t = t'.
Proof.
  induction l as [|x l IH]; [contradiction|].
  cbn [map]. intros Hnd H1 H2 Heq. apply List.NoDup_cons_iff in Hnd as [Hnotin Hnd].
  destruct H1 as [->|H1]; destruct H2 as [->|H2]; auto.
  - contradiction Hnotin. rewrite Heq. now apply in_map.
  - contradiction Hnotin. rewrite <- Heq. now apply in_map.
Qed.

Lemma existsb_is_load (tr : list event) (p : promise) :
  existsb (is_load p) tr = true ->
  exists pathCx, In (EvCall (F_loadModuleInternal pathCx) p) tr.
Proof.
  intros H. apply existsb_exists in H as (e & Hin & He).
  destruct e as [cx|f q|c q|k|k v|t a]; try discriminate He.
  destruct f; try discriminate He. apply Nat.eqb_eq in He. subst q. eauto.
Qed.

Lemma existsb_is_load_false (tr : list event) (p : promise) (pathCx : PathContext) :
  existsb (is_load p) tr = false -> ~ In (EvCall (F_loadModuleInternal pathCx) p) tr.
Proof.
  intros H Hin. assert (existsb (is_load p) tr = true) as Ht; [|congruence].
  apply existsb_exists. eexists. split; [exact Hin|]. cbn. apply Nat.eqb_refl.
Qed.

Lemma existsb_is_ext (tr : list event) (p : promise) :
  existsb (is_ext p) tr = true -> exists c, In (EvExt c p) tr.
Proof.
  intros H. apply existsb_exists in H as (e & Hin & He).
  destruct e as [cx|f q|c q|k|k v|t a]; try discriminate He.
  apply Nat.eqb_eq in He. subst q. eauto.
Qed.

Section Steps.

Context (host : Host) (options : Options) (cache0 : gmap string value).

Local Abbreviation Inv_core := (Inv_core options cache0).
Local Abbreviation Inv := (Inv options cache0).
Local Abbreviation loads_ok := (loads_ok options cache0).

Lemma Inv_init (store0 : gmap string string) : Inv [] (init cache0 store0).
Proof.
  split.
  - constructor; cbn; intros; try contradiction; try (now constructor); try (now right).
  - intros pathCx pr [].
Qed.

(** Taking a suspended activation out of the pool to run it. *)
Lemma Inv_core_take (s : state) (i : nat) (t : task) :
  Inv_core [] s -> pool s !! i = Some t ->
  Inv_core [(t_result t, role_of (trace s) (t_result t))] (set_pool (delete i (pool s)) s) /\
  kont_ok options (role_of (trace s) (t_result t)) (t_kont t).
Proof.
  intros [] Hi. pose proof (lookup_In _ _ _ Hi) as Hin.
  pose proof (delete_perm _ _ _ Hi) as Hperm.
  apply (Permutation.Permutation_map t_result) in Hperm. cbn [map] in Hperm.
  unfold owners in *. cbn [map app] in *.
  split; [|auto].
  constructor; unfold owners; cbn [set_pool trace settled pool next_promise moduleCache map fst app];
    try assumption.
  - intros p Hp. apply inv_owners_lt0. eapply Permutation.Permutation_in; eauto.
  - eapply Permutation.Permutation_NoDup; [symmetry; exact Hperm|assumption].
  - intros p Hp. apply inv_owners_pending0. eapply Permutation.Permutation_in; eauto.
  - intros p c Hp. apply inv_owners_not_ext0. eapply Permutation.Permutation_in; eauto.
  - intros t' Ht'. apply inv_pool_ok0. eapply In_delete; eauto.
  - intros p r [[= <- <-]|[]]. reflexivity.
Qed.

(** The environment settles the promise of a collaborator. *)
Lemma Inv_settle_env (s : state) (p : promise) (o : outcome) :
  Inv [] s -> awaits_environment s p = true -> Inv [] (settle p o s).
Proof.
  intros [HI HL] Hw. unfold awaits_environment in Hw.
  apply andb_prop in Hw as [Hext _]. apply existsb_is_ext in Hext as (c & Hext).
  pose proof HI as [].
  assert (~ In p (owners [] s)) as Hnotin.
  { intros Hin. now apply (inv_owners_not_ext0 p c). }
  settle_fields p o s. split.
  - apply Inv_core_settle; auto.
    + apply inv_trace_lt0. eapply event_promises_In; [exact Hext|reflexivity].
    + intros id v Hin. exfalso. eapply ext_not_loading; eauto.
  - eapply loads_ok_mono; [exact HL|..]; rewrite ?H2, ?H4; auto.
    + intros q o'. apply outcome_settle_keeps.
    + intros t Hin Hpend. split; [assumption|]. rewrite outcome_settle_other; [assumption|].
      intros Heq. apply Hnotin. unfold owners. cbn. rewrite <- Heq. now apply in_map.
Qed.

(** A suspended activation goes on. *)
Lemma Inv_resume (s : state) (i : nat) (t : task) (o : outcome) :
  Inv [] s -> pool s !! i = Some t -> poll s (t_wait t) = Some o ->
  Inv [] (resume host options t o (set_pool (delete i (pool s)) s)) /\
  evolves s (resume host options t o (set_pool (delete i (pool s)) s)).
Proof.
  intros [HI HL] Hi Hpoll. set (s1 := set_pool (delete i (pool s)) s).
  destruct (Inv_core_take s i t HI Hi) as [HI1 Hk]. fold s1 in HI1.
  pose proof (lookup_In _ _ _ Hi) as Hin.
  pose proof (Inv_core_drop _ _ _ _ _ _ HI1) as (HI1' & Hnotin & Hlt & Hpend & Hrole & Hext).
  assert (List.NoDup (map t_result (pool s))) as Hnd by (destruct HI; assumption).
  destruct (existsb (is_load (t_result t)) (trace s)) eqn:Hload.
  - apply existsb_is_load in Hload as (pathCx & Hev).
    destruct (HL pathCx _ Hev) as [(q & Hq & [[_ HinT]|(o' & Ho' & _)])|(v & Hv & _)];
      [|change (settled s1) with (settled s) in Hpend; congruence..].
    assert (t = {| t_wait := WPromise q; t_kont := KFun Ret; t_result := t_result t |}) as Ht
      by (eapply task_by_result; eauto).
    assert (resume host options t o s1 = settle (t_result t) o s1) as ->.
    { rewrite Ht. destruct o; reflexivity. }
    assert (outcome_of (settled s) q = Some o) as Hqo by (rewrite Ht in Hpoll; exact Hpoll).
    settle_fields (t_result t) o s1. split; [split|].
    + apply Inv_core_settle; auto. intros id v Hl. exfalso.
      apply loadings_In in Hl. destruct HI.
      assert (EvCall (F_loading id) (t_result t) = EvCall (F_loadModuleInternal pathCx) (t_result t))
        by (eapply event_unique; eauto).
      discriminate.
    + intros cx' pr' Hin'. rewrite H4 in Hin'. change (trace s1) with (trace s) in Hin'.
      destruct (decide (pr' = t_result t)) as [->|Hne].
      * destruct (HL cx' _ Hin') as [(q' & Hq' & [[_ HinT']|(o' & Ho' & _)])|(v & Hv & _)];
          [|change (settled s1) with (settled s) in Hpend; congruence..].
        assert (t = {| t_wait := WPromise q'; t_kont := KFun Ret; t_result := t_result t |})
          as Ht' by (eapply task_by_result; eauto).
        assert (q' = q) as -> by congruence.
        left. exists q. split.
        -- destruct Hq' as [Hl|[(p0 & Hl & Hp0)|Hc]].
           ++ left. rewrite H4. exact Hl.
           ++ right. left. exists p0. rewrite H4. split; [exact Hl|].
              apply outcome_settle_keeps. exact Hp0.
           ++ right. right. exact Hc.
        -- right. exists o. split; [now apply outcome_settle_pending|].
           apply outcome_settle_keeps. exact Hqo.
      * eapply load_settled_mono; [apply HL; exact Hin'|..].
        -- rewrite H4. auto.
        -- intros x o' Hx. apply outcome_settle_keeps. exact Hx.
        -- intros t' Ht' Hres Hp. rewrite H2. split.
           ++ eapply In_delete_other; eauto. congruence.
           ++ rewrite outcome_settle_other; [exact Hp|exact Hne].
    + eapply evolves_trans; [apply (evolves_set_pool (delete i (pool s)))|apply evolves_settle].
  - assert (Inv [(t_result t, role_of (trace s) (t_result t))] s1) as HInv1.
    { split; [exact HI1|]. intros cx' pr' Hin'.
      eapply load_settled_mono; [apply HL; exact Hin'|..]; auto.
      intros t' Ht' Hres Hp. split; [|exact Hp].
      eapply In_delete_other; eauto. intros ->.
      eapply existsb_is_load_false; [exact Hload|]. rewrite Hres. exact Hin'. }
    destruct o as [v|e]; cbn [resume].
    + destruct (run_ok options cache0 _ _ (apply_kont_ok host options _ _ v Hk) _ _ _ HInv1)
        as [HI2 He2].
      split; [exact HI2|].
      eapply evolves_trans; [apply (evolves_set_pool (delete i (pool s)))|exact He2].
    + split; [eapply Inv_settle; eauto|].
      eapply evolves_trans; [apply (evolves_set_pool (delete i (pool s)))|apply evolves_settle].
Qed.

Lemma step_Inv (l : label) (s s' : state) :
  Inv [] s -> step host options l s = Some s' -> Inv [] s' /\ evolves s s'.
Proof.
  intros HInv Hstep. destruct l as [pathCx|p o|i]; cbn [step] in Hstep.
  - injection Hstep as <-. now apply Inv_load.
  - destruct (awaits_environment s p) eqn:Hw; [|discriminate Hstep].
    injection Hstep as <-. split; [now apply Inv_settle_env|apply evolves_settle].
  - destruct (pool s !! i) as [t|] eqn:Hi; [|discriminate Hstep].
    destruct (poll s (t_wait t)) as [o|] eqn:Hpoll; [|discriminate Hstep].
    injection Hstep as <-. now apply Inv_resume.
Qed.

Lemma steps_Inv (ls : list label) (s s' : state) :
  Inv [] s -> steps host options ls s = Some s' -> Inv [] s' /\ evolves s s'.
Proof.
  revert s. induction ls as [|l ls IH]; intros s HInv Hsteps; cbn [steps] in Hsteps.
  - injection Hsteps as <-. split; [assumption|apply evolves_refl].
  - destruct (step host options l s) as [s1|] eqn:Hstep; [|discriminate Hsteps].
    destruct (step_Inv l s s1 HInv Hstep) as [HI1 He1].
    destruct (IH s1 HI1 Hsteps) as [HI2 He2].
    split; [assumption|]. eapply evolves_trans; eauto.
Qed.

Lemma reachable_Inv (s : state) : reachable host options cache0 s -> Inv [] s.
Proof.
  intros (store0 & ls & Hsteps). eapply steps_Inv; [apply Inv_init|exact Hsteps].
Qed.

Lemma steps_then (l1 l2 : list label) (s s1 s' : state) :
  steps host options l1 s = Some s1 -> steps host options l2 s1 = Some s' ->
  steps host options (l1 ++ l2) s = Some s'.
Proof.
  revert s. induction l1 as [|l l1 IH]; intros s H1 H2; cbn [app steps] in *.
  - now injection H1 as ->.
  - destruct (step host options l s) as [s0|]; [|discriminate H1]. now apply IH.
Qed.

Lemma reachable_on (s s' : state) (ls : list label) :
  reachable host options cache0 s -> steps host options ls s = Some s' ->
  reachable host options cache0 s'.
Proof.
  intros (store0 & ls0 & Hs0) Hsteps. exists store0, (ls0 ++ ls)%list.
  eapply steps_then; eauto.
Qed.

End Steps.

(** ** What a run leaves alone *)

Section Frame.

Context (host : Host) (options : Options).

(** A synchronous run settles only its own promise and promises it made,
    and takes no activation out of the pool. *)
Lemma run_frame (a : async) :
  forall (self : promise) (s : state),
    next_promise s <= next_promise (run (getResource options) a self s) /\
    (forall t, In t (pool s) -> In t (pool (run (getResource options) a self s))) /\
    (forall p, p <> self -> p < next_promise s ->
       outcome_of (settled (run (getResource options) a self s)) p
       = outcome_of (settled s) p).
Proof.
  induction a as [v|e|pathCx k IH|id k IH|id k IH|id v k IH|k IH|f k IH|f k IH|key k IH
                 |key str k IH|type args k IH|c k IH|f callee IHc k IHk|w k];
    intros self s; cbn [run].
  - settle_fields self (Fulfilled v) s. rewrite H2, H3. repeat split; auto.
    intros p Hne _. now apply outcome_settle_other.
  - settle_fields self (Rejected e) s. rewrite H2, H3. repeat split; auto.
    intros p Hne _. now apply outcome_settle_other.
  - apply (IH _ self (emit (EvGetResource pathCx) s)).
  - apply IH.
  - apply IH.
  - apply (IH self (set_moduleCache (<[id := v]> (moduleCache s)) s)).
  - apply (IH _ self (set_flags (flags s ++ [false]) s)).
  - apply (IH self (set_flags (<[f := true]> (flags s)) s)).
  - apply IH.
  - apply (IH _ self (emit (EvStoreGet key) s)).
  - apply (IH self (emit (EvStoreSet key str)
                      (set_compiledStore (store_set key str (compiledStore s)) s))).
  - apply (IH self (emit (EvLog type args) s)).
  - destruct (IH (next_promise s) self (emit (EvExt c (next_promise s)) (fresh s)))
      as (Hn & Hp & Ho).
    cbn in Hn. repeat split; [lia|exact Hp|].
    intros p Hne Hlt. apply Ho; [exact Hne|cbn; lia].
  - set (s1 := emit (EvCall f (next_promise s)) (fresh s)).
    destruct (IHc (next_promise s) s1) as (Hn1 & Hp1 & Ho1).
    destruct (IHk (next_promise s) self (run (getResource options) callee (next_promise s) s1))
      as (Hn2 & Hp2 & Ho2).
    cbn in Hn1. repeat split.
    + lia.
    + intros t Hin. apply Hp2, Hp1. exact Hin.
    + intros p Hne Hlt. rewrite Ho2 by (first [exact Hne | lia]).
      apply Ho1; cbn; lia.
  - cbn. repeat split; auto with datatypes.
Qed.

Context (cache0 : gmap string value).

(** Once a call awaits a promise, it settles as that promise does, whatever
    the schedule. *)
Lemma attached_step (s s' : state) (l : label) (pr q : promise) :
  Inv options cache0 [] s -> step host options l s = Some s' ->
  attached s pr q -> attached s' pr q.
Proof.
  intros [HI HL] Hstep [[Hpend Hin]|(o & Ho & Hq)].
  - pose proof HI as [].
    assert (In pr (owners [] s)) as Hown.
    { unfold owners. cbn. apply (in_map t_result) in Hin. exact Hin. }
    pose proof (inv_owners_lt0 _ Hown) as Hlt.
    destruct l as [pathCx|p o|i]; cbn [step] in Hstep.
    + injection Hstep as <-. unfold start.
      match goal with |- context [run _ ?a ?self ?st] =>
        destruct (run_frame a self st) as (_ & Hp & Hout) end.
      left. split.
      * rewrite Hout; [exact Hpend|cbn; lia|cbn; lia].
      * apply Hp. exact Hin.
    + destruct (awaits_environment s p) eqn:Hw; [|discriminate Hstep].
      injection Hstep as <-. settle_fields p o s. left. rewrite H2. split; [|exact Hin].
      rewrite outcome_settle_other; [exact Hpend|]. intros ->.
      unfold awaits_environment in Hw. apply andb_prop in Hw as [Hext _].
      apply existsb_is_ext in Hext as (c & Hext). now apply (inv_owners_not_ext0 p c).
    + destruct (pool s !! i) as [t|] eqn:Hi; [|discriminate Hstep].
      destruct (poll s (t_wait t)) as [o|] eqn:Hpoll; [|discriminate Hstep].
      injection Hstep as <-. pose proof (lookup_In _ _ _ Hi) as Hint.
      destruct (Nat.eq_dec (t_result t) pr) as [Heq|Hne].
      * assert (t = {| t_wait := WPromise q; t_kont := KFun Ret; t_result := pr |}) as ->.
        { eapply task_by_result; [exact inv_owners_nodup0|exact Hint|exact Hin|exact Heq]. }
        right. exists o. cbn in Hpoll.
        assert (resume host options
                  {| t_wait := WPromise q; t_kont := KFun Ret; t_result := pr |} o
                  (set_pool (delete i (pool s)) s)
                = settle pr o (set_pool (delete i (pool s)) s)) as ->
          by (destruct o; reflexivity).
        split; [now apply outcome_settle_pending|now apply outcome_settle_keeps].
      * left. destruct o as [v|e]; cbn [resume].
        -- match goal with |- context [run _ ?a ?self ?st] =>
             destruct (run_frame a self st) as (_ & Hp & Hout) end.
           split.
           ++ rewrite Hout; [exact Hpend|congruence|exact Hlt].
           ++ apply Hp. cbn. eapply In_delete_other; eauto.
              intros Heq'. apply Hne. now rewrite <- Heq'.
        -- match goal with |- context [settle ?x ?y ?st] => settle_fields x y st end.
           rewrite H2. split.
           ++ rewrite outcome_settle_other; [exact Hpend|congruence].
           ++ cbn. eapply In_delete_other; eauto.
              intros Heq'. apply Hne. now rewrite <- Heq'.
  - right. exists o.
    destruct (step_Inv host options cache0 l s s' (conj HI HL) Hstep) as [_ [_ _ Hset _]].
    split; now apply Hset.
Qed.

Lemma attached_steps (ls : list label) (s s' : state) (pr q : promise) :
  Inv options cache0 [] s -> steps host options ls s = Some s' ->
  attached s pr q -> attached s' pr q.
Proof.
  revert s. induction ls as [|l ls IH]; intros s HInv Hsteps Hatt; cbn [steps] in Hsteps.
  - now injection Hsteps as <-.
  - destruct (step host options l s) as [s1|] eqn:Hstep; [|discriminate Hsteps].
    apply (IH s1); [eapply step_Inv; eauto|exact Hsteps|].
    eapply attached_step; eauto.
Qed.

End Frame.

(** ** The content of an identity is fetched at most once *)

Section FetchOnce.

Context (host : Host) (options : Options) (finished : string -> Prop) (n : string -> nat).

Local Abbreviation Fetch := (Fetch options finished n).

Lemma count_cons (kind : event -> bool) (e : event) (tr : list event) :
  count kind (e :: tr) = (if kind e then 1 else 0) + count kind tr.
Proof. unfold count. cbn [List.filter]. destruct (kind e); reflexivity. Qed.

Lemma quiet_getContent (e : event) (id : string) : quiet e = true -> is_getContent id e = false.
Proof.
  destruct e as [|f p|c p| | |]; try reflexivity.
  destruct c; try reflexivity. discriminate.
Qed.

Lemma quiet_loadings (e : event) (tr : list event) :
  quiet e = true -> loadings (e :: tr) = loadings tr.
Proof.
  destruct e as [|f p|c p| | |]; try reflexivity.
  destruct f; try reflexivity. discriminate.
Qed.

Lemma Fetch_keep (s s' : state) :
  trace s' = trace s -> pool s' = pool s ->
  (forall id, in_cache s id = true -> in_cache s' id = true) ->
  Fetch s -> Fetch s'.
Proof.
  intros Ht Hp Hc []. split; rewrite ?Ht, ?Hp; auto.
Qed.

Lemma Fetch_settle (p : promise) (o : outcome) (s : state) : Fetch s -> Fetch (settle p o s).
Proof.
  intros HF. unfold settle. destruct (outcome_of (settled s) p); [exact HF|].
  now apply (Fetch_keep s).
Qed.

Lemma Fetch_fresh (s : state) : Fetch s -> Fetch (fresh s).
Proof. now apply Fetch_keep. Qed.

Lemma Fetch_emit (e : event) (s : state) : quiet e = true -> Fetch s -> Fetch (emit e s).
Proof.
  intros Hq []. split; cbn [emit trace pool]; rewrite ?(quiet_loadings e _ Hq); auto.
  - intros id. rewrite count_cons, (quiet_getContent e id Hq). apply f_once0.
  - intros id. rewrite count_cons, (quiet_getContent e id Hq). apply f_began0.
  - intros id Hin. rewrite count_cons, (quiet_getContent e id Hq). now apply f_waiting0.
  - intros id Hd. rewrite count_cons, (quiet_getContent e id Hq). now apply f_finished0.
Qed.

Lemma in_cache_insert (s : state) (id id' : string) (v : value) :
  in_cache s id' = true ->
  in_cache (set_moduleCache (<[id := v]> (moduleCache s)) s) id' = true.
Proof.
  unfold in_cache. cbn [set_moduleCache moduleCache].
  destruct (decide (id = id')) as [->|Hne].
  - now rewrite lookup_insert_eq.
  - now rewrite lookup_insert_ne.
Qed.

Lemma Fetch_CacheSet (id : string) (v : value) (s : state) :
  Fetch s -> Fetch (set_moduleCache (<[id := v]> (moduleCache s)) s).
Proof.
  apply Fetch_keep; try reflexivity. intros id'. apply in_cache_insert.
Qed.

Lemma Fetch_await (w : wait) (f : value -> async) (self : promise) (s : state) :
  (forall v, no_fetch options (f v)) -> Fetch s ->
  Fetch (set_pool ({| t_wait := w; t_kont := KFun f; t_result := self |} :: pool s) s).
Proof.
  intros Hf []. split; cbn [set_pool trace pool before_fetch t_kont]; auto.
  intros t g [<-|Hin] Heq.
  - injection Heq as <-. exact Hf.
  - eapply f_pool0; eauto.
Qed.

Lemma Fetch_await_getContent (w : wait) (id path : string) (self : promise) (s : state) :
  Fetch s ->
  Fetch (set_pool ({| t_wait := w; t_kont := K_getContent id path; t_result := self |}
                   :: pool s) s).
Proof.
  intros []. split; cbn [set_pool trace pool before_fetch t_kont]; auto.
  intros t g [<-|Hin] Heq.
  - discriminate Heq.
  - eapply f_pool0; eauto.
Qed.

Lemma before_fetch_delete (l : list task) (i : nat) (id : string) :
  In id (before_fetch (delete i l)) -> In id (before_fetch l).
Proof.
  revert i. induction l as [|t l IH]; intros [|i] H; cbn in *; auto.
  - destruct (t_kont t); auto. now right.
  - destruct (t_kont t); eauto. destruct H as [->|H]; [now left|right; eauto].
Qed.

Lemma before_fetch_delete_nodup (l : list task) (i : nat) :
  List.NoDup (before_fetch l) -> List.NoDup (before_fetch (delete i l)).
Proof.
  revert i. induction l as [|t l IH]; intros [|i] H; cbn in *; auto.
  - destruct (t_kont t); auto. now apply List.NoDup_cons_iff in H.
  - destruct (t_kont t); auto. apply List.NoDup_cons_iff in H as [Hnin Hnd].
    apply List.NoDup_cons_iff. split; [|auto].
    intros Hin. apply Hnin. eapply before_fetch_delete. exact Hin.
Qed.

Lemma before_fetch_lookup (l : list task) (i : nat) (t : task) (id path : string) :
  l !! i = Some t -> t_kont t = K_loadModule id path -> In id (before_fetch l).
Proof.
  revert i. induction l as [|t' l IH]; intros [|i] Hi Hk; try discriminate Hi; cbn in *.
  - injection Hi as ->. rewrite Hk. now left.
  - destruct (t_kont t'); eauto. right. eauto.
Qed.

Lemma before_fetch_taken (l : list task) (i : nat) (t : task) (id path : string) :
  l !! i = Some t -> t_kont t = K_loadModule id path -> List.NoDup (before_fetch l) ->
  ~ In id (before_fetch (delete i l)).
Proof.
  revert i. induction l as [|t' l IH]; intros [|i] Hi Hk Hnd; try discriminate Hi; cbn in *.
  - injection Hi as ->. rewrite Hk in Hnd. now apply List.NoDup_cons_iff in Hnd.
  - destruct (t_kont t') as [f|id' path'|id' path'] eqn:Hk'; eauto.
    apply List.NoDup_cons_iff in Hnd as [Hnin Hnd]. intros [->|Hin].
    + apply Hnin. eapply before_fetch_lookup; eauto.
    + eapply IH; eauto.
Qed.

Lemma Fetch_delete (i : nat) (s : state) : Fetch s -> Fetch (set_pool (delete i (pool s)) s).
Proof.
  intros []. split; cbn [set_pool trace pool]; auto.
  - now apply before_fetch_delete_nodup.
  - intros id Hin. apply f_waiting0. eapply before_fetch_delete. exact Hin.
  - intros t f Hin. apply f_pool0. eapply In_delete. exact Hin.
  - intros id Hd. destruct (f_finished0 id Hd) as (Hb & Hnw & Hn). repeat split; auto.
    intros Hin. apply Hnw. eapply before_fetch_delete. exact Hin.
Qed.

(** A load that begins: the identity was not in the module cache, so its
    load had not begun and its content had not been fetched. *)
Lemma Fetch_installed (id path : string) (s : state) :
  moduleCache s !! id = None -> Fetch s ->
  Fetch (installed id (if loadModule options then E_loadModule id else E_getContent id)
           (if loadModule options then K_loadModule id path else K_getContent id path) s).
Proof.
  intros Hc HF. pose proof HF as [].
  assert (~ In id (map fst (loadings (trace s)))) as Hnb.
  { intros Hin. apply f_cache0 in Hin. unfold in_cache in Hin. now rewrite Hc in Hin. }
  assert (count (is_getContent id) (trace s) = 0) as Hzero.
  { destruct (count (is_getContent id) (trace s)) eqn:E; [reflexivity|].
    exfalso. apply Hnb, f_began0. rewrite E. discriminate. }
  assert (~ In id (before_fetch (pool s))) as Hnw.
  { intros Hin. now apply f_waiting0 in Hin. }
  unfold installed.
  assert (forall id', id' <> id -> String.eqb id id' = false) as Hneq.
  { intros id' Hne. apply String.eqb_neq. congruence. }
  split; cbn [set_moduleCache set_pool emit fresh trace pool loadings map fst].
  - intros id'. rewrite !count_cons. cbn [is_getContent].
    destruct (loadModule options); cbn [is_getContent]; [apply f_once0|].
    destruct (decide (id' = id)) as [->|Hne].
    + rewrite String.eqb_refl, Hzero. cbn. lia.
    + rewrite (Hneq id' Hne). apply f_once0.
  - intros id'. rewrite !count_cons. cbn [is_getContent].
    destruct (decide (id' = id)) as [->|Hne]; [now left|].
    intros Hcount. right. apply f_began0.
    destruct (loadModule options); cbn [is_getContent] in Hcount; [exact Hcount|].
    now rewrite (Hneq id' Hne) in Hcount.
  - intros id' [<-|Hin]; unfold in_cache; cbn [set_moduleCache moduleCache].
    + now rewrite lookup_insert_eq.
    + apply f_cache0 in Hin. now apply in_cache_insert.
  - destruct (loadModule options); cbn [before_fetch t_kont]; [|exact f_waiting_nodup0].
    apply List.NoDup_cons_iff. now split.
  - intros id' Hin. rewrite !count_cons. cbn [is_getContent].
    destruct (loadModule options); cbn [before_fetch t_kont is_getContent] in *.
    + destruct Hin as [<-|Hin]; [split; [now left|exact Hzero]|].
      apply f_waiting0 in Hin as [Hb Hz]. split; [now right|exact Hz].
    + assert (id' <> id) as Hne by (intros ->; contradiction).
      apply f_waiting0 in Hin as [Hb Hz]. rewrite (Hneq id' Hne). split; [now right|exact Hz].
  - intros t f [<-|Hin] Heq.
    + destruct (loadModule options); discriminate Heq.
    + eapply f_pool0; eauto.
  - intros id' Hd. destruct (f_finished0 id' Hd) as (Hb & Hnw' & Hn).
    assert (id' <> id) as Hne by (intros ->; contradiction).
    rewrite !count_cons. cbn [is_getContent].
    split; [now right|]. split.
    + destruct (loadModule options); cbn [before_fetch t_kont]; [|exact Hnw'].
      intros [Heq|Hin]; [now apply Hne|now apply Hnw'].
    + destruct (loadModule options); cbn [is_getContent]; [exact Hn|].
      now rewrite (Hneq id' Hne).
Qed.

Lemma Fetch_load (pathCx : PathContext) (s : state) :
  Fetch s ->
  Fetch (start options (F_loadModuleInternal pathCx) (loadModuleInternal options pathCx) s).
Proof.
  intros HF. pose proof (start_load options pathCx s) as Heq. cbv zeta in Heq. rewrite Heq.
  assert (Fetch (emit (EvGetResource pathCx)
                   (emit (EvCall (F_loadModuleInternal pathCx) (next_promise s)) (fresh s))))
    as HF2.
  { apply Fetch_emit; [reflexivity|]. apply Fetch_emit; [reflexivity|]. now apply Fetch_fresh. }
  destruct (moduleCache s !! r_id (getResource options pathCx)) as [v|] eqn:Hc.
  - destruct v; try (now apply Fetch_settle).
    apply Fetch_await; [intros v; constructor|exact HF2].
  - apply Fetch_await; [intros v; constructor|]. now apply Fetch_installed.
Qed.

Lemma run_Fetch (a : async) :
  no_fetch options a -> forall (self : promise) (s : state),
  Fetch s -> Fetch (run (getResource options) a self s).
Proof.
  induction 1 as [v|e|pathCx k _ IH|id k _ IH|id k _ IH|id v k _ IH|k _ IH|f k _ IH|f k _ IH
                 |key k _ IH|key str k _ IH|type args k _ IH|c k Hc _ IH
                 |f callee k Hf _ IHc _ IHk|pathCx k _ IH|w f Hf _|id path w];
    intros self s HF; cbn [run].
  - now apply Fetch_settle.
  - now apply Fetch_settle.
  - apply IH. now apply Fetch_emit.
  - now apply IH.
  - now apply IH.
  - apply IH. now apply Fetch_CacheSet.
  - apply IH. now apply (Fetch_keep s).
  - apply IH. now apply (Fetch_keep s).
  - now apply IH.
  - apply IH. now apply Fetch_emit.
  - apply IH. apply Fetch_emit; [reflexivity|]. now apply (Fetch_keep s).
  - apply IH. now apply Fetch_emit.
  - apply IH. apply Fetch_emit; [|now apply Fetch_fresh].
    destruct c; try reflexivity. discriminate Hc.
  - apply IHk, IHc. apply Fetch_emit; [|now apply Fetch_fresh].
    destruct f; try reflexivity. destruct Hf.
  - apply IH. now apply Fetch_load.
  - now apply Fetch_await.
  - now apply Fetch_await_getContent.
Qed.

Ltac nf_step :=
  match goal with
  | |- no_fetch _ (Ret _) => apply nf_Ret
  | |- no_fetch _ (Throw _) => apply nf_Throw
  | |- no_fetch _ (GetResource _ _) => apply nf_GetResource; intros
  | |- no_fetch _ (CacheIn _ _) => apply nf_CacheIn; intros
  | |- no_fetch _ (CacheGet _ _) => apply nf_CacheGet; intros
  | |- no_fetch _ (CacheSet _ _ _) => apply nf_CacheSet
  | |- no_fetch _ (NewFlag _) => apply nf_NewFlag; intros
  | |- no_fetch _ (SetFlag _ _) => apply nf_SetFlag
  | |- no_fetch _ (GetFlag _ _) => apply nf_GetFlag; intros
  | |- no_fetch _ (StoreGet _ _) => apply nf_StoreGet; intros
  | |- no_fetch _ (StoreSet _ _ _) => apply nf_StoreSet
  | |- no_fetch _ (Log _ _ _) => apply nf_Log
  | |- no_fetch _ (Ext _ _) => apply nf_Ext; [reflexivity|intros]
  | |- no_fetch _ (Call (F_loadModuleInternal _) _ _) => apply nf_load; intros
  | |- no_fetch _ (Call _ _ _) => apply nf_Call; [exact I| |intros]
  | |- no_fetch _ (Await _ (KFun _)) => apply nf_Await; intros
  | |- no_fetch _ (Await _ (K_getContent _ _)) => apply nf_Await_getContent
  | |- no_fetch _ (if ?b then _ else _) => destruct b
  | |- no_fetch _ (match ?x with _ => _ end) => destruct x
  end.

Lemma nf_withCache (cacheInstance : bool) (key : list string) (valueFactory : nat -> async) :
  (forall api, no_fetch options (valueFactory api)) ->
  no_fetch options (withCache host cacheInstance key valueFactory).
Proof.
  intros Hvf. unfold withCache, withCache_after_get, withCache_after_valueFactory, return_await.
  repeat first [apply Hvf | nf_step].
Qed.

Lemma nf_transformJSCode (source : string) (moduleSourceType : bool) (filename : string) :
  no_fetch options (transformJSCode host options source moduleSourceType filename).
Proof. unfold transformJSCode. repeat nf_step. Qed.

Lemma nf_map_loadModuleInternal (refPath : string) (deps : list string) :
  forall (started : list promise) (k : list promise -> async),
    (forall ps, no_fetch options (k ps)) ->
    no_fetch options (map_loadModuleInternal options refPath deps started k).
Proof.
  induction deps as [|relPath deps IH]; intros started k Hk; cbn [map_loadModuleInternal].
  - apply Hk.
  - apply nf_load. intros p. now apply IH.
Qed.

Lemma nf_loadDeps (refPath : string) (deps : list string) :
  no_fetch options (loadDeps options refPath deps).
Proof.
  unfold loadDeps. apply nf_map_loadModuleInternal. intros ps. repeat nf_step.
Qed.

Lemma nf_run_script (refPath : string) (code : script) :
  no_fetch options (run_script options refPath code).
Proof.
  induction code as [v|e|relPath k IH|relPath k IH]; cbn [run_script].
  - apply nf_Ret.
  - apply nf_Throw.
  - unfold require. repeat first [apply IH | nf_step].
  - unfold importFunction, return_await. repeat first [apply IH | nf_step].
Qed.

Lemma nf_createJSModule (source : string) (moduleSourceType : bool) (filename : string) :
  no_fetch options (createJSModule host options source moduleSourceType filename).
Proof.
  unfold createJSModule, createModule, return_await.
  apply nf_Call; [exact I| |intros p].
  - apply nf_withCache. intros _.
    apply nf_Call; [exact I|apply nf_transformJSCode|intros p]. repeat nf_step.
  - apply nf_Await. intros r.
    repeat first [apply nf_loadDeps | apply nf_run_script | nf_step].
Qed.

Lemma nf_defaultHandleModule (extname : value) (source path : string) :
  no_fetch options (defaultHandleModule host options extname source path).
Proof.
  unfold defaultHandleModule, createSFCModule, return_await.
  repeat first [apply nf_createJSModule | nf_step].
Qed.

Lemma nf_loading_after_default (id path : string) (extname module : value) :
  no_fetch options (loading_after_default host id path extname module).
Proof. unfold loading_after_default, loading_return. repeat nf_step. Qed.

Lemma nf_loading_after_handleModule (id path : string) (extname : value) (content : string)
    (module : value) :
  no_fetch options (loading_after_handleModule host options id path extname content module).
Proof.
  unfold loading_after_handleModule.
  repeat first [apply nf_defaultHandleModule | apply nf_loading_after_default | nf_step].
Qed.

Lemma nf_loading_after_getContent (id path : string) (got : value) :
  no_fetch options (loading_after_getContent host options id path got).
Proof.
  unfold loading_after_getContent.
  repeat first [apply nf_loading_after_handleModule | nf_step].
Qed.

(** tools.ts:264-269, once [loadModule] has answered: the one place where a
    load that awaited [loadModule] fetches. *)
Lemma Fetch_after_loadModule (s : state) (i : nat) (t : task) (id path : string) (v : value) :
  Fetch s -> pool s !! i = Some t -> t_kont t = K_loadModule id path ->
  Fetch (run (getResource options) (loading_after_loadModule id path v) (t_result t)
           (set_pool (delete i (pool s)) s)).
Proof.
  intros HF Hi Hk. pose proof HF as [].
  destruct (f_waiting0 id (before_fetch_lookup _ _ _ _ _ Hi Hk)) as [Hb Hzero].
  pose proof (before_fetch_taken _ _ _ _ _ Hi Hk f_waiting_nodup0) as Hout.
  unfold loading_after_loadModule. destruct (is_undefined v).
  - unfold await_getContent. cbn [run].
    assert (forall id', id' <> id -> String.eqb id id' = false) as Hneq.
    { intros id' Hne. apply String.eqb_neq. congruence. }
    split; cbn [set_pool emit fresh trace pool before_fetch t_kont loadings].
    + intros id'. rewrite count_cons. cbn [is_getContent].
      destruct (decide (id' = id)) as [->|Hne].
      * rewrite String.eqb_refl, Hzero. cbn. lia.
      * rewrite (Hneq id' Hne). apply f_once0.
    + intros id'. rewrite count_cons. cbn [is_getContent].
      destruct (decide (id' = id)) as [->|Hne]; [intros _; exact Hb|].
      rewrite (Hneq id' Hne). apply f_began0.
    + exact f_cache0.
    + now apply before_fetch_delete_nodup.
    + intros id' Hin. rewrite count_cons. cbn [is_getContent].
      assert (id' <> id) as Hne by (intros ->; contradiction).
      rewrite (Hneq id' Hne). apply f_waiting0. eapply before_fetch_delete. exact Hin.
    + intros t' f [<-|Hin] Heq; [discriminate Heq|].
      eapply f_pool0; [eapply In_delete; exact Hin|exact Heq].
    + intros id' Hd. destruct (f_finished0 id' Hd) as (Hb' & Hnw' & Hn).
      assert (id' <> id) as Hne.
      { intros ->. apply Hnw'. eapply before_fetch_lookup; eauto. }
      rewrite count_cons. cbn [is_getContent]. rewrite (Hneq id' Hne).
      split; [exact Hb'|]. split; [|exact Hn].
      intros Hin. apply Hnw'. eapply before_fetch_delete. exact Hin.
  - unfold loading_return. cbn [run]. apply Fetch_settle, Fetch_CacheSet.
    now apply Fetch_delete.
Qed.

Lemma Fetch_resume (s : state) (i : nat) (t : task) (o : outcome) :
  Fetch s -> pool s !! i = Some t ->
  Fetch (resume host options t o (set_pool (delete i (pool s)) s)).
Proof.
  intros HF Hi. destruct o as [v|e]; cbn [resume].
  - destruct (t_kont t) as [f|id path|id path] eqn:Hk; cbn [apply_kont].
    + apply run_Fetch; [|now apply Fetch_delete].
      destruct HF. eapply f_pool0; [eapply lookup_In; exact Hi|exact Hk].
    + now apply Fetch_after_loadModule.
    + apply run_Fetch; [apply nf_loading_after_getContent|now apply Fetch_delete].
  - apply Fetch_settle. now apply Fetch_delete.
Qed.

Lemma step_Fetch (l : label) (s s' : state) :
  Fetch s -> step host options l s = Some s' -> Fetch s'.
Proof.
  intros HF Hstep. destruct l as [pathCx|p o|i]; cbn [step] in Hstep.
  - injection Hstep as <-. now apply Fetch_load.
  - destruct (awaits_environment s p); [|discriminate Hstep].
    injection Hstep as <-. now apply Fetch_settle.
  - destruct (pool s !! i) as [t|] eqn:Hi; [|discriminate Hstep].
    destruct (poll s (t_wait t)) as [o|]; [|discriminate Hstep].
    injection Hstep as <-. now apply Fetch_resume.
Qed.

Lemma steps_Fetch (ls : list label) (s s' : state) :
  Fetch s -> steps host options ls s = Some s' -> Fetch s'.
Proof.
  revert s. induction ls as [|l ls IH]; intros s HF Hsteps; cbn [steps] in Hsteps.
  - now injection Hsteps as <-.
  - destruct (step host options l s) as [s1|] eqn:Hstep; [|discriminate Hsteps].
    eapply IH; [|exact Hsteps]. eapply step_Fetch; eauto.
Qed.

End FetchOnce.

Section FetchReachable.

Context (host : Host) (options : Options) (cache0 : gmap string value).

Lemma Fetch_init (n : string -> nat) (store0 : gmap string string) :
  Fetch options (fun _ => False) n (init cache0 store0).
Proof.
  split; cbn; intros; try contradiction; try lia; try constructor.
Qed.

Lemma reachable_Fetch (n : string -> nat) (s : state) :
  reachable host options cache0 s -> Fetch options (fun _ => False) n s.
Proof.
  intros (store0 & ls & Hsteps). eapply steps_Fetch; [apply Fetch_init|exact Hsteps].
Qed.

(** In every state the loader can reach, the content of an identity has
    been fetched at most as many times as a load of it began: once at most. *)
Lemma fetched_at_most_once (s : state) (id : string) :
  reachable host options cache0 s ->
  count (is_getContent id) (trace s) <= times_loaded id s /\ times_loaded id s <= 1.
Proof.
  intros Hr. pose proof (reachable_Inv host options cache0 s Hr) as [[] _].
  pose proof (reachable_Fetch (fun _ => 0) s Hr) as [].
  split.
  - destruct (count (is_getContent id) (trace s)) as [|m] eqn:E; [lia|].
    assert (times_loaded id s > 0).
    { unfold times_loaded. apply count_occ_In. apply f_began0. rewrite E. discriminate. }
    specialize (f_once0 id). lia.
  - unfold times_loaded. now apply NoDup_count_occ.
Qed.

Lemma before_fetch_In (l : list task) (id : string) :
  In id (before_fetch l) -> exists t path, In t l /\ t_kont t = K_loadModule id path.
Proof.
  induction l as [|t l IH]; [contradiction|]. cbn [before_fetch].
  destruct (t_kont t) as [f|id' path|id' path] eqn:Hk.
  - intros Hin. destruct (IH Hin) as (t' & path' & Hin' & Hk'). exists t', path'. split; [now right|exact Hk'].
  - intros [<-|Hin].
    + exists t, path. split; [now left|exact Hk].
    + destruct (IH Hin) as (t' & path' & Hin' & Hk'). exists t', path'. split; [now right|exact Hk'].
  - intros Hin. destruct (IH Hin) as (t' & path' & Hin' & Hk'). exists t', path'. split; [now right|exact Hk'].
Qed.

(** A load whose promise has settled no longer awaits [loadModule]. *)
Lemma settled_not_before_fetch (s : state) (id : string) (p : promise) (o : outcome) :
  reachable host options cache0 s ->
  In (id, p) (loadings (trace s)) -> outcome_of (settled s) p = Some o ->
  ~ In id (before_fetch (pool s)).
Proof.
  intros Hr Hin Ho Hw. apply (reachable_Inv host) in Hr as [[] _].
  apply before_fetch_In in Hw as (t & path & Ht & Hk).
  pose proof (inv_pool_ok0 t Ht) as Hrole. rewrite Hk in Hrole. cbn [kont_ok] in Hrole.
  apply role_of_Some in Hrole.
  assert (t_result t = p) as Heq by (eapply loadings_same_id; eauto).
  assert (outcome_of (settled s) (t_result t) = None) as Hpend.
  { apply inv_owners_pending0. unfold owners. cbn [map app]. now apply in_map. }
  congruence.
Qed.

(** Once the promise of the [Loading] of an identity has settled, or if the
    caller put the identity in the module cache at the start, the content of
    the identity is never fetched again. *)
Lemma no_fetch_once_settled (s s' : state) (ls : list label) (id : string) :
  reachable host options cache0 s -> steps host options ls s = Some s' ->
  (exists p o, In (id, p) (loadings (trace s)) /\ outcome_of (settled s) p = Some o) \/
  is_Some (cache0 !! id) ->
  count (is_getContent id) (trace s') = count (is_getContent id) (trace s).
Proof.
  intros Hr Hsteps [(p & o & Hin & Ho)|[x Hx]].
  - pose proof (reachable_Fetch (fun _ => count (is_getContent id) (trace s)) s Hr) as HF.
    assert (Fetch options (fun x => x = id) (fun _ => count (is_getContent id) (trace s)) s)
      as HF1.
    { destruct HF. split; auto. intros id' ->. split; [|split; [|reflexivity]].
      - apply (in_map fst) in Hin. exact Hin.
      - eapply settled_not_before_fetch; eauto. }
    pose proof (steps_Fetch host options _ _ ls s s' HF1 Hsteps) as [].
    now destruct (f_finished0 id eq_refl) as (_ & _ & Hn).
  - assert (forall s0, reachable host options cache0 s0 ->
                       count (is_getContent id) (trace s0) = 0) as Hzero.
    { intros s0 Hr0. pose proof (reachable_Fetch (fun _ => 0) s0 Hr0) as [].
      apply (reachable_Inv host) in Hr0 as [[] _].
      destruct (count (is_getContent id) (trace s0)) eqn:E; [reflexivity|].
      exfalso. assert (In id (map fst (loadings (trace s0)))) as Hb.
      { apply f_began0. rewrite E. discriminate. }
      apply in_map_iff in Hb as ([id' p] & Heq & Hin). cbn in Heq. subst id'.
      apply inv_loading_new0 in Hin. congruence. }
    rewrite (Hzero s Hr). apply Hzero. eapply reachable_on; eauto.
Qed.

(** The content of an identity whose entry is a value is never fetched
    again. *)
Lemma no_fetch_once_resolved (s s' : state) (ls : list label) (id : string) (v : value) :
  reachable host options cache0 s -> steps host options ls s = Some s' ->
  moduleCache s !! id = Some v -> instanceof_Loading v = false ->
  count (is_getContent id) (trace s') = count (is_getContent id) (trace s).
Proof.
  intros Hr Hsteps Hc Hplain. apply (no_fetch_once_settled s s' ls id Hr Hsteps).
  pose proof (reachable_Inv host options cache0 s Hr) as [[] _].
  destruct (inv_cache1 id) as [(p & Hin)|Heq].
  - left. exists p. destruct (inv_loading0 id p Hin) as [[Hc' _]|(v' & Hv' & _)]; [|eauto].
    rewrite Hc in Hc'. injection Hc' as ->. discriminate Hplain.
  - right. rewrite <- Heq, Hc. eauto.
Qed.

End FetchReachable.

(** ** Single flight (C1) and the immutability of entries (C9) *)

Section SingleFlight.

Context (host : Host) (options : Options) (cache0 : gmap string value).

(** The [Loading] is in the module cache when the call that found the
    identity absent reaches its [await]: no other activation runs in
    between. *)
Lemma pending_installed_before_suspension (pathCx : PathContext) (s : state) :
  moduleCache s !! r_id (getResource options pathCx) = None ->
  exists s', step host options (Request pathCx) s = Some s' /\
    moduleCache s' !! r_id (getResource options pathCx) = Some (VLoading (S (next_promise s))) /\
    In (r_id (getResource options pathCx), S (next_promise s)) (loadings (trace s')) /\
    In {| t_wait := WPromise (S (next_promise s)); t_kont := KFun Ret;
          t_result := next_promise s |} (pool s').
Proof.
  intros Hc. eexists. split; [reflexivity|].
  pose proof (start_load options pathCx s) as Heq. cbv zeta in Heq. rewrite Heq, Hc.
  unfold installed. cbn. rewrite lookup_insert_eq. repeat split; auto.
Qed.

Lemma entry_promise_is_loading (s : state) (id : string) (q : promise) :
  exports_no_Loading cache0 s id -> entry_promise cache0 s id q ->
  In (id, q) (loadings (trace s)).
Proof.
  intros [Hc0 Hexp] [H|[(p0 & Hin & Hp0)|H]]; [assumption| |].
  - now apply Hexp in Hp0.
  - now apply Hc0 in H.
Qed.

Lemma steps_app (l1 l2 : list label) (s s' : state) :
  steps host options (l1 ++ l2) s = Some s' ->
  exists s1, steps host options l1 s = Some s1 /\ steps host options l2 s1 = Some s'.
Proof.
  revert s. induction l1 as [|l l1 IH]; intros s H; cbn [app steps] in *.
  - eauto.
  - destruct (step host options l s) as [s1|]; [|discriminate H]. now apply IH.
Qed.

Lemma loadings_grow (tr' tr : list event) (x : string * promise) :
  In x (loadings tr) -> In x (loadings (tr' ++ tr)).
Proof.
  destruct x as [id p]. rewrite !loadings_In. intros H. apply in_or_app. now right.
Qed.

(** A request made while the load of its identity has not finished awaits
    the promise of the identity's [Loading]. *)
Lemma request_in_flight (s : state) (pathCx : PathContext) :
  Inv options cache0 [] s -> in_flight s (r_id (getResource options pathCx)) ->
  exists s' p, step host options (Request pathCx) s = Some s' /\
    In (r_id (getResource options pathCx), p) (loadings (trace s')) /\
    attached s' (next_promise s) p.
Proof.
  intros [HI _] Hfl. pose proof HI as [].
  assert (outcome_of (settled s) (next_promise s) = None) as Hfresh
    by (eapply fresh_unsettled; eauto).
  pose proof (start_load options pathCx s) as Heq. cbv zeta in Heq.
  set (id := r_id (getResource options pathCx)) in *.
  assert (moduleCache s !! id = None \/
          exists p, In (id, p) (loadings (trace s)) /\
                    moduleCache s !! id = Some (VLoading p)) as [Hc|(p & Hin & Hc)].
  { destruct Hfl as [Hc|(p & Hin & Hp)]; [now left|right].
    exists p. split; [exact Hin|].
    destruct (inv_loading0 id p Hin) as [[Hc _]|(v & Hv & _)]; [exact Hc|congruence]. }
  - eexists. exists (S (next_promise s)). split; [reflexivity|].
    rewrite Heq, Hc. unfold installed. cbn. split; [auto|].
    left. split; [exact Hfresh|now left].
  - eexists. exists p. split; [reflexivity|].
    rewrite Heq, Hc. cbn. split; [exact Hin|].
    left. split; [exact Hfresh|now left].
Qed.

(** C1, as the code has it. Whatever the schedule: the function of
    tools.ts:260 is called at most once for an identity, and exactly once if
    the identity was not in the module cache at the start and a load of it
    was requested; the content of the identity is fetched no more often than
    that; the [Loading] is in the module cache within the step of the
    request that found the identity absent, before anything is awaited;
    every request made while the load of the identity had not finished
    settles, if it does, as the promise of the identity's one [Loading]
    does, so all of them alike; and, for an identity that was not in the
    module cache at the start, any two calls of [loadModuleInternal],
    whenever made, that have settled have the same outcome, as long as the
    value the load produced is not itself a [Loading]. *)
Theorem single_flight (store0 : gmap string string) (ls : list label) (s : state)
    (id : string) :
  steps host options ls (init cache0 store0) = Some s ->
  times_loaded id s <= 1 /\
  count (is_getContent id) (trace s) <= times_loaded id s /\
  (cache0 !! id = None -> load_requested options id s -> times_loaded id s = 1) /\
  (forall pathCx, r_id (getResource options pathCx) = id -> moduleCache s !! id = None ->
     exists s', step host options (Request pathCx) s = Some s' /\
                moduleCache s' !! id = Some (VLoading (S (next_promise s)))) /\
  (forall ls1 ls2 s1 pathCx o,
     ls = (ls1 ++ Request pathCx :: ls2)%list ->
     steps host options ls1 (init cache0 store0) = Some s1 ->
     r_id (getResource options pathCx) = id -> in_flight s1 id ->
     outcome_of (settled s) (next_promise s1) = Some o ->
     exists p, In (id, p) (loadings (trace s)) /\ outcome_of (settled s) p = Some o) /\
  (cache0 !! id = None -> exports_no_Loading cache0 s id ->
   forall pathCx1 pr1 o1 pathCx2 pr2 o2,
     In (EvCall (F_loadModuleInternal pathCx1) pr1) (trace s) ->
     In (EvCall (F_loadModuleInternal pathCx2) pr2) (trace s) ->
     r_id (getResource options pathCx1) = id ->
     r_id (getResource options pathCx2) = id ->
     outcome_of (settled s) pr1 = Some o1 ->
     outcome_of (settled s) pr2 = Some o2 ->
     o1 = o2).
Proof.
  intros Hsteps.
  assert (Inv options cache0 [] s) as [HI HL].
  { eapply reachable_Inv. exists store0, ls. exact Hsteps. }
  pose proof HI as [].
  assert (times_loaded id s <= 1) as Hle.
  { unfold times_loaded. now apply NoDup_count_occ. }
  split; [exact Hle|]. split; [|split; [|split; [|split]]].
  - apply (fetched_at_most_once host options cache0). exists store0, ls. exact Hsteps.
  - intros Hc0 (pathCx & pr & Hev & Hid).
    assert (exists p, In (id, p) (loadings (trace s))) as (p & Hp).
    { specialize (HL _ _ Hev). unfold load_settled in HL. rewrite Hid in HL.
      destruct HL as [(q & [H|[(p0 & H & _)|H]] & _)|(v & _ & _ & [(p0 & H & _)|H])];
        eauto; congruence. }
    assert (times_loaded id s > 0); [|lia].
    unfold times_loaded. apply count_occ_In. apply (in_map fst) in Hp. exact Hp.
  - intros pathCx <- Hc.
    destruct (pending_installed_before_suspension pathCx s Hc) as (s' & Hs' & Hc' & _).
    eauto.
  - intros ls1 ls2 s1 pathCx o -> Hs1 <- Hfl Ho.
    apply steps_app in Hsteps as (s1' & Hs1' & Hrest).
    assert (s1' = s1) as -> by congruence.
    assert (Inv options cache0 [] s1) as HInv1.
    { eapply reachable_Inv. exists store0, ls1. exact Hs1. }
    destruct (request_in_flight s1 pathCx HInv1 Hfl) as (s2 & p & Hreq & Hin & Hatt).
    cbn [steps] in Hrest. rewrite Hreq in Hrest.
    destruct (step_Inv host options cache0 _ _ _ HInv1 Hreq) as [HInv2 _].
    destruct (steps_Inv host options cache0 _ _ _ HInv2 Hrest) as [_ [[tr Htr] _ _ _]].
    pose proof (attached_steps host options cache0 _ _ _ _ _ HInv2 Hrest Hatt)
      as [[Hnone _]|(o' & Ho' & Hp)]; [congruence|].
    exists p. split; [rewrite Htr; now apply loadings_grow|congruence].
  - intros _ Hexp cx1 pr1 o1 cx2 pr2 o2 Hev1 Hev2 Hid1 Hid2 Ho1 Ho2.
    pose proof (HL _ _ Hev1) as H1. pose proof (HL _ _ Hev2) as H2.
    unfold load_settled in H1, H2. rewrite Hid1 in H1. rewrite Hid2 in H2.
    assert (forall q1 q2, entry_promise cache0 s id q1 -> entry_promise cache0 s id q2 ->
                          q1 = q2) as Hsame.
    { intros q1 q2 Hq1 Hq2. eapply loadings_same_id; [exact inv_loadings_nodup0|..];
        apply entry_promise_is_loading; eauto. }
    assert (forall q v, entry_promise cache0 s id q -> entry_value cache0 s id v ->
                        outcome_of (settled s) q = Some (Fulfilled v)) as Hpv.
    { intros q v Hq [(p0 & Hin & Hp0)|Hc0].
      - apply entry_promise_is_loading in Hq; [|exact Hexp].
        assert (p0 = q) as -> by (eapply loadings_same_id; eauto). exact Hp0.
      - apply entry_promise_is_loading in Hq; [|exact Hexp].
        apply inv_loading_new0 in Hq. congruence. }
    assert (forall v1 v2, entry_value cache0 s id v1 -> entry_value cache0 s id v2 ->
                          v1 = v2) as Hvv.
    { intros v1 v2 [(p1 & Hin1 & Hp1)|Hc1] [(p2 & Hin2 & Hp2)|Hc2].
      - assert (p1 = p2) as -> by (eapply loadings_same_id; eauto). congruence.
      - apply inv_loading_new0 in Hin1. congruence.
      - apply inv_loading_new0 in Hin2. congruence.
      - congruence. }
    destruct H1 as [(q1 & Hq1 & [[Hp1 _]|(o1' & Ho1' & Hq1o)])|(v1 & Hv1 & _ & He1)];
      [congruence|..];
      destruct H2 as [(q2 & Hq2 & [[Hp2 _]|(o2' & Ho2' & Hq2o)])|(v2 & Hv2 & _ & He2)];
      try congruence.
    + assert (q1 = q2) as -> by auto. congruence.
    + pose proof (Hpv _ _ Hq1 He2). congruence.
    + pose proof (Hpv _ _ Hq2 He1). congruence.
    + assert (v1 = v2) as -> by auto. congruence.
Qed.

End SingleFlight.


Ltac in_list := repeat first [left; reflexivity | right].

Lemma three_requests_run :
  steps demo_host demo_options schedule_three_requests (init ∅ ∅) =
  Some (after demo_host demo_options schedule_three_requests).
Proof. vm_compute. reflexivity. Qed.

Lemma single_flight_witness :
  times_loaded "./a.js" (after demo_host demo_options schedule_three_requests) = 1 /\
  (exists p,
     In ("./a.js", p) (loadings (trace (after demo_host demo_options schedule_three_requests))) /\
     outcome_of (settled (after demo_host demo_options schedule_three_requests)) p
     = Some (Fulfilled (VObj 1))) /\
  forall o1 o2,
    outcome_of (settled (after demo_host demo_options schedule_three_requests)) 0 = Some o1 ->
    outcome_of (settled (after demo_host demo_options schedule_three_requests)) 11 = Some o2 ->
    o1 = o2.
Proof.
  destruct (single_flight demo_host demo_options ∅ ∅ schedule_three_requests _ "./a.js"
              three_requests_run) as (_ & _ & Hone & _ & Hflight & Hsame).
  split; [|split].
  - apply Hone.
    + vm_compute; reflexivity.
    + exists (from_root "./a.js"), 0. split.
      * vm_compute. in_list.
      * vm_compute. reflexivity.
  - apply (Hflight [Request (from_root "./a.js")]
             (tl (tl schedule_three_requests))
             (after demo_host demo_options [Request (from_root "./a.js")])
             (from_root "./a.js")).
    + reflexivity.
    + vm_compute. reflexivity.
    + vm_compute. reflexivity.
    + right. exists 1. vm_compute. split; [in_list|reflexivity].
    + vm_compute. reflexivity.
  - intros o1 o2.
    refine (Hsame _ _ (from_root "./a.js") 0 o1 (from_root "./a.js") 11 o2 _ _ _ _).
    + vm_compute. reflexivity.
    + split.
      * intros q H. vm_compute in H. discriminate H.
      * intros p q Hin. vm_compute in Hin. destruct Hin as [Hin|[]].
        injection Hin as <-. vm_compute. discriminate.
    + vm_compute. in_list.
    + vm_compute. in_list.
    + vm_compute. reflexivity.
    + vm_compute. reflexivity.
Defined.

(** In that run the content was fetched once, and the three calls were
    fulfilled with the one exported value. *)
Example three_requests_one_fetch :
  count (is_getContent "./a.js") (trace (after demo_host demo_options schedule_three_requests)) = 1 /\
  map (outcome_of (settled (after demo_host demo_options schedule_three_requests))) [0; 3; 11]
  = [Some (Fulfilled (VObj 1)); Some (Fulfilled (VObj 1)); Some (Fulfilled (VObj 1))].
Proof. vm_compute. split; reflexivity. Qed.

Section Immutability.

Context (host : Host) (options : Options) (cache0 : gmap string value).

Lemma reachable_steps (s s' : state) (ls : list label) :
  reachable host options cache0 s -> steps host options ls s = Some s' ->
  Inv options cache0 [] s' /\ evolves s s'.
Proof.
  intros Hr Hsteps. eapply steps_Inv; [|exact Hsteps]. now apply (reachable_Inv host).
Qed.

Lemma failed_stays (s s' : state) (id : string) (e : error) :
  evolves s s' -> failed s id e -> failed s' id e.
Proof.
  intros [_ _ Hset Hcache] (p & Hc & Hp). exists p.
  destruct (Hcache _ _ Hc) as [Hkeep|(p' & Heq & Hnone & _)].
  - split; [exact Hkeep|now apply Hset].
  - injection Heq as <-. congruence.
Qed.

(** C9. From any reachable state on, whatever the loader does next: a load
    of an identity begins at most once, so at most one [Loading] is ever put
    in the module cache for it; once the promise of that [Loading] has
    settled, fulfilled or rejected, the entry of the identity never changes;
    an entry the caller put there at the start never changes; so an entry
    that is a value stays that value, and an entry whose [Loading] was
    rejected stays that rejected [Loading]. *)
Theorem cache_entry_immutable (s s' : state) (ls : list label) (id : string) :
  reachable host options cache0 s -> steps host options ls s = Some s' ->
  times_loaded id s' <= 1 /\
  (forall p o, In (id, p) (loadings (trace s)) -> outcome_of (settled s) p = Some o ->
               moduleCache s' !! id = moduleCache s !! id) /\
  (forall x, cache0 !! id = Some x ->
             moduleCache s !! id = Some x /\ moduleCache s' !! id = Some x) /\
  (forall v, moduleCache s !! id = Some v -> instanceof_Loading v = false ->
             moduleCache s' !! id = Some v) /\
  (forall e, failed s id e -> failed s' id e).
Proof.
  intros Hr Hsteps. destruct (reachable_steps s s' ls Hr Hsteps) as [[HI' _] He].
  pose proof (reachable_Inv host options cache0 s Hr) as [HI _].
  split; [|split; [|split; [|split]]].
  - unfold times_loaded. apply NoDup_count_occ. now destruct HI'.
  - intros p o Hin Ho. destruct He as [[tr Htr] _ Hset _].
    assert (In (id, p) (loadings (trace s'))) as Hin' by (rewrite Htr; now apply loadings_grow).
    apply Hset in Ho as Ho'. destruct HI, HI'.
    destruct (inv_loading0 id p Hin) as [[Hc Hnf]|(v & Hv & Hc)];
      destruct (inv_loading1 id p Hin') as [[Hc' Hnf']|(v' & Hv' & Hc')]; congruence.
  - intros x Hx. destruct HI, HI'. split.
    + destruct (inv_cache1 id) as [(p & Hin)|Hc]; [|congruence].
      apply inv_loading_new0 in Hin. congruence.
    + destruct (inv_cache2 id) as [(p & Hin)|Hc]; [|congruence].
      apply inv_loading_new1 in Hin. congruence.
  - intros v Hc Hplain. destruct He as [_ _ _ Hcache].
    destruct (Hcache _ _ Hc) as [Hkeep|(p & -> & _)]; [exact Hkeep|discriminate Hplain].
  - intros e. now apply failed_stays.
Qed.

End Immutability.

Lemma three_requests_reachable :
  reachable demo_host demo_options ∅ (after demo_host demo_options schedule_three_requests).
Proof. exists ∅, schedule_three_requests. vm_compute. reflexivity. Qed.

Lemma cache_entry_immutable_witness :
  times_loaded "./a.js"
    (after demo_host demo_options (schedule_three_requests ++ [Request (from_root "./a.js")]))
  <= 1 /\
  moduleCache
    (after demo_host demo_options (schedule_three_requests ++ [Request (from_root "./a.js")]))
    !! "./a.js" = Some (VObj 1).
Proof.
  destruct (cache_entry_immutable demo_host demo_options ∅
              (after demo_host demo_options schedule_three_requests)
              (after demo_host demo_options
                 (schedule_three_requests ++ [Request (from_root "./a.js")]))
              [Request (from_root "./a.js")] "./a.js" three_requests_reachable)
    as (Hle & _ & _ & Hval & _).
  { vm_compute. reflexivity. }
  split; [exact Hle|]. apply Hval; vm_compute; reflexivity.
Defined.

Section FailureMemo.

Context (host : Host) (options : Options) (cache0 : gmap string value).

(** *** Failure memoization (C2) *)

(** C2, as the code has it. Once the load of an identity has failed, a new
    request for it calls [getResource] (the identity is what resolution
    yields) and nothing else: no content is fetched, nothing is dispatched,
    no load begins; the request is rejected with the retained error as soon
    as it goes on; and whatever happens next the identity stays failed and
    its content is not fetched again. *)
Theorem failure_memoized (s : state) (id : string) (e : error) (pathCx : PathContext) :
  reachable host options cache0 s -> failed s id e ->
  r_id (getResource options pathCx) = id ->
  (exists s1 s2,
     step host options (Request pathCx) s = Some s1 /\
     trace s1 = EvGetResource pathCx
                :: EvCall (F_loadModuleInternal pathCx) (next_promise s) :: trace s /\
     step host options (Resume 0) s1 = Some s2 /\
     trace s2 = trace s1 /\
     outcome_of (settled s2) (next_promise s) = Some (Rejected e)) /\
  (forall ls s', steps host options ls s = Some s' ->
     failed s' id e /\
     count (is_getContent id) (trace s') = count (is_getContent id) (trace s)).
Proof.
  intros Hr (p & Hc & Hp) Hid. split.
  - pose proof (reachable_Inv host options cache0 s Hr) as [HI _].
    assert (outcome_of (settled s) (next_promise s) = None) as Hfresh.
    { destruct HI. eapply fresh_unsettled; eauto. }
    pose proof (start_load options pathCx s) as Heq. cbv zeta in Heq.
    rewrite Hid, Hc in Heq.
    eexists. eexists. split; [cbn [step]; rewrite Heq; reflexivity|].
    split; [reflexivity|]. cbn [step set_pool pool lookup list_lookup t_wait poll emit fresh settled].
    rewrite Hp. split; [reflexivity|]. cbn [resume t_result].
    match goal with |- context [settle ?q ?o ?st] => settle_fields q o st end.
    split; [assumption|]. apply outcome_settle_pending. exact Hfresh.
  - intros ls s' Hsteps. split.
    + destruct (reachable_steps host options cache0 s s' ls Hr Hsteps) as [_ He].
      eapply failed_stays; eauto. exists p. auto.
    + apply (no_fetch_once_settled host options cache0 s s' ls id Hr Hsteps).
      pose proof (reachable_Inv host options cache0 s Hr) as [[] _].
      destruct (inv_cache1 id) as [(p' & Hin)|Heq].
      * left. exists p'.
        destruct (inv_loading0 id p' Hin) as [[Hc' _]|(v & Hv & _)]; [|eauto].
        exists (Rejected e). split; [exact Hin|]. congruence.
      * right. rewrite <- Heq, Hc. eauto.
Qed.

End FailureMemo.

Lemma failed_load_reachable :
  reachable demo_host demo_options ∅ (after demo_host demo_options schedule_failed_load).
Proof. exists ∅, schedule_failed_load. vm_compute. reflexivity. Qed.

Lemma failure_memoized_witness :
  (exists s1 s2,
     step demo_host demo_options (Request (from_root "./a.js"))
          (after demo_host demo_options schedule_failed_load) = Some s1 /\
     trace s1 = EvGetResource (from_root "./a.js")
                :: EvCall (F_loadModuleInternal (from_root "./a.js")) 3
                :: trace (after demo_host demo_options schedule_failed_load) /\
     step demo_host demo_options (Resume 0) s1 = Some s2 /\
     trace s2 = trace s1 /\
     outcome_of (settled s2) 3 = Some (Rejected (Other 404))) /\
  (forall ls s',
     steps demo_host demo_options ls (after demo_host demo_options schedule_failed_load)
     = Some s' ->
     failed s' "./a.js" (Other 404) /\
     count (is_getContent "./a.js") (trace s')
     = count (is_getContent "./a.js")
         (trace (after demo_host demo_options schedule_failed_load))).
Proof.
  apply (failure_memoized demo_host demo_options ∅
           (after demo_host demo_options schedule_failed_load) "./a.js" (Other 404)
           (from_root "./a.js") failed_load_reachable).
  - exists 1. vm_compute. split; reflexivity.
  - vm_compute. reflexivity.
Defined.

(** C2, as the spec has it, fails: the second request for an identity whose
    load has failed calls [getResource] again. The content is still fetched
    only once. *)
Lemma failure_resolves_again :
  failed (after demo_host demo_options schedule_failed_load) "./a.js" (Other 404) /\
  count is_getResource (trace (after demo_host demo_options schedule_failed_load)) = 1 /\
  count is_getResource
    (trace (after demo_host demo_options
              (schedule_failed_load ++ [Request (from_root "./a.js")]))) = 2 /\
  count (is_getContent "./a.js")
    (trace (after demo_host demo_options
              (schedule_failed_load ++ [Request (from_root "./a.js")]))) = 1.
Proof.
  split; [exists 1; vm_compute; split; reflexivity|].
  vm_compute. repeat split; reflexivity.
Qed.

(** ** What the function of tools.ts:260 does at each of its awaits *)

Lemma settle_pending (p : promise) (o : outcome) (s : state) :
  outcome_of (settled s) p = None ->
  settle p o s
  = {| moduleCache := moduleCache s; compiledStore := compiledStore s; flags := flags s;
       settled := (p, o) :: settled s; pool := pool s; next_promise := next_promise s;
       trace := trace s |}.
Proof. intros H. unfold settle. now rewrite H. Qed.

Lemma outcome_of_head (p : promise) (o : outcome) (l : list (promise * outcome)) :
  outcome_of ((p, o) :: l) p = Some o.
Proof. unfold outcome_of. cbn [find fst snd]. now rewrite Nat.eqb_refl. Qed.

Lemma outcome_of_other (p q : promise) (o : outcome) (l : list (promise * outcome)) :
  p <> q -> outcome_of ((p, o) :: l) q = outcome_of l q.
Proof.
  intros Hne. unfold outcome_of. cbn [find fst snd].
  destruct (Nat.eqb_spec p q); [contradiction|reflexivity].
Qed.

Section Dispatch.

Context (host : Host) (options : Options) (cache0 : gmap string value).

Lemma step_resume (s : state) (i : nat) (t : task) (o : outcome) :
  pool s !! i = Some t -> poll s (t_wait t) = Some o ->
  step host options (Resume i) s
  = Some (resume host options t o (set_pool (delete i (pool s)) s)).
Proof. intros Hi Hp. cbn [step]. now rewrite Hi, Hp. Qed.

Lemma suspended_pending (s : state) (i : nat) (t : task) :
  reachable host options cache0 s -> pool s !! i = Some t ->
  outcome_of (settled s) (t_result t) = None.
Proof.
  intros Hr Hi. apply (reachable_Inv host) in Hr as [[] _].
  apply inv_owners_pending0. unfold owners. cbn. apply in_map. eapply lookup_In; eauto.
Qed.

(** [return moduleCache[id] = module], from a suspended activation. *)
Lemma resume_returns (s : state) (i : nat) (t : task) (id : string) (v v' : value) :
  reachable host options cache0 s -> pool s !! i = Some t ->
  poll s (t_wait t) = Some (Fulfilled v) ->
  apply_kont host options (t_kont t) v = loading_return id v' ->
  exists s', step host options (Resume i) s = Some s' /\
    moduleCache s' !! id = Some v' /\
    outcome_of (settled s') (t_result t) = Some (Fulfilled v') /\
    trace s' = trace s /\ pool s' = delete i (pool s).
Proof.
  intros Hr Hi Hpoll Hk. pose proof (suspended_pending s i t Hr Hi) as Hpend.
  eexists. split; [eapply step_resume; eassumption|].
  cbn [resume]. rewrite Hk. unfold loading_return. cbn [run].
  match goal with |- context [settle ?q ?o ?st] => settle_fields q o st end.
  rewrite H, H2, H4. cbn. split; [apply lookup_insert_eq|].
  split; [|split; reflexivity]. apply outcome_settle_pending. exact Hpend.
Qed.

Lemma ok_return_role (r : option string) (id : string) (v : value) :
  ok options r (CacheSet id v (Ret v)) -> r = Some id.
Proof. intros H. inversion H. reflexivity. Qed.

(** The activation that is the load of [id], while it is suspended: the
    entry of [id] is its [Loading], and its promise is pending and older
    than any promise yet to be made. *)
Lemma loading_task_entry (s : state) (i : nat) (t : task) (id : string) :
  reachable host options cache0 s -> pool s !! i = Some t ->
  In (id, t_result t) (loadings (trace s)) ->
  moduleCache s !! id = Some (VLoading (t_result t)) /\
  outcome_of (settled s) (t_result t) = None.
Proof.
  intros Hr Hi Hin. pose proof (suspended_pending s i t Hr Hi) as Hpend.
  split; [|exact Hpend]. apply (reachable_Inv host) in Hr as [[] _].
  destruct (inv_loading0 id _ Hin) as [[Hc _]|(v & Hv & _)]; [exact Hc|congruence].
Qed.

Lemma loading_kont_role (s : state) (i : nat) (t : task) (id path : string) :
  reachable host options cache0 s -> pool s !! i = Some t ->
  t_kont t = K_getContent id path \/ t_kont t = K_loadModule id path ->
  In (id, t_result t) (loadings (trace s)).
Proof.
  intros Hr Hi Hk. apply (reachable_Inv host) in Hr as [[] _].
  pose proof (inv_pool_ok0 t (lookup_In _ _ _ Hi)) as Hrole.
  apply role_of_Some. destruct Hk as [Hk|Hk]; rewrite Hk in Hrole; exact Hrole.
Qed.

(** So is an activation that goes on with [loading_after_handleModule] or
    [loading_after_default] the load of their identity. *)
Lemma loading_after_role (s : state) (i : nat) (t : task) (id path : string)
    (extname : value) (text : string) :
  reachable host options cache0 s -> pool s !! i = Some t ->
  t_kont t = KFun (loading_after_handleModule host options id path extname text) \/
  t_kont t = KFun (loading_after_default host id path extname) ->
  In (id, t_result t) (loadings (trace s)).
Proof.
  intros Hr Hi Hk. apply (reachable_Inv host) in Hr as [[] _].
  pose proof (inv_pool_ok0 t (lookup_In _ _ _ Hi)) as Hrole.
  apply role_of_Some. destruct Hk as [Hk|Hk]; rewrite Hk in Hrole; cbn [kont_ok] in Hrole;
    specialize (Hrole VNull); now apply ok_return_role in Hrole.
Qed.

Lemma fresh_promises (s : state) (q : promise) :
  reachable host options cache0 s -> next_promise s <= q -> outcome_of (settled s) q = None.
Proof.
  intros Hr Hq. apply (reachable_Inv host) in Hr as [[] _]. eapply fresh_unsettled; eauto.
Qed.

Lemma suspended_older (s : state) (i : nat) (t : task) :
  reachable host options cache0 s -> pool s !! i = Some t -> t_result t < next_promise s.
Proof.
  intros Hr Hi. apply (reachable_Inv host) in Hr as [[] _].
  apply inv_owners_lt0. unfold owners. cbn. apply in_map. eapply lookup_In; eauto.
Qed.

Lemma handler_declined_step (s : state) (i : nat) (w : wait) (id path : string) (p : promise)
    (text : string) (extname : value) :
  pool s !! i = Some {| t_wait := w;
                        t_kont := KFun (loading_after_handleModule host options id path
                                          extname text);
                        t_result := p |} ->
  poll s w = Some (Fulfilled VUndefined) ->
  step host options (Resume i) s = Some (dispatched host options id path extname text i p s).
Proof.
  intros Hi Hpoll. erewrite step_resume by eassumption. reflexivity.
Qed.

Lemma no_handler_step (s : state) (i : nat) (w : wait) (id path : string) (p : promise)
    (text : string) (extname : value) :
  handleModule options = false ->
  pool s !! i = Some {| t_wait := w; t_kont := K_getContent id path; t_result := p |} ->
  poll s w = Some (Fulfilled (got (VStr text) extname)) ->
  step host options (Resume i) s = Some (dispatched host options id path extname text i p s).
Proof.
  intros Hh Hi Hpoll. erewrite step_resume by eassumption.
  cbn [resume apply_kont t_kont t_result]. unfold loading_after_getContent, got.
  cbn [get_field find fst snd String.eqb Ascii.eqb Bool.eqb]. rewrite Hh. reflexivity.
Qed.

Lemma defaultHandleModule_unsupported (extname : value) (source path : string) :
  unsupported extname -> defaultHandleModule host options extname source path = Ret VUndefined.
Proof.
  intros (Hvue & Hjs & Hmjs). unfold defaultHandleModule.
  destruct extname as [| |ext| | | |]; try reflexivity.
  destruct (String.eqb_spec ext ".vue") as [->|_]; [congruence|].
  destruct (String.eqb_spec ext ".js") as [->|_]; [congruence|].
  destruct (String.eqb_spec ext ".mjs") as [->|_]; [congruence|]. reflexivity.
Qed.


(** The built-in dispatch of a [.vue] file: the component compiler is
    called; when it answers with a value, [null] included, that is the
    value of the load. *)
Lemma vue_dispatch (s : state) (i : nat) (t : task) (id path : string) (text : string)
    (v : value) :
  reachable host options cache0 s -> pool s !! i = Some t ->
  In (id, t_result t) (loadings (trace s)) ->
  is_undefined v = false ->
  let n := next_promise s in
  let s1 := dispatched host options id path (VStr ".vue") text i (t_result t) s in
  trace s1 = EvExt (E_createSFCModule text path) (S n)
             :: EvCall (F_defaultHandleModule (VStr ".vue") path) n :: trace s /\
  pool s1 = {| t_wait := WPromise n;
               t_kont := KFun (loading_after_default host id path (VStr ".vue"));
               t_result := t_result t |}
            :: {| t_wait := WPromise (S n); t_kont := KFun Ret; t_result := n |}
            :: delete i (pool s) /\
  exists s4,
    steps host options [Settle (S n) (Fulfilled v); Resume 1; Resume 0] s1 = Some s4 /\
    moduleCache s4 !! id = Some v /\
    outcome_of (settled s4) (t_result t) = Some (Fulfilled v) /\
    trace s4 = trace s1 /\ pool s4 = delete i (pool s).
Proof.
  intros Hr Hi Hin Hv n s1.
  destruct (loading_task_entry s i t id Hr Hi Hin) as [Hc Hpend].
  pose proof (suspended_older s i t Hr Hi) as Hlt.
  pose proof (fresh_promises s n Hr (le_n _)) as Hfresh.
  pose proof (fresh_promises s (S n) Hr (le_S _ _ (le_n _))) as HfreshS.
  subst s1 n. unfold dispatched, defaultHandleModule, createSFCModule, return_await.
  cbn [String.eqb Ascii.eqb Bool.eqb run set_pool pool emit fresh next_promise trace].
  split; [reflexivity|]. split; [reflexivity|].
  cbn [steps step]. unfold awaits_environment.
  cbn [trace existsb is_ext settled set_pool emit fresh]. rewrite Nat.eqb_refl, HfreshS. cbn [orb andb].
  rewrite settle_pending by exact HfreshS.
  cbn [step set_pool pool lookup list_lookup t_wait poll settled].
  rewrite outcome_of_head.
  cbn [resume apply_kont t_kont t_result run delete list_delete].
  rewrite settle_pending by (cbn; rewrite outcome_of_other; [exact Hfresh|lia]).
  cbn [step set_pool pool lookup list_lookup t_wait poll settled].
  rewrite outcome_of_head.
  cbn [resume apply_kont t_kont t_result]. unfold loading_after_default. rewrite Hv.
  unfold loading_return. cbn [run].
  rewrite settle_pending
    by (cbn; rewrite !outcome_of_other; [exact Hpend|lia|lia]).
  eexists. split; [reflexivity|]. cbn.
  rewrite outcome_of_head, lookup_insert_eq. repeat split.
Qed.

(** C10. With a [loadModule] callback configured: a request for an identity
    that is not in the module cache calls [getResource] and [loadModule],
    and nothing else, before it awaits; and when the callback's promise is
    fulfilled with a value other than [undefined], the function stores that
    value as the entry, fulfils the [Loading]'s promise with it and ends,
    having called neither [getContent] nor a handler; the content of the
    identity has not been fetched, and never is. *)
Theorem loadModule_short_circuit (s : state) :
  reachable host options cache0 s -> loadModule options = true ->
  (forall pathCx,
     let id := r_id (getResource options pathCx) in
     let path := r_path (getResource options pathCx) in
     let n := next_promise s in
     moduleCache s !! id = None ->
     exists s1, step host options (Request pathCx) s = Some s1 /\
       trace s1 = EvExt (E_loadModule id) (S (S n)) :: EvCall (F_loading id) (S n)
                  :: EvGetResource pathCx :: EvCall (F_loadModuleInternal pathCx) n
                  :: trace s /\
       pool s1 = {| t_wait := WPromise (S n); t_kont := KFun Ret; t_result := n |}
                 :: {| t_wait := WPromise (S (S n)); t_kont := K_loadModule id path;
                       t_result := S n |}
                 :: pool s) /\
  (forall i w id path p v,
     pool s !! i = Some {| t_wait := w; t_kont := K_loadModule id path; t_result := p |} ->
     poll s w = Some (Fulfilled v) -> is_undefined v = false ->
     exists s', step host options (Resume i) s = Some s' /\
       moduleCache s' !! id = Some v /\
       outcome_of (settled s') p = Some (Fulfilled v) /\
       trace s' = trace s /\ pool s' = delete i (pool s) /\
       forall ls s'', steps host options ls s' = Some s'' ->
                      count (is_getContent id) (trace s'') = 0).
Proof.
  intros Hr Hlm. split.
  - intros pathCx id path n Hc. eexists. split; [reflexivity|].
    pose proof (start_load options pathCx s) as Heq. cbv zeta in Heq.
    fold id path n in Heq. rewrite Heq, Hc, Hlm. split; reflexivity.
  - intros i w id path p v Hi Hpoll Hv.
    destruct (resume_returns s i _ id v v Hr Hi Hpoll) as (s' & Hstep & Hc & Ho & Htr & Hpool).
    { cbn [apply_kont t_kont]. unfold loading_after_loadModule. now rewrite Hv. }
    exists s'. repeat (split; [assumption|]). intros ls s'' Hsteps.
    assert (reachable host options cache0 s') as Hr'.
    { apply (reachable_on host options cache0 s s' [Resume i] Hr). cbn [steps]. now rewrite Hstep. }
    assert (In (id, p) (loadings (trace s))) as Hin.
    { pose proof (reachable_Inv host options cache0 s Hr) as [[] _].
      apply role_of_Some. apply (inv_pool_ok0 _ (lookup_In _ _ _ Hi)). }
    assert (count (is_getContent id) (trace s) = 0) as Hzero.
    { pose proof (reachable_Fetch host options cache0 (fun _ => 0) s Hr) as [].
      apply f_waiting0. eapply before_fetch_lookup; [exact Hi|reflexivity]. }
    rewrite (no_fetch_once_settled host options cache0 s' s'' ls id Hr' Hsteps).
    + now rewrite Htr.
    + left. exists p, (Fulfilled v). rewrite Htr. now split.
Qed.

(** A synchronous run only adds to the trace. *)
Lemma run_trace (a : async) :
  forall (self : promise) (s : state),
    exists tr, trace (run (getResource options) a self s) = (tr ++ trace s)%list.
Proof.
  induction a as [v|e|pathCx k IH|id k IH|id k IH|id v k IH|k IH|f k IH|f k IH|key k IH
                 |key str k IH|type args k IH|c k IH|f callee IHc k IHk|w k];
    intros self s; cbn [run].
  - settle_fields self (Fulfilled v) s. exists []. assumption.
  - settle_fields self (Rejected e) s. exists []. assumption.
  - destruct (IH (getResource options pathCx) self (emit (EvGetResource pathCx) s)) as [tr ->].
    exists (tr ++ [EvGetResource pathCx])%list. now rewrite <- app_assoc.
  - apply IH.
  - apply IH.
  - match goal with |- context [run _ k self ?s'] => destruct (IH self s') as [tr ->] end.
    exists tr. reflexivity.
  - match goal with |- context [run _ (k ?x) self ?s'] => destruct (IH x self s') as [tr ->] end.
    exists tr. reflexivity.
  - match goal with |- context [run _ k self ?s'] => destruct (IH self s') as [tr ->] end.
    exists tr. reflexivity.
  - apply IH.
  - match goal with |- context [run _ (k ?x) self ?s'] => destruct (IH x self s') as [tr ->] end.
    exists (tr ++ [EvStoreGet key])%list. now rewrite <- app_assoc.
  - match goal with |- context [run _ k self ?s'] => destruct (IH self s') as [tr ->] end.
    exists (tr ++ [EvStoreSet key str])%list. now rewrite <- app_assoc.
  - match goal with |- context [run _ k self ?s'] => destruct (IH self s') as [tr ->] end.
    exists (tr ++ [EvLog type args])%list. now rewrite <- app_assoc.
  - match goal with |- context [run _ (k ?x) self ?s'] => destruct (IH x self s') as [tr ->] end.
    exists (tr ++ [EvExt c (next_promise s)])%list. now rewrite <- app_assoc.
  - match goal with |- context [run _ (k ?x) self (run _ callee ?p ?s')] =>
      destruct (IHk x self (run (getResource options) callee p s')) as [tr1 ->];
      destruct (IHc p s') as [tr2 ->] end.
    exists (tr1 ++ tr2 ++ [EvCall f (next_promise s)])%list.
    cbn. now rewrite <- !app_assoc.
  - exists []. reflexivity.
Qed.

(** What the built-in dispatch calls, by the type tag. *)
Lemma dispatched_facts (s : state) (i : nat) (id path : string) (p : promise) (text : string)
    (extname : value) :
  hd_error (pool (dispatched host options id path extname text i p s))
  = Some {| t_wait := WPromise (next_promise s);
            t_kont := KFun (loading_after_default host id path extname); t_result := p |} /\
  exists tr,
    trace (dispatched host options id path extname text i p s)
    = (tr ++ EvCall (F_defaultHandleModule extname path) (next_promise s) :: trace s)%list /\
    (extname = VStr ".vue" ->
     tr = [EvExt (E_createSFCModule text path) (S (next_promise s))]) /\
    (extname = VStr ".js" ->
     exists tr', tr = (tr' ++ [EvCall (F_createJSModule path false)
                                     (S (next_promise s))])%list) /\
    (extname = VStr ".mjs" ->
     exists tr', tr = (tr' ++ [EvCall (F_createJSModule path true)
                                     (S (next_promise s))])%list) /\
    (unsupported extname -> tr = []).
Proof.
  split; [reflexivity|]. unfold dispatched. cbn [set_pool trace].
  set (s1 := emit (EvCall (F_defaultHandleModule extname path) (next_promise s))
               (fresh (set_pool (delete i (pool s)) s))).
  destruct (run_trace (defaultHandleModule host options extname text path)
              (next_promise s) s1) as [tr Htr].
  exists tr. split; [exact Htr|].
  repeat split.
  - intros ->. revert Htr. unfold defaultHandleModule, createSFCModule, return_await.
    cbn [String.eqb Ascii.eqb Bool.eqb run set_pool trace emit fresh next_promise].
    intros Htr. apply app_inv_tail with (l := trace s1). rewrite <- Htr. reflexivity.
  - intros ->. revert Htr. unfold defaultHandleModule, return_await.
    cbn [String.eqb Ascii.eqb Bool.eqb run set_pool trace emit fresh next_promise].
    match goal with |- context [run _ (createJSModule ?h ?o ?a ?b ?c) ?q ?st] =>
      destruct (run_trace (createJSModule h o a b c) q st) as [tr' ->] end.
    intros Htr. exists tr'. apply app_inv_tail with (l := trace s1).
    rewrite <- Htr. cbn. now rewrite <- app_assoc.
  - intros ->. revert Htr. unfold defaultHandleModule, return_await.
    cbn [String.eqb Ascii.eqb Bool.eqb run set_pool trace emit fresh next_promise].
    match goal with |- context [run _ (createJSModule ?h ?o ?a ?b ?c) ?q ?st] =>
      destruct (run_trace (createJSModule h o a b c) q st) as [tr' ->] end.
    intros Htr. exists tr'. apply app_inv_tail with (l := trace s1).
    rewrite <- Htr. cbn. now rewrite <- app_assoc.
  - intros Hun. revert Htr. rewrite (defaultHandleModule_unsupported _ _ _ Hun). cbn [run].
    destruct (settle_fields (next_promise s) (Fulfilled VUndefined) s1)
      as (_ & _ & _ & _ & _ & ->).
    intros Htr. apply app_inv_tail with (l := trace s1). rewrite <- Htr. reflexivity.
Qed.

(** C8. [null] is a value like any other, [undefined] alone is not: when
    the promise of the caller-supplied handler, or of the built-in
    dispatch, is fulfilled with a value that is not [undefined], [null]
    included, the function stores that value as the entry and fulfils the
    [Loading]'s promise with it, calling nothing. The promise of the
    built-in dispatch is the one the load awaits once the handler has
    answered [undefined] or when there is none; and a component that the
    built-in compiler answers [null] for is loaded with [null] as its
    value. A later request for an identity whose entry is [null] returns
    [null] at once, having called [getResource] and nothing else; and the
    content of such an identity is never fetched again. *)
Theorem null_is_a_legal_export (s : state) :
  reachable host options cache0 s ->
  (forall i w id path extname content p v,
     pool s !! i = Some {| t_wait := w;
                           t_kont := KFun (loading_after_handleModule host options id path
                                             extname content);
                           t_result := p |} ->
     poll s w = Some (Fulfilled v) -> is_undefined v = false ->
     exists s', step host options (Resume i) s = Some s' /\
       moduleCache s' !! id = Some v /\
       outcome_of (settled s') p = Some (Fulfilled v) /\
       trace s' = trace s /\ pool s' = delete i (pool s)) /\
  (forall i w id path extname p v,
     pool s !! i = Some {| t_wait := w;
                           t_kont := KFun (loading_after_default host id path extname);
                           t_result := p |} ->
     poll s w = Some (Fulfilled v) -> is_undefined v = false ->
     exists s', step host options (Resume i) s = Some s' /\
       moduleCache s' !! id = Some v /\
       outcome_of (settled s') p = Some (Fulfilled v) /\
       trace s' = trace s /\ pool s' = delete i (pool s)) /\
  (forall i w id path extname text p,
     pool s !! i = Some {| t_wait := w;
                           t_kont := KFun (loading_after_handleModule host options id path
                                             extname text);
                           t_result := p |} ->
     poll s w = Some (Fulfilled VUndefined) ->
     exists s', step host options (Resume i) s = Some s' /\
       In (EvCall (F_defaultHandleModule extname path) (next_promise s)) (trace s') /\
       hd_error (pool s')
       = Some {| t_wait := WPromise (next_promise s);
                 t_kont := KFun (loading_after_default host id path extname);
                 t_result := p |}) /\
  (forall i w id path extname text p,
     handleModule options = false ->
     pool s !! i = Some {| t_wait := w; t_kont := K_getContent id path; t_result := p |} ->
     poll s w = Some (Fulfilled (got (VStr text) extname)) ->
     exists s', step host options (Resume i) s = Some s' /\
       In (EvCall (F_defaultHandleModule extname path) (next_promise s)) (trace s') /\
       hd_error (pool s')
       = Some {| t_wait := WPromise (next_promise s);
                 t_kont := KFun (loading_after_default host id path extname);
                 t_result := p |}) /\
  (forall i w id path text p v,
     handleModule options = false ->
     pool s !! i = Some {| t_wait := w; t_kont := K_getContent id path; t_result := p |} ->
     poll s w = Some (Fulfilled (got (VStr text) (VStr ".vue"))) ->
     is_undefined v = false ->
     exists s1 s4,
       step host options (Resume i) s = Some s1 /\
       trace s1 = EvExt (E_createSFCModule text path) (S (next_promise s))
                  :: EvCall (F_defaultHandleModule (VStr ".vue") path) (next_promise s)
                  :: trace s /\
       steps host options [Settle (S (next_promise s)) (Fulfilled v); Resume 1; Resume 0] s1
       = Some s4 /\
       moduleCache s4 !! id = Some v /\
       outcome_of (settled s4) p = Some (Fulfilled v) /\
       trace s4 = trace s1 /\ pool s4 = delete i (pool s)) /\
  (forall i w id path text p v,
     pool s !! i = Some {| t_wait := w;
                           t_kont := KFun (loading_after_handleModule host options id path
                                             (VStr ".vue") text);
                           t_result := p |} ->
     poll s w = Some (Fulfilled VUndefined) ->
     is_undefined v = false ->
     exists s1 s4,
       step host options (Resume i) s = Some s1 /\
       trace s1 = EvExt (E_createSFCModule text path) (S (next_promise s))
                  :: EvCall (F_defaultHandleModule (VStr ".vue") path) (next_promise s)
                  :: trace s /\
       steps host options [Settle (S (next_promise s)) (Fulfilled v); Resume 1; Resume 0] s1
       = Some s4 /\
       moduleCache s4 !! id = Some v /\
       outcome_of (settled s4) p = Some (Fulfilled v) /\
       trace s4 = trace s1 /\ pool s4 = delete i (pool s)) /\
  (forall pathCx,
     moduleCache s !! r_id (getResource options pathCx) = Some VNull ->
     exists s1, step host options (Request pathCx) s = Some s1 /\
       outcome_of (settled s1) (next_promise s) = Some (Fulfilled VNull) /\
       trace s1 = EvGetResource pathCx
                  :: EvCall (F_loadModuleInternal pathCx) (next_promise s) :: trace s /\
       moduleCache s1 = moduleCache s) /\
  (forall id ls s',
     moduleCache s !! id = Some VNull -> steps host options ls s = Some s' ->
     moduleCache s' !! id = Some VNull /\
     count (is_getContent id) (trace s') = count (is_getContent id) (trace s)).
Proof.
  intros Hr.
  assert (forall i id path extname text p,
            exists tr,
              trace (dispatched host options id path extname text i p s)
              = (tr ++ EvCall (F_defaultHandleModule extname path) (next_promise s)
                    :: trace s)%list) as Htrace.
  { intros i id path extname text p.
    destruct (dispatched_facts s i id path p text extname) as (_ & tr & Htr & _). eauto. }
  split; [|split; [|split; [|split; [|split; [|split; [|split]]]]]].
  - intros i w id path extname content p v Hi Hpoll Hv.
    apply (resume_returns s i _ id v v Hr Hi Hpoll).
    cbn [apply_kont t_kont]. unfold loading_after_handleModule, loading_after_default.
    now rewrite Hv.
  - intros i w id path extname p v Hi Hpoll Hv.
    apply (resume_returns s i _ id v v Hr Hi Hpoll).
    cbn [apply_kont t_kont]. unfold loading_after_default. now rewrite Hv.
  - intros i w id path extname text p Hi Hpoll. eexists.
    split; [eapply handler_declined_step; eassumption|].
    split; [|apply dispatched_facts].
    destruct (Htrace i id path extname text p) as [tr ->]. apply in_or_app. right. now left.
  - intros i w id path extname text p Hh Hi Hpoll. eexists.
    split; [eapply no_handler_step; eassumption|].
    split; [|apply dispatched_facts].
    destruct (Htrace i id path extname text p) as [tr ->]. apply in_or_app. right. now left.
  - intros i w id path text p v Hh Hi Hpoll Hv.
    pose proof (loading_kont_role s i _ id path Hr Hi (or_introl eq_refl)) as Hin.
    destruct (vue_dispatch s i _ id path text v Hr Hi Hin Hv) as (Htr & _ & s4 & Hsteps & Hrest).
    eexists. exists s4. split; [eapply no_handler_step; eassumption|].
    split; [exact Htr|]. split; [exact Hsteps|exact Hrest].
  - intros i w id path text p v Hi Hpoll Hv.
    pose proof (loading_after_role s i _ id path (VStr ".vue") text Hr Hi (or_introl eq_refl))
      as Hin.
    destruct (vue_dispatch s i _ id path text v Hr Hi Hin Hv) as (Htr & _ & s4 & Hsteps & Hrest).
    eexists. exists s4. split; [eapply handler_declined_step; eassumption|].
    split; [exact Htr|]. split; [exact Hsteps|exact Hrest].
  - intros pathCx Hc. eexists. split; [reflexivity|].
    pose proof (start_load options pathCx s) as Heq. cbv zeta in Heq.
    rewrite Heq, Hc.
    match goal with |- context [settle ?q ?o ?st] => settle_fields q o st end.
    rewrite H, H4. split; [|split; reflexivity].
    apply outcome_settle_pending. cbn.
    apply (reachable_Inv host) in Hr as [[] _]. eapply fresh_unsettled; eauto.
  - intros id ls s' Hc Hsteps. split.
    + destruct (steps_Inv host options cache0 ls s s'
                  (reachable_Inv host options cache0 s Hr) Hsteps) as [_ [_ _ _ Hcache]].
      destruct (Hcache _ _ Hc) as [Hkeep|(p & Heq & _)]; [exact Hkeep|discriminate Heq].
    + now apply (no_fetch_once_resolved host options cache0 s s' ls id VNull).
Qed.


End Dispatch.

Lemma loadModule_reachable :
  reachable demo_host demo_options_loadModule ∅
    (after demo_host demo_options_loadModule schedule_loadModule).
Proof. exists ∅, schedule_loadModule. vm_compute. reflexivity. Qed.

Lemma loadModule_short_circuit_witness :
  exists s',
    step demo_host demo_options_loadModule (Resume 1)
         (after demo_host demo_options_loadModule schedule_loadModule) = Some s' /\
    moduleCache s' !! "./a.js" = Some (VObj 7) /\
    outcome_of (settled s') 1 = Some (Fulfilled (VObj 7)) /\
    trace s' = trace (after demo_host demo_options_loadModule schedule_loadModule) /\
    pool s' = delete 1 (pool (after demo_host demo_options_loadModule schedule_loadModule)) /\
    forall ls s'', steps demo_host demo_options_loadModule ls s' = Some s'' ->
                   count (is_getContent "./a.js") (trace s'') = 0.
Proof.
  destruct (loadModule_short_circuit demo_host demo_options_loadModule ∅
              (after demo_host demo_options_loadModule schedule_loadModule)
              loadModule_reachable eq_refl) as [_ Hresume].
  apply (Hresume 1 (WPromise 2) "./a.js" "./a.js" 1 (VObj 7)); vm_compute; reflexivity.
Defined.

(** In that run no content was fetched and nothing was dispatched. *)
Example loadModule_no_fetch :
  count (is_getContent "./a.js")
    (trace (after demo_host demo_options_loadModule (schedule_loadModule ++ [Resume 1; Resume 0])))
  = 0 /\
  count is_dispatch
    (trace (after demo_host demo_options_loadModule (schedule_loadModule ++ [Resume 1; Resume 0])))
  = 0 /\
  outcome_of
    (settled (after demo_host demo_options_loadModule (schedule_loadModule ++ [Resume 1; Resume 0])))
    0 = Some (Fulfilled (VObj 7)).
Proof. vm_compute. repeat split; reflexivity. Qed.

Lemma handler_null_reachable :
  reachable demo_host demo_options_handleModule ∅
    (after demo_host demo_options_handleModule schedule_handler_null).
Proof. exists ∅, schedule_handler_null. vm_compute. reflexivity. Qed.

Lemma vue_reachable :
  reachable demo_host demo_options ∅ (after demo_host demo_options schedule_vue).
Proof. exists ∅, schedule_vue. vm_compute. reflexivity. Qed.

(** A component the built-in compiler answers [null] for, and a stylesheet
    the caller's handler answers [null] for. *)
Lemma null_is_a_legal_export_witness :
  (exists s1 s4,
    step demo_host demo_options (Resume 1) (after demo_host demo_options schedule_vue)
    = Some s1 /\
    trace s1 = EvExt (E_createSFCModule "<template/>" "./a.vue")
                 (S (next_promise (after demo_host demo_options schedule_vue)))
               :: EvCall (F_defaultHandleModule (VStr ".vue") "./a.vue")
                    (next_promise (after demo_host demo_options schedule_vue))
               :: trace (after demo_host demo_options schedule_vue) /\
    steps demo_host demo_options
      [Settle (S (next_promise (after demo_host demo_options schedule_vue))) (Fulfilled VNull);
       Resume 1; Resume 0] s1 = Some s4 /\
    moduleCache s4 !! "./a.vue" = Some VNull /\
    outcome_of (settled s4) 1 = Some (Fulfilled VNull) /\
    trace s4 = trace s1 /\
    pool s4 = delete 1 (pool (after demo_host demo_options schedule_vue))) /\
  (exists s',
     step demo_host demo_options_handleModule (Resume 0)
          (after demo_host demo_options_handleModule schedule_handler_null) = Some s' /\
     moduleCache s' !! "./a.css" = Some VNull /\
     outcome_of (settled s') 1 = Some (Fulfilled VNull) /\
     trace s' = trace (after demo_host demo_options_handleModule schedule_handler_null) /\
     pool s' = delete 0 (pool (after demo_host demo_options_handleModule
                                 schedule_handler_null))).
Proof.
  split.
  - destruct (null_is_a_legal_export demo_host demo_options ∅
                (after demo_host demo_options schedule_vue) vue_reachable)
      as (_ & _ & _ & _ & Hvue & _).
    apply (Hvue 1 (WPromise 2) "./a.vue" "./a.vue" "<template/>" 1 VNull);
      vm_compute; reflexivity.
  - destruct (null_is_a_legal_export demo_host demo_options_handleModule ∅
                (after demo_host demo_options_handleModule schedule_handler_null)
                handler_null_reachable) as (Hhandler & _).
    apply (Hhandler 0 (WPromise 3) "./a.css" "./a.css" (VStr ".css") "a {}" 1 VNull);
      vm_compute; reflexivity.
Defined.

(** Once [null] is the entry, a request returns it and fetches nothing. *)
Example null_is_memoized :
  outcome_of
    (settled (after demo_host demo_options_handleModule
                (schedule_handler_null ++ [Resume 0; Resume 0; Request (from_root "./a.css")])))
    4 = Some (Fulfilled VNull) /\
  count (is_getContent "./a.css")
    (trace (after demo_host demo_options_handleModule
              (schedule_handler_null ++ [Resume 0; Resume 0; Request (from_root "./a.css")])))
  = 1.
Proof. vm_compute. split; reflexivity. Qed.



(** The handler was called before the built-in dispatch. *)
Example handler_called_first :
  rev (trace (after demo_host demo_options_handleModule schedule_handler_declines))
  = [EvCall (F_loadModuleInternal (from_root "./a.css")) 0;
     EvGetResource (from_root "./a.css");
     EvCall (F_loading "./a.css") 1;
     EvExt (E_getContent "./a.css") 2;
     EvExt (E_handleModule (VStr ".css") "a {}" "./a.css") 3;
     EvCall (F_defaultHandleModule (VStr ".css") "./a.css") 4].
Proof. vm_compute. reflexivity. Qed.

(** ** The synchronous lookup (C5) *)

Section Require.

Context (options : Options).

(** [require] answers with the entry, whatever it is, and throws only when
    the identity is not in the module cache. *)
Lemma require_run (refPath relPath : string) (k : outcome -> async) (self : promise)
    (s : state) :
  let pathCx := {| refPath := refPath; relPath := relPath |} in
  let id := r_id (getResource options pathCx) in
  run (getResource options) (require refPath relPath k) self s
  = run (getResource options)
      (k (match moduleCache s !! id with
          | Some entry => Fulfilled entry
          | None => Rejected (Error (id +:+ " not found in moduleCache"))
          end))
      self (emit (EvGetResource pathCx) s).
Proof.
  intros pathCx id. unfold require. cbn [run]. fold pathCx id.
  unfold in_cache. cbn [emit moduleCache].
  destruct (moduleCache s !! id) eqn:Hc; cbn [run]; [|reflexivity].
  unfold cache_get. cbn [emit moduleCache]. now rewrite Hc.
Qed.

Lemma require_not_found (refPath relPath : string) (k : outcome -> async) (self : promise)
    (s : state) :
  let pathCx := {| refPath := refPath; relPath := relPath |} in
  let id := r_id (getResource options pathCx) in
  moduleCache s !! id = None ->
  run (getResource options) (require refPath relPath k) self s
  = run (getResource options) (k (Rejected (Error (id +:+ " not found in moduleCache"))))
      self (emit (EvGetResource pathCx) s).
Proof. intros pathCx id Hc. rewrite require_run. fold pathCx id. now rewrite Hc. Qed.

Lemma require_resolved (refPath relPath : string) (k : outcome -> async) (self : promise)
    (s : state) (v : value) :
  let pathCx := {| refPath := refPath; relPath := relPath |} in
  let id := r_id (getResource options pathCx) in
  moduleCache s !! id = Some v ->
  run (getResource options) (require refPath relPath k) self s
  = run (getResource options) (k (Fulfilled v)) self (emit (EvGetResource pathCx) s).
Proof. intros pathCx id Hc. rewrite require_run. fold pathCx id. now rewrite Hc. Qed.

(** While the identity is loading, the entry is the [Loading], and
    [require] hands it to the module's code as if it were the exports. *)
Lemma require_pending (refPath relPath : string) (k : outcome -> async) (self : promise)
    (s : state) (p : promise) :
  let pathCx := {| refPath := refPath; relPath := relPath |} in
  let id := r_id (getResource options pathCx) in
  moduleCache s !! id = Some (VLoading p) -> outcome_of (settled s) p = None ->
  run (getResource options) (require refPath relPath k) self s
  = run (getResource options) (k (Fulfilled (VLoading p))) self
      (emit (EvGetResource pathCx) s).
Proof. intros pathCx id Hc _. now apply require_resolved. Qed.

End Require.

(** C5, where the code departs from it: [./dep.js] is still loading (its
    entry is the [Loading] with the pending promise 1) when the code of
    [./main.js] requires it. [require] does not throw: the code gets the
    [Loading], exports it, and the load of [./main.js] succeeds with the
    [Loading] of [./dep.js] as its value. *)
Theorem require_of_pending_returns_the_Loading :
  let s := after demo_host demo_options schedule_require_pending in
  moduleCache s !! "./dep.js" = Some (VLoading 1) /\
  outcome_of (settled s) 1 = None /\
  outcome_of (settled s) 7 = Some (Fulfilled (VLoading 1)) /\
  moduleCache s !! "./main.js" = Some (VLoading 1) /\
  outcome_of (settled s) 3 = Some (Fulfilled (VLoading 1)).
Proof. vm_compute. repeat split; reflexivity. Qed.

(** C1, as the spec has it, fails for a request made after the load: when
    the value exported is a [Loading], the entry is taken for a load in
    flight. The load of [./main.js] ran once; the first request for it was
    fulfilled with the value exported, the [Loading] of [./dep.js]; the
    second found that entry, awaited its promise, and was rejected when
    [./dep.js] failed. *)
Lemma late_request_other_outcome :
  let s := after demo_host demo_options schedule_require_pending_then_fails in
  In (EvCall (F_loadModuleInternal (from_root "./main.js")) 3) (trace s) /\
  In (EvCall (F_loadModuleInternal (from_root "./main.js")) 13) (trace s) /\
  outcome_of (settled s) 3 = Some (Fulfilled (VLoading 1)) /\
  outcome_of (settled s) 13 = Some (Rejected (Other 500)) /\
  times_loaded "./main.js" s = 1.
Proof. vm_compute. repeat split; try reflexivity; in_list. Qed.

(** ** The compilation cache (C4) *)

Section CompilationCache.

Context (host : Host) (options : Options).

Lemma flag_fresh (l : list bool) : (l ++ [false])%list !! length l = Some false.
Proof. induction l as [|b l IH]; [reflexivity|exact IH]. Qed.

Lemma flag_set (l : list bool) : <[length l := true]> (l ++ [false])%list !! length l = Some true.
Proof. induction l as [|b l IH]; [reflexivity|exact IH]. Qed.

Lemma producer_end_to_end (s : state) (key : list string) (prevent : bool) (v : value) :
  outcome_of (settled s) (next_promise s) = None ->
  outcome_of (settled s) (S (next_promise s)) = None ->
  (forall str, compiledStore s !! hash host key = Some str -> str = "") ->
  exists s',
    steps host options
      (Resume 0 :: Resume 0
       :: match handed_to_set host prevent v with Some _ => [Resume 0] | None => [] end)
      (start options F_withCache (withCache host true key (producer prevent v)) s) = Some s' /\
    outcome_of (settled s') (next_promise s)
    = Some (if prevent then Fulfilled v
            else match JSON_stringify host v with
                 | inl _ => Fulfilled v
                 | inr e => Rejected e
                 end) /\
    compiledStore s'
    = match handed_to_set host prevent v with
      | Some valueStr => store_set (hash host key) valueStr (compiledStore s)
      | None => compiledStore s
      end /\
    count is_valueFactory (trace s') = S (count is_valueFactory (trace s)) /\
    count is_store (trace s')
    = match handed_to_set host prevent v with Some _ => 2 | None => 1 end
      + count is_store (trace s) /\
    pool s' = pool s.
Proof.
  intros Hn HSn Hmiss.
  assert (exists got,
            match compiledStore s !! hash host key with
            | Some str => VStr str
            | None => VUndefined
            end = got /\ truthy got = false) as (got & Hgeq & Hgot).
  { eexists. split; [reflexivity|].
    destruct (compiledStore s !! hash host key) as [str|] eqn:Hs; [|reflexivity].
    rewrite (Hmiss str eq_refl). reflexivity. }
  assert (S (next_promise s) <> next_promise s) as Hne by lia.
  unfold start, withCache. cbn [run negb set_flags emit fresh compiledStore].
  rewrite Hgeq. clear Hgeq Hmiss.
  set (hashedKey := hash host key). clearbody hashedKey.
  cbn [steps step set_pool pool lookup list_lookup t_wait poll resume apply_kont t_kont t_result
       delete list_delete].
  unfold withCache_after_get. rewrite Hgot. unfold producer, handed_to_set.
  destruct prevent; cbn [run set_pool pool trace emit fresh next_promise flags length set_flags].
  - rewrite settle_pending by exact HSn.
    cbn [steps step set_pool pool lookup list_lookup t_wait poll resume apply_kont t_kont
         t_result delete list_delete settled].
    rewrite outcome_of_head.
    cbn [resume apply_kont t_kont t_result]. unfold withCache_after_valueFactory.
    cbn [run flags set_pool]. rewrite flag_set. cbn.
    rewrite settle_pending by (cbn; rewrite outcome_of_other; assumption).
    eexists. split; [reflexivity|]. cbn.
    rewrite outcome_of_head. repeat split.
  - rewrite settle_pending by exact HSn.
    cbn [steps step set_pool pool lookup list_lookup t_wait poll resume apply_kont t_kont
         t_result delete list_delete settled].
    rewrite outcome_of_head.
    cbn [resume apply_kont t_kont t_result]. unfold withCache_after_valueFactory.
    cbn [run flags set_pool]. rewrite flag_fresh.
    destruct (JSON_stringify host v) as [valueStr|e]; cbn.
    + rewrite settle_pending by (cbn; rewrite outcome_of_other; assumption).
      eexists. split; [reflexivity|]. cbn.
      rewrite outcome_of_head. repeat split.
    + rewrite settle_pending by (cbn; rewrite outcome_of_other; assumption).
      eexists. split; [reflexivity|]. cbn.
      rewrite outcome_of_head. repeat split.
Qed.

(** C4, as the code has it. With a store configured: when the store holds
    a non-empty string under the key, [withCache] returns what [JSON.parse]
    makes of it and the producer is not called. When it holds nothing (or
    the empty string), the producer is called, once, with the [api] whose
    [preventCache] sets the very flag [withCache] reads afterwards, a flag
    that is new and not set. When the producer's promise is fulfilled,
    [withCache] reads the flag: if it is set it stores nothing and returns
    the value; if not it encodes the value with [JSON.stringify] and, when
    that answers (a text or [undefined]), calls [set] with the key and the
    answer, after which the store holds that answer under the key (nothing,
    for [undefined]), and returns the value; when [JSON.stringify] throws,
    [withCache] is rejected with the exception and stores nothing. So a
    producer that calls [preventCache] and answers has its value returned
    and nothing stored, the next call being a miss again, and one that
    answers without calling it has the encoding of its value, if there is
    one, handed to [set]. With no store configured the producer is called
    at once, no store operation is made, and the producer's outcome is the
    outcome. *)
Theorem compilation_cache (s : state) (key : list string) (valueFactory : nat -> async) :
  outcome_of (settled s) (next_promise s) = None ->
  outcome_of (settled s) (S (next_promise s)) = None ->
  let hashedKey := hash host key in
  let n := next_promise s in
  let api := length (flags s) in
  (forall str, compiledStore s !! hashedKey = Some str -> str <> "" ->
     exists s1 s2,
       s1 = start options F_withCache (withCache host true key valueFactory) s /\
       step host options (Resume 0) s1 = Some s2 /\
       trace s2 = EvStoreGet hashedKey :: EvCall F_withCache n :: trace s /\
       compiledStore s2 = compiledStore s /\
       outcome_of (settled s2) n
       = Some (match JSON_parse host str with
               | inl v => Fulfilled v
               | inr e => Rejected e
               end)) /\
  ((forall str, compiledStore s !! hashedKey = Some str -> str = "") ->
     exists s0,
       flags s0 = (flags s ++ [false])%list /\ flags s0 !! api = Some false /\
       compiledStore s0 = compiledStore s /\ pool s0 = pool s /\ settled s0 = settled s /\
       trace s0 = EvCall F_valueFactory (S n) :: EvStoreGet hashedKey
                  :: EvCall F_withCache n :: trace s /\
       step host options (Resume 0)
         (start options F_withCache (withCache host true key valueFactory) s)
       = Some (set_pool
                 ({| t_wait := WPromise (S n);
                     t_kont := KFun (withCache_after_valueFactory host hashedKey api);
                     t_result := n |}
                  :: pool (run (getResource options) (valueFactory api) (S n) s0))
                 (run (getResource options) (valueFactory api) (S n) s0))) /\
  (forall i w cachePrevented pr value,
     pool s !! i = Some {| t_wait := w;
                           t_kont := KFun (withCache_after_valueFactory host hashedKey
                                             cachePrevented);
                           t_result := pr |} ->
     poll s w = Some (Fulfilled value) -> outcome_of (settled s) pr = None ->
     exists s', step host options (Resume i) s = Some s' /\
       if default false (flags s !! cachePrevented)
       then compiledStore s' = compiledStore s /\ trace s' = trace s /\
            outcome_of (settled s') pr = Some (Fulfilled value)
       else match JSON_stringify host value with
            | inl valueStr =>
                compiledStore s' = store_set hashedKey valueStr (compiledStore s) /\
                compiledStore s' !! hashedKey = valueStr /\
                trace s' = EvStoreSet hashedKey valueStr :: trace s /\
                exists s'', step host options (Resume 0) s' = Some s'' /\
                  compiledStore s'' = compiledStore s' /\ trace s'' = trace s' /\
                  outcome_of (settled s'') pr = Some (Fulfilled value)
            | inr e =>
                compiledStore s' = compiledStore s /\ trace s' = trace s /\
                outcome_of (settled s') pr = Some (Rejected e)
            end) /\
  (forall (prevent : bool) (v : value),
     (forall str, compiledStore s !! hashedKey = Some str -> str = "") ->
     exists s',
       steps host options
         (Resume 0 :: Resume 0
          :: match handed_to_set host prevent v with Some _ => [Resume 0] | None => [] end)
         (start options F_withCache (withCache host true key (producer prevent v)) s)
       = Some s' /\
       outcome_of (settled s') n
       = Some (if prevent then Fulfilled v
               else match JSON_stringify host v with
                    | inl _ => Fulfilled v
                    | inr e => Rejected e
                    end) /\
       compiledStore s'
       = match handed_to_set host prevent v with
         | Some valueStr => store_set hashedKey valueStr (compiledStore s)
         | None => compiledStore s
         end /\
       count is_valueFactory (trace s') = S (count is_valueFactory (trace s)) /\
       count is_store (trace s')
       = match handed_to_set host prevent v with Some _ => 2 | None => 1 end
         + count is_store (trace s) /\
       pool s' = pool s) /\
  (exists s0,
     flags s0 = (flags s ++ [false])%list /\ compiledStore s0 = compiledStore s /\
     pool s0 = pool s /\
     trace s0 = EvCall F_valueFactory (S n) :: EvCall F_withCache n :: trace s /\
     start options F_withCache (withCache host false key valueFactory) s
     = set_pool ({| t_wait := WPromise (S n); t_kont := KFun Ret; t_result := n |}
                 :: pool (run (getResource options) (valueFactory api) (S n) s0))
         (run (getResource options) (valueFactory api) (S n) s0)) /\
  (forall i w pr o,
     pool s !! i = Some {| t_wait := w; t_kont := KFun Ret; t_result := pr |} ->
     poll s w = Some o -> outcome_of (settled s) pr = None ->
     exists s', step host options (Resume i) s = Some s' /\
       compiledStore s' = compiledStore s /\ trace s' = trace s /\
       outcome_of (settled s') pr = Some o).
Proof.
  intros Hfresh HfreshS hashedKey n api. split; [|split; [|split; [|split; [|split]]]].
  - intros str Hstore Hne. eexists. eexists. split; [reflexivity|].
    unfold start, withCache. cbn [run negb set_flags emit fresh compiledStore].
    fold hashedKey. rewrite Hstore.
    cbn [step set_pool pool lookup list_lookup t_wait poll resume apply_kont t_kont t_result].
    split; [reflexivity|]. unfold withCache_after_get. cbn [truthy template].
    destruct (String.eqb_spec str "") as [->|_]; [congruence|]. cbn [negb].
    destruct (JSON_parse host str) as [v|e]; cbn [run];
      match goal with |- context [settle ?q ?o ?st] => settle_fields q o st end;
      rewrite H0, H4; (split; [reflexivity|split; [reflexivity|]]);
      apply outcome_settle_pending; exact Hfresh.
  - intros Hmiss.
    assert (exists got,
              match compiledStore s !! hashedKey with
              | Some str => VStr str
              | None => VUndefined
              end = got /\ truthy got = false) as (got & Hgeq & Hgot).
    { eexists. split; [reflexivity|].
      destruct (compiledStore s !! hashedKey) as [str|] eqn:Hs; [|reflexivity].
      rewrite (Hmiss str eq_refl). reflexivity. }
    eexists. split; [|split; [|split; [|split; [|split; [|split]]]]];
      [| | | | | |unfold start, withCache; cbn [run negb set_flags emit fresh compiledStore];
                  fold hashedKey; rewrite Hgeq;
                  cbn [step set_pool pool lookup list_lookup t_wait poll resume apply_kont
                       t_kont t_result delete list_delete];
                  unfold withCache_after_get; rewrite Hgot;
                  cbn [run set_pool pool trace emit fresh next_promise flags length set_flags];
                  reflexivity];
      try reflexivity.
    cbn [flags set_flags emit fresh set_pool]. apply flag_fresh.
  - intros i w cachePrevented pr value Hi Hpoll Hpend.
    eexists. split; [eapply step_resume; eassumption|].
    cbn [resume apply_kont t_kont t_result]. unfold withCache_after_valueFactory.
    cbn [run set_pool flags].
    destruct (default false (flags s !! cachePrevented)); cbn [negb run].
    + match goal with |- context [settle ?q ?o ?st] => settle_fields q o st end.
      rewrite H0, H4. split; [reflexivity|split; [reflexivity|]].
      now apply outcome_settle_pending.
    + destruct (JSON_stringify host value) as [valueStr|e]; cbn [run].
      * cbn [set_pool emit set_compiledStore compiledStore trace].
        split; [reflexivity|].
        split; [destruct valueStr; [apply lookup_insert_eq|apply lookup_delete_eq]|].
        split; [reflexivity|].
        eexists. split; [reflexivity|]. cbn [resume apply_kont t_kont t_result run].
        match goal with |- context [settle ?q ?o ?st] => settle_fields q o st end.
        rewrite H0, H4. split; [reflexivity|split; [reflexivity|]].
        now apply outcome_settle_pending.
      * match goal with |- context [settle ?q ?o ?st] => settle_fields q o st end.
        rewrite H0, H4. split; [reflexivity|split; [reflexivity|]].
        now apply outcome_settle_pending.
  - intros prevent v Hmiss. now apply producer_end_to_end.
  - eexists. split; [|split; [|split; [|split]]];
      [| | | |unfold start, withCache, return_await;
               cbn [run negb set_flags emit fresh set_pool pool trace next_promise flags length];
               reflexivity];
      reflexivity.
  - intros i w pr o Hi Hpoll Hpend.
    eexists. split; [eapply step_resume; eassumption|].
    assert (forall st, resume host options {| t_wait := w; t_kont := KFun Ret; t_result := pr |}
                         o st = settle pr o st) as -> by (intros st; destruct o; reflexivity).
    match goal with |- context [settle ?q ?o ?st] => settle_fields q o st end.
    rewrite H0, H4. split; [reflexivity|split; [reflexivity|]].
    now apply outcome_settle_pending.
Qed.

End CompilationCache.

(** A producer that calls [preventCache], and one that does not. *)
Lemma compilation_cache_witness :
  (exists s',
     steps demo_host demo_options [Resume 0; Resume 0]
       (start demo_options F_withCache
          (withCache demo_host true demo_key (producer true (VStr "compiled"))) (init ∅ ∅))
     = Some s' /\
     outcome_of (settled s') 0 = Some (Fulfilled (VStr "compiled")) /\
     compiledStore s' = ∅ /\
     count is_valueFactory (trace s') = 1 /\
     count is_store (trace s') = 1 /\
     pool s' = []) /\
  (exists s',
     steps demo_host demo_options [Resume 0; Resume 0; Resume 0]
       (start demo_options F_withCache
          (withCache demo_host true demo_key (producer false (VStr "compiled"))) (init ∅ ∅))
     = Some s' /\
     outcome_of (settled s') 0 = Some (Fulfilled (VStr "compiled")) /\
     compiledStore s' = store_set (hash demo_host demo_key) (Some "compiled") ∅ /\
     count is_valueFactory (trace s') = 1 /\
     count is_store (trace s') = 2 /\
     pool s' = []).
Proof.
  split.
  - destruct (compilation_cache demo_host demo_options (init ∅ ∅) demo_key
                (producer true (VStr "compiled")) eq_refl eq_refl) as (_ & _ & _ & Hcall & _).
    apply (Hcall true (VStr "compiled")). intros str H. unfold init in H.
    cbn [compiledStore] in H. rewrite lookup_empty in H. discriminate H.
  - destruct (compilation_cache demo_host demo_options (init ∅ ∅) demo_key
                (producer false (VStr "compiled")) eq_refl eq_refl) as (_ & _ & _ & Hcall & _).
    apply (Hcall false (VStr "compiled")). intros str H. unfold init in H.
    cbn [compiledStore] in H. rewrite lookup_empty in H. discriminate H.
Defined.

(** C4, as the spec has it, fails. A producer answers an object that
    [JSON.stringify] throws on, and does not call [preventCache]: the call
    of [withCache] is rejected with the exception, the value is not
    returned, nothing is stored, and a second call with the same key calls
    the producer again. A producer answers [undefined], and does not call
    [preventCache]: [set] is called with [undefined], the store then
    answers nothing for the key, and a second call with the same key calls
    the producer again. *)
Lemma unencodable_result_is_not_cached :
  let s1 := call_withCache demo_host_circular demo_options demo_key
              (producer false (VObj 9)) (init ∅ ∅) in
  let s2 := call_withCache demo_host_circular demo_options demo_key
              (producer false (VObj 9)) s1 in
  let t1 := call_withCache demo_host demo_options demo_key
              (producer false VUndefined) (init ∅ ∅) in
  let t2 := call_withCache demo_host demo_options demo_key
              (producer false VUndefined) t1 in
  (flags s1 = [false] /\
   outcome_of (settled s1) 0
   = Some (Rejected (TypeError "Converting circular structure to JSON")) /\
   compiledStore s1 = ∅ /\
   count is_store (trace s1) = 1 /\
   count is_valueFactory (trace s1) = 1 /\
   count is_valueFactory (trace s2) = 2) /\
  (flags t1 = [false] /\
   outcome_of (settled t1) 0 = Some (Fulfilled VUndefined) /\
   In (EvStoreSet (hash demo_host demo_key) None) (trace t1) /\
   compiledStore t1 !! hash demo_host demo_key = None /\
   count is_valueFactory (trace t1) = 1 /\
   count is_valueFactory (trace t2) = 2).
Proof. vm_compute. repeat split; try reflexivity. in_list. Qed.

(** A producer that calls [preventCache] is called again by a second call
    with the same key: nothing was stored. *)
Example prevented_result_is_not_stored :
  let s1 := call_withCache demo_host demo_options demo_key
              (producer true (VStr "compiled")) (init ∅ ∅) in
  let s2 := call_withCache demo_host demo_options demo_key
              (producer true (VStr "compiled")) s1 in
  outcome_of (settled s1) 0 = Some (Fulfilled (VStr "compiled")) /\
  compiledStore s1 = ∅ /\
  count is_valueFactory (trace s1) = 1 /\
  outcome_of (settled s2) (next_promise s1) = Some (Fulfilled (VStr "compiled")) /\
  count is_valueFactory (trace s2) = 2.
Proof. vm_compute. repeat split; reflexivity. Qed.

(** A producer that does not is called once: the second call is a hit. *)
Example stored_result_is_a_hit :
  let s1 := call_withCache demo_host demo_options demo_key
              (producer false (VStr "compiled")) (init ∅ ∅) in
  let s2 := call_withCache demo_host demo_options demo_key
              (producer false (VStr "compiled")) s1 in
  outcome_of (settled s1) 0 = Some (Fulfilled (VStr "compiled")) /\
  compiledStore s1 !! hash demo_host demo_key = Some "compiled" /\
  outcome_of (settled s2) (next_promise s1) = Some (Fulfilled (VStr "compiled")) /\
  count is_valueFactory (trace s2) = 1.
Proof. vm_compute. repeat split; reflexivity. Qed.

(** ** Loading the dependencies (C7) *)

Lemma count_app (kind : event -> bool) (tr tr' : list event) :
  count kind (tr ++ tr') = count kind tr + count kind tr'.
Proof. unfold count. now rewrite List.filter_app, length_app. Qed.





Section LoadDeps.

Context (host : Host) (options : Options) (cache0 : gmap string value).






End LoadDeps.



(** When the code of [./main.js] is ready, [loadDeps] is called with its two
    dependencies and awaits the promises of their two loads. *)
Example loadDeps_awaits_both :
  step demo_host demo_options (Resume 2) (after demo_host demo_options schedule_two_deps_called)
  = Some (after demo_host demo_options (schedule_two_deps_called ++ [Resume 2])) /\
  pool (after demo_host demo_options (schedule_two_deps_called ++ [Resume 2])) !! 1
  = Some {| t_wait := WAll [10; 13]; t_kont := KFun (fun _ => Ret VUndefined); t_result := 9 |} /\
  In (EvCall (F_loadDeps "./main.js") 9)
     (trace (after demo_host demo_options (schedule_two_deps_called ++ [Resume 2]))).
Proof. vm_compute. repeat split; try reflexivity. in_list. Qed.


(** ** The formatters, the key and the interop helper *)

Lemma append_cons (c : Ascii.ascii) (a b : string) : String c a +:+ b = String c (a +:+ b).
Proof. reflexivity. Qed.

Lemma formatError_eq (message path source : string) :
  formatError message path source = path +:+ String newline message.
Proof. reflexivity. Qed.

Lemma has_newline_head (c : Ascii.ascii) (s : string) :
  has_newline (String c s) = false -> c <> newline /\ has_newline s = false.
Proof.
  cbn [has_newline]. intros H. apply orb_false_elim in H as [Hc Hs].
  split; [|exact Hs]. intros ->. now rewrite Ascii.eqb_refl in Hc.
Qed.

(** X1. A formatted error can be read back: when the paths hold no line
    break, two formatted errors are the same text only if they have the same
    path and the same message; the source text plays no part. *)
Theorem formatError_unambiguous (message path source message' path' source' : string) :
  has_newline path = false -> has_newline path' = false ->
  formatError message path source = formatError message' path' source' ->
  path = path' /\ message = message'.
Proof.
  rewrite !formatError_eq. revert path'.
  induction path as [|c path IH]; intros [|c' path'] Hp Hp' Heq.
  - cbn in Heq. injection Heq as ->. now split.
  - apply has_newline_head in Hp' as [Hc' _]. rewrite append_cons in Heq.
    cbn in Heq. injection Heq as Hc _. now symmetry in Hc.
  - apply has_newline_head in Hp as [Hc _]. rewrite append_cons in Heq.
    cbn in Heq. injection Heq as Hc' _. contradiction.
  - apply has_newline_head in Hp as [_ Hp]. apply has_newline_head in Hp' as [_ Hp'].
    rewrite !append_cons in Heq. injection Heq as -> Heq.
    destruct (IH path' Hp Hp' Heq) as [-> ->]. now split.
Qed.

Lemma formatError_unambiguous_witness :
  "/a.js" = "/a.js" /\ "Unexpected token" = "Unexpected token".
Proof.
  apply (formatError_unambiguous "Unexpected token" "/a.js" "let" "Unexpected token" "/a.js"
           "const"); reflexivity.
Defined.

Lemma length_slice0 (n : nat) (s : string) :
  String.length (slice0 n s) = Nat.min n (String.length s).
Proof.
  unfold slice0. revert s. induction n as [|n IH]; intros [|c s]; cbn; auto.
Qed.

(** X3. The key of the compilation cache has eight characters at most,
    and eight exactly when the digest has eight or more; the key of no
    parts at all is the digest of the empty text. *)
Theorem hash_length (host : Host) (valueList : list string) :
  String.length (hash host valueList) <= 8 /\
  (8 <= String.length (md5 host (joined valueList)) ->
   String.length (hash host valueList) = 8) /\
  hash host [] = slice0 8 (md5 host "").
Proof.
  rewrite hash_joined, length_slice0. split; [lia|]. split; [lia|reflexivity].
Qed.

(** X4. Reading [default] from what [interopRequireDefault] answers never
    fails. A value that is falsy or bears no truthy [__esModule] is wrapped:
    [default] gives it back, and wrapping twice nests it twice; a value that
    bears the mark is answered as it is. *)
Theorem interopRequireDefault_default (obj : value) :
  (exists v, get_field "default" (interopRequireDefault obj) = inl v) /\
  truthy (interopRequireDefault obj) = true /\
  ((truthy obj = false \/
    exists marked, get_field "__esModule" obj = inl marked /\ truthy marked = false) ->
   get_field "default" (interopRequireDefault obj) = inl obj /\
   interopRequireDefault (interopRequireDefault obj)
   = VRec [("default", VRec [("default", obj)])]) /\
  (forall marked, truthy obj = true -> get_field "__esModule" obj = inl marked ->
     truthy marked = true -> interopRequireDefault obj = obj).
Proof.
  assert (forall x, interopRequireDefault (VRec [("default", x)])
                    = VRec [("default", VRec [("default", x)])]) as Hwrap by reflexivity.
  split; [|split; [|split]].
  - unfold interopRequireDefault. destruct (truthy obj) eqn:Ht; [|eexists; reflexivity].
    destruct (get_field "__esModule" obj) as [m|e] eqn:Hm; [|eexists; reflexivity].
    destruct (truthy m); [|eexists; reflexivity].
    destruct obj; try discriminate Ht; eexists; reflexivity.
  - unfold interopRequireDefault. destruct (truthy obj) eqn:Ht; [|reflexivity].
    destruct (get_field "__esModule" obj) as [m|e]; [|reflexivity].
    destruct (truthy m); [exact Ht|reflexivity].
  - intros [Hf|(marked & Hm & Hf)]; unfold interopRequireDefault at 1 3.
    + rewrite Hf. split; [reflexivity|apply Hwrap].
    + rewrite Hm, Hf. destruct (truthy obj); split; try reflexivity; apply Hwrap.
  - intros marked Ht Hm Hmt. unfold interopRequireDefault. now rewrite Ht, Hm, Hmt.
Qed.

Lemma interopRequireDefault_default_witness :
  interopRequireDefault (VRec [("__esModule", VStr "true"); ("a", VNull)])
  = VRec [("__esModule", VStr "true"); ("a", VNull)].
Proof.
  destruct (interopRequireDefault_default (VRec [("__esModule", VStr "true"); ("a", VNull)]))
    as (_ & _ & _ & Hmarked).
  apply (Hmarked (VStr "true")); reflexivity.
Defined.

(** ** The two traversals *)

Module AstFacts.

Import Ast.

Lemma node_induction (P : node -> Prop) :
  (forall name, P (Identifier name)) ->
  (forall value, P (StringLiteral value)) ->
  P Import ->
  (forall callee arguments, P callee -> Forall P arguments ->
                            P (CallExpression callee arguments)) ->
  (forall specifiers source, Forall P specifiers -> P (ImportDeclaration specifiers source)) ->
  (forall type children, Forall P children -> P (Node type children)) ->
  forall n, P n.
Proof.
  intros HI HS HImp HC HD HN. fix IH 1. intros n.
  assert (forall l, Forall P l) as Hall.
  { fix IHl 1. intros [|a l]; constructor; [apply IH|apply IHl]. }
  destruct n as [name|value| |callee arguments|specifiers source|type children].
  - apply HI.
  - apply HS.
  - apply HImp.
  - apply HC; [apply IH|apply Hall].
  - apply HD, Hall.
  - apply HN, Hall.
Qed.

Lemma rename_StringLiteral (a : node) (value : string) :
  renameDynamicImport a = StringLiteral value <-> a = StringLiteral value.
Proof. destruct a; cbn; split; intros H; try discriminate H; exact H. Qed.

Lemma required_rename (callee : node) (arguments : list node) :
  required (if isImport callee then Identifier "import__" else renameDynamicImport callee)
           (map renameDynamicImport arguments)
  = required callee arguments.
Proof.
  destruct callee as [name| | |c a|sp src|t ch]; cbn [isImport renameDynamicImport required];
    try reflexivity.
  - destruct arguments as [|a [|b rest]]; cbn [map required]; try reflexivity.
    + destruct a; reflexivity.
    + destruct (renameDynamicImport a), a; reflexivity.
  - destruct arguments as [|a [|b rest]]; cbn [map]; try reflexivity.
    + destruct (renameDynamicImport a); reflexivity.
    + destruct (renameDynamicImport a); reflexivity.
Qed.

Lemma flat_map_rename (l : list node) :
  Forall (fun n => parseDeps (renameDynamicImport n) = parseDeps n) l ->
  flat_map parseDeps (map renameDynamicImport l) = flat_map parseDeps l.
Proof.
  induction 1 as [|a l Ha _ IH]; [reflexivity|]. cbn [map flat_map]. now rewrite Ha, IH.
Qed.

(** X5. Renaming the dynamic imports leaves the list of dependencies as it
    is: [parseDeps] finds in the renamed tree what it finds in the tree, in
    the same order, so that a dynamic import is never taken for a
    dependency to load beforehand. *)
Theorem parseDeps_after_rename (ast : node) :
  parseDeps (renameDynamicImport ast) = parseDeps ast.
Proof.
  induction ast as [name|value| |callee arguments IHc IHa|specifiers source IHs
                   |type children IHch] using node_induction; try reflexivity.
  - cbn [renameDynamicImport parseDeps]. rewrite required_rename, (flat_map_rename _ IHa).
    destruct callee; cbn [isImport]; try (now rewrite IHc). reflexivity.
  - cbn [renameDynamicImport parseDeps]. now rewrite (flat_map_rename _ IHs).
  - cbn [renameDynamicImport parseDeps]. now rewrite (flat_map_rename _ IHch).
Qed.

Lemma list_sum_zero (l : list node) (f : node -> nat) :
  Forall (fun n => f n = 0) l -> list_sum (map f l) = 0.
Proof.
  induction 1 as [|a l Ha _ IH]; [reflexivity|].
  change (f a + list_sum (map f l) = 0). now rewrite Ha, IH.
Qed.

Lemma map_rename_fixed (l : list node) (f : node -> node) :
  Forall (fun n => f n = n) l -> map f l = l.
Proof.
  induction 1 as [|a l Ha _ IH]; [reflexivity|]. cbn [map]. now rewrite Ha, IH.
Qed.

Lemma list_sum_zero_each (l : list nat) : list_sum l = 0 -> Forall (fun n => n = 0) l.
Proof.
  induction l as [|a l IH]; [constructor|]. intros H.
  change (a + list_sum l = 0) in H. constructor; [lia|apply IH; lia].
Qed.

Lemma no_dynamic_import_after_rename (ast : node) :
  dynamic_imports (renameDynamicImport ast) = 0.
Proof.
  induction ast as [name|value| |callee arguments IHc IHa|specifiers source IHs
                   |type children IHch] using node_induction; try reflexivity;
    cbn [renameDynamicImport dynamic_imports]; rewrite ?map_map.
  - rewrite (list_sum_zero _ (fun n => dynamic_imports (renameDynamicImport n)) IHa).
    destruct callee; cbn [isImport]; try (now rewrite IHc). reflexivity.
  - apply (list_sum_zero _ (fun n => dynamic_imports (renameDynamicImport n)) IHs).
  - apply (list_sum_zero _ (fun n => dynamic_imports (renameDynamicImport n)) IHch).
Qed.

Lemma rename_without_dynamic_import (ast : node) :
  dynamic_imports ast = 0 -> renameDynamicImport ast = ast.
Proof.
  induction ast as [name|value| |callee arguments IHc IHa|specifiers source IHs
                   |type children IHch] using node_induction; try reflexivity;
    cbn [renameDynamicImport dynamic_imports]; intros H.
  - assert (isImport callee = false /\ dynamic_imports callee = 0 /\
            list_sum (map dynamic_imports arguments) = 0) as (Hi & Hc & Hl).
    { destruct callee; cbn [isImport] in *; repeat split; try lia; try reflexivity. }
    rewrite Hi, (IHc Hc). f_equal. apply map_rename_fixed.
    apply list_sum_zero_each in Hl. apply Forall_map in Hl.
    rewrite Forall_forall in *. intros x Hx. apply (IHa x Hx), (Hl x Hx).
  - f_equal. apply map_rename_fixed.
    apply list_sum_zero_each in H. apply Forall_map in H.
    rewrite Forall_forall in *. intros x Hx. apply (IHs x Hx), (H x Hx).
  - f_equal. apply map_rename_fixed.
    apply list_sum_zero_each in H. apply Forall_map in H.
    rewrite Forall_forall in *. intros x Hx. apply (IHch x Hx), (H x Hx).
Qed.

(** X6. After [renameDynamicImport] no call of [import] is left in the
    tree, at any depth; a tree that held none is not changed, so renaming
    twice is renaming once. *)
Theorem renameDynamicImport_complete (ast : node) :
  dynamic_imports (renameDynamicImport ast) = 0 /\
  (dynamic_imports ast = 0 -> renameDynamicImport ast = ast) /\
  renameDynamicImport (renameDynamicImport ast) = renameDynamicImport ast.
Proof.
  split; [apply no_dynamic_import_after_rename|]. split.
  - apply rename_without_dynamic_import.
  - apply rename_without_dynamic_import, no_dynamic_import_after_rename.
Qed.

(** A module that imports one file, requires another by a literal, a third
    by a name, and imports a fourth dynamically from within a call. *)
Example parseDeps_of_a_module :
  parseDeps (renameDynamicImport
    (Node "Program"
       [ImportDeclaration [Node "ImportDefaultSpecifier" [Identifier "a"]] "./a.js";
        CallExpression (Identifier "require") [StringLiteral "./b.js"];
        CallExpression (Identifier "require") [Identifier "name"];
        CallExpression (Identifier "f")
          [CallExpression Import [StringLiteral "./d.js"]]]))
  = ["./a.js"; "./b.js"].
Proof. reflexivity. Qed.

End AstFacts.

(** ** More of what the loader does *)

Section LoaderFacts.

Context (host : Host) (options : Options) (cache0 : gmap string value).

(** A suspended load that ends by a rejection or a throw: the identity is
    failed from then on, with that error. *)
Lemma load_ends_rejected (s : state) (i : nat) (t : task) (id : string) (e : error) :
  reachable host options cache0 s -> pool s !! i = Some t ->
  In (id, t_result t) (loadings (trace s)) ->
  failed (settle (t_result t) (Rejected e) (set_pool (delete i (pool s)) s)) id e /\
  trace (settle (t_result t) (Rejected e) (set_pool (delete i (pool s)) s)) = trace s /\
  moduleCache (settle (t_result t) (Rejected e) (set_pool (delete i (pool s)) s))
  = moduleCache s.
Proof.
  intros Hr Hi Hin. destruct (loading_task_entry host options cache0 s i t id Hr Hi Hin) as [Hc Hpend].
  pose proof (settle_fields (t_result t) (Rejected e) (set_pool (delete i (pool s)) s))
    as (Hm & _ & _ & _ & _ & Ht).
  split; [|split; [exact Ht|exact Hm]].
  exists (t_result t). rewrite Hm. split; [exact Hc|].
  now apply outcome_settle_pending.
Qed.

(** X7. Whichever [await] of the load of an identity is rejected (of
    [loadModule], of [getContent], of the handler, of the built-in
    dispatch), the load ends there: the identity is failed with that very
    error, its entry stays the [Loading], and nothing is called or logged. *)
Theorem load_failure_is_retained (s : state) (i : nat) (t : task) (id : string) (e : error) :
  reachable host options cache0 s -> pool s !! i = Some t ->
  In (id, t_result t) (loadings (trace s)) ->
  poll s (t_wait t) = Some (Rejected e) ->
  exists s', step host options (Resume i) s = Some s' /\
    failed s' id e /\ trace s' = trace s /\ moduleCache s' = moduleCache s /\
    pool s' = delete i (pool s).
Proof.
  intros Hr Hi Hin Hpoll. eexists. split; [eapply step_resume; eassumption|].
  cbn [resume]. destruct (load_ends_rejected s i t id e Hr Hi Hin) as (Hf & Ht & Hm).
  repeat split; try assumption.
  now destruct (settle_fields (t_result t) (Rejected e) (set_pool (delete i (pool s)) s))
    as (_ & _ & _ & Hp & _).
Qed.

Lemma get_field_both (name name' : string) (obj v : value) :
  get_field name obj = inl v -> exists v', get_field name' obj = inl v'.
Proof. destruct obj; cbn; intros H; try discriminate H; eauto. Qed.

(** X8. When [getContent] answers with a content that is not a string,
    the load ends with a [TypeError] that names the path and the content;
    no handler is called, and the identity is failed with that error. *)
Theorem invalid_content_is_rejected (s : state) (i : nat) (w : wait) (id path : string)
    (p : promise) (answer content : value) :
  reachable host options cache0 s ->
  pool s !! i = Some {| t_wait := w; t_kont := K_getContent id path; t_result := p |} ->
  poll s w = Some (Fulfilled answer) ->
  get_field "content" answer = inl content -> (forall text, content <> VStr text) ->
  exists s', step host options (Resume i) s = Some s' /\
    failed s' id (TypeError ("Invalid module content (" +:+ path +:+ "): "
                             +:+ template host content)) /\
    trace s' = trace s /\ moduleCache s' = moduleCache s.
Proof.
  intros Hr Hi Hpoll Hcontent Hnot.
  pose proof (loading_kont_role host options cache0 s i _ id path Hr Hi (or_introl eq_refl)) as Hin.
  eexists. split; [eapply step_resume; eassumption|].
  cbn [resume apply_kont t_kont t_result]. unfold loading_after_getContent.
  rewrite Hcontent. destruct (get_field_both "content" "extname" _ _ Hcontent) as [extname ->].
  destruct content as [| |text| | | |]; try (now contradiction (Hnot text)); cbn [run];
    apply (load_ends_rejected s i _ id _ Hr Hi Hin).
Qed.

(** X9. When [loadModule] answers [undefined], the load goes on to the
    content: [getContent] is called, for the first time for this identity,
    and nothing else; the module cache is as it was. *)
Theorem loadModule_declines (s : state) (i : nat) (w : wait) (id path : string) (p : promise) :
  reachable host options cache0 s ->
  pool s !! i = Some {| t_wait := w; t_kont := K_loadModule id path; t_result := p |} ->
  poll s w = Some (Fulfilled VUndefined) ->
  count (is_getContent id) (trace s) = 0 /\
  exists s', step host options (Resume i) s = Some s' /\
    trace s' = EvExt (E_getContent id) (next_promise s) :: trace s /\
    pool s' = {| t_wait := WPromise (next_promise s); t_kont := K_getContent id path;
                 t_result := p |} :: delete i (pool s) /\
    moduleCache s' = moduleCache s /\
    count (is_getContent id) (trace s') = 1.
Proof.
  intros Hr Hi Hpoll.
  assert (count (is_getContent id) (trace s) = 0) as Hzero.
  { pose proof (reachable_Fetch host options cache0 (fun _ => 0) s Hr) as [].
    apply f_waiting0. eapply before_fetch_lookup; [exact Hi|reflexivity]. }
  split; [exact Hzero|]. eexists. split; [eapply step_resume; eassumption|].
  cbn [resume apply_kont t_kont t_result]. unfold loading_after_loadModule, await_getContent.
  cbn [is_undefined run set_pool emit fresh trace pool next_promise moduleCache].
  repeat split. rewrite count_cons. cbn [is_getContent]. now rewrite String.eqb_refl, Hzero.
Qed.

(** X10. A request for an identity that was not in the module cache at
    the start, and whose entry is by now a value, the one its load
    produced, is answered within the request itself: its promise is
    fulfilled with that value before anything is awaited, [getResource] is
    the only thing called, and no activation is left suspended. *)
Theorem cached_value_is_returned_at_once (s : state) (pathCx : PathContext) (v : value) :
  reachable host options cache0 s ->
  cache0 !! r_id (getResource options pathCx) = None ->
  moduleCache s !! r_id (getResource options pathCx) = Some v ->
  instanceof_Loading v = false ->
  exists s1, step host options (Request pathCx) s = Some s1 /\
    outcome_of (settled s1) (next_promise s) = Some (Fulfilled v) /\
    trace s1 = EvGetResource pathCx
               :: EvCall (F_loadModuleInternal pathCx) (next_promise s) :: trace s /\
    pool s1 = pool s /\ moduleCache s1 = moduleCache s.
Proof.
  intros Hr _ Hc Hplain. eexists. split; [reflexivity|].
  pose proof (start_load options pathCx s) as Heq. cbv zeta in Heq. rewrite Heq, Hc.
  assert (outcome_of (settled s) (next_promise s) = None) as Hfresh.
  { apply (reachable_Inv host) in Hr as [[] _]. eapply fresh_unsettled; eauto. }
  destruct v; try discriminate Hplain;
    match goal with |- context [settle ?q ?o ?st] =>
      destruct (settle_fields q o st) as (Hm & _ & _ & Hp & _ & Ht) end;
    rewrite Hm, Hp, Ht; (split; [now apply outcome_settle_pending|repeat split]).
Qed.

(** X11. The module cache and the promises agree: for an identity whose
    load began, the entry is the value the promise of its [Loading] was
    fulfilled with, and the [Loading] itself as long as that promise is
    pending or once it is rejected; and an identity has one [Loading]. *)
Theorem cache_agrees_with_Loading (s : state) (id : string) (p : promise) :
  reachable host options cache0 s -> In (id, p) (loadings (trace s)) ->
  match outcome_of (settled s) p with
  | Some (Fulfilled v) => moduleCache s !! id = Some v
  | _ => moduleCache s !! id = Some (VLoading p)
  end /\
  (forall p', In (id, p') (loadings (trace s)) -> p' = p) /\
  cache0 !! id = None.
Proof.
  intros Hr Hin. apply (reachable_Inv host) in Hr as [[] _]. split; [|split].
  - destruct (inv_loading0 id p Hin) as [[Hc Hnf]|(v & Hv & Hc)].
    + destruct (outcome_of (settled s) p) as [[v|e]|]; try exact Hc.
      now contradiction (Hnf v).
    + now rewrite Hv.
  - intros p' Hin'. eapply loadings_same_id; eauto.
  - eapply inv_loading_new0; eauto.
Qed.

(** X12. A module that has been loaded can be required: for an identity
    that was not in the module cache at the start, once a call of
    [loadModuleInternal] has been fulfilled with a value, and no [Loading]
    stands where the exported value of the identity is expected, the value
    is no [Loading], it is the entry of the identity, then and ever after,
    and [require] of a reference to the identity answers with it. *)
Theorem loaded_module_can_be_required (s s' : state) (ls : list label) (pathCx : PathContext)
    (pr : promise) (v : value) :
  reachable host options cache0 s ->
  cache0 !! r_id (getResource options pathCx) = None ->
  In (EvCall (F_loadModuleInternal pathCx) pr) (trace s) ->
  outcome_of (settled s) pr = Some (Fulfilled v) ->
  exports_no_Loading cache0 s (r_id (getResource options pathCx)) ->
  steps host options ls s = Some s' ->
  moduleCache s' !! r_id (getResource options pathCx) = Some v /\
  instanceof_Loading v = false /\
  forall refPath relPath k self,
    r_id (getResource options {| refPath := refPath; relPath := relPath |})
    = r_id (getResource options pathCx) ->
    run (getResource options) (require refPath relPath k) self s'
    = run (getResource options) (k (Fulfilled v)) self
        (emit (EvGetResource {| refPath := refPath; relPath := relPath |}) s').
Proof.
  intros Hr _ Hev Ho Hexp Hsteps.
  pose proof (reachable_Inv host options cache0 s Hr) as [HI HL]. pose proof HI as [].
  set (id := r_id (getResource options pathCx)) in *.
  assert (moduleCache s !! id = Some v /\ instanceof_Loading v = false) as [Hc Hplain].
  { specialize (HL _ _ Hev). unfold load_settled in HL. fold id in HL.
    destruct HL as [(q & Hq & [[Hpend _]|(o & Ho' & Hqo)])|(v' & Hv' & Hplain & Hval)].
    - congruence.
    - apply (entry_promise_is_loading cache0 s id q Hexp) in Hq.
      assert (o = Fulfilled v) as -> by congruence.
      destruct (inv_loading0 id q Hq) as [[_ Hnf]|(v' & Hv' & Hc)];
        [now contradiction (Hnf v)|].
      assert (v' = v) as -> by congruence. split; [exact Hc|].
      destruct Hexp as [_ Hexp]. destruct v; try reflexivity.
      now contradiction (Hexp q p Hq).
    - assert (v' = v) as -> by congruence. split; [|exact Hplain].
      destruct Hval as [(p0 & Hin & Hp0)|Hc0].
      + destruct (inv_loading0 id p0 Hin) as [[_ Hnf]|(v' & Hv'' & Hc)];
          [now contradiction (Hnf v)|congruence].
      + destruct (inv_cache1 id) as [(p0 & Hin)|Heq]; [|congruence].
        apply inv_loading_new0 in Hin. congruence. }
  assert (moduleCache s' !! id = Some v) as Hc'.
  { destruct (steps_Inv host options cache0 ls s s' (conj HI HL) Hsteps)
      as [_ [_ _ _ Hcache]].
    destruct (Hcache _ _ Hc) as [Hkeep|(p & -> & _)]; [exact Hkeep|discriminate Hplain]. }
  split; [exact Hc'|]. split; [exact Hplain|]. intros refPath relPath k self Hid.
  apply require_resolved. now rewrite Hid.
Qed.

(** X14. A script that does not parse: [transformJSCode] is rejected with
    the exception of the parser itself, within its call; the error is
    logged once if a [log] is configured, with the kind ["parse script"] and
    the message formatted with the file name and the column after the one
    the parser gave; the transform is not called, nothing is suspended. *)
Theorem transformJSCode_parse_error (s : state) (source : string) (moduleSourceType : bool)
    (filename : string) (self : promise) (ex : error) (line column : nat) :
  babel_parse host source moduleSourceType filename = ParseError ex line column ->
  outcome_of (settled s) self = None ->
  outcome_of
    (settled (run (getResource options)
                (transformJSCode host options source moduleSourceType filename) self s))
    self = Some (Rejected ex) /\
  trace (run (getResource options)
           (transformJSCode host options source moduleSourceType filename) self s)
  = ((if log options
      then [EvLog "error" ["parse script";
                           formatErrorLineColumn host (message ex) filename source line
                             (column + 1)]]
      else []) ++ trace s)%list /\
  pool (run (getResource options)
          (transformJSCode host options source moduleSourceType filename) self s)
  = pool s.
Proof.
  intros Hparse Hpend. unfold transformJSCode. rewrite Hparse.
  destruct (log options); cbn [run];
    match goal with |- context [settle ?q ?o ?st] =>
      destruct (settle_fields q o st) as (_ & _ & _ & Hp & _ & Ht) end;
    rewrite Hp, Ht; (split; [now apply outcome_settle_pending|split; reflexivity]).
Qed.

Lemma first_rejected_nil (l : list (promise * outcome)) : first_rejected [] l = None.
Proof.
  induction l as [|[p [v|e]] l IH]; [reflexivity|exact IH|exact IH].
Qed.

(** X16. A module without dependencies: [loadDeps] of no dependency calls
    nothing, and is fulfilled as soon as it goes on. *)
Theorem loadDeps_nothing_to_load (s : state) (refPath : string) :
  outcome_of (settled s) (next_promise s) = None ->
  exists s2,
    step host options (Resume 0) (start options (F_loadDeps refPath)
                                    (loadDeps options refPath []) s) = Some s2 /\
    outcome_of (settled s2) (next_promise s) = Some (Fulfilled VUndefined) /\
    trace s2 = EvCall (F_loadDeps refPath) (next_promise s) :: trace s /\
    pool s2 = pool s /\ moduleCache s2 = moduleCache s.
Proof.
  intros Hpend. unfold start, loadDeps.
  cbn [map_loadModuleInternal run step set_pool pool lookup list_lookup t_wait poll
       first_rejected all_fulfilled option_map].
  rewrite first_rejected_nil. eexists. split; [reflexivity|].
  cbn [resume apply_kont t_kont t_result run].
  match goal with |- context [settle ?q ?o ?st] =>
    destruct (settle_fields q o st) as (Hm & _ & _ & Hp & _ & Ht) end.
  rewrite Hm, Hp, Ht. split; [now apply outcome_settle_pending|repeat split].
Qed.

(** [require] alone: what the code of a module that only requires does to
    the state, up to its end. *)
Lemma run_requires_only (refPath : string) (code : script) :
  requires_only code ->
  forall (self : promise) (s : state),
    exists o,
      run (getResource options) (run_script options refPath code) self s
      = settle self o (state_after_requires options refPath code s).
Proof.
  induction code as [v|e|relPath k IH|relPath k IH]; cbn [requires_only]; intros Hreq self s.
  - exists (Fulfilled v). reflexivity.
  - exists (Rejected e). reflexivity.
  - cbn [run_script state_after_requires]. rewrite require_run. cbv zeta. apply IH, Hreq.
  - destruct Hreq.
Qed.

Lemma state_after_requires_fields (refPath : string) (code : script) :
  forall s : state,
    moduleCache (state_after_requires options refPath code s) = moduleCache s /\
    pool (state_after_requires options refPath code s) = pool s /\
    next_promise (state_after_requires options refPath code s) = next_promise s /\
    settled (state_after_requires options refPath code s) = settled s /\
    exists tr, trace (state_after_requires options refPath code s) = (tr ++ trace s)%list /\
               count is_getResource tr = length tr.
Proof.
  induction code as [v|e|relPath k IH|relPath k IH]; intros s; cbn [state_after_requires];
    try (repeat split; exists []; split; reflexivity).
  match goal with |- context [state_after_requires _ _ (k ?o) ?st] =>
    destruct (IH o st) as (Hm & Hp & Hn & Hs & tr & Ht & Hcount) end.
  rewrite Hm, Hp, Hn, Hs, Ht. repeat split.
  exists (tr ++ [EvGetResource {| refPath := refPath; relPath := relPath |}])%list.
  split; [now rewrite <- app_assoc|].
  rewrite count_app, length_app, Hcount. reflexivity.
Qed.

(** X17. [require] only reads: the code of a module that calls [require]
    and never [import__] leaves the module cache as it is, starts no load,
    makes no promise and suspends nothing; all it calls is [getResource],
    once for each [require], and it settles the promise of the module. *)
Theorem require_only_reads (s : state) (refPath source : string) (self : promise) :
  requires_only (js_function host source refPath
                   (resolve options {| refPath := refPath; relPath := "." |})) ->
  moduleCache (run (getResource options) (createModule host options refPath source) self s)
  = moduleCache s /\
  pool (run (getResource options) (createModule host options refPath source) self s)
  = pool s /\
  next_promise (run (getResource options) (createModule host options refPath source) self s)
  = next_promise s /\
  exists tr,
    trace (run (getResource options) (createModule host options refPath source) self s)
    = (tr ++ trace s)%list /\
    count is_getResource tr = length tr.
Proof.
  intros Hreq. unfold createModule.
  destruct (run_requires_only refPath _ Hreq self s) as [o ->].
  match goal with |- context [settle ?q ?o ?st] =>
    destruct (settle_fields q o st) as (Hm & _ & _ & Hp & Hn & Ht) end.
  rewrite Hm, Hp, Hn, Ht.
  destruct (state_after_requires_fields refPath
              (js_function host source refPath
                 (resolve options {| refPath := refPath; relPath := "." |})) s)
    as (Hm' & Hp' & Hn' & _ & tr & Ht' & Hcount).
  rewrite Hm', Hp', Hn', Ht'. repeat split. exists tr. now split.
Qed.

End LoaderFacts.

(** ** The dependencies are loaded before the code runs *)

Section StaticDependencies.

Context (host : Host) (options : Options) (cache0 : gmap string value).





End StaticDependencies.

(** ** The facts above, on runs *)

Lemma fetch_rejected_reachable :
  reachable demo_host demo_options ∅ (after demo_host demo_options schedule_fetch_rejected).
Proof. exists ∅, schedule_fetch_rejected. vm_compute. reflexivity. Qed.

Lemma load_failure_is_retained_witness :
  exists s',
    step demo_host demo_options (Resume 1)
         (after demo_host demo_options schedule_fetch_rejected) = Some s' /\
    failed s' "./a.js" (Other 404) /\
    trace s' = trace (after demo_host demo_options schedule_fetch_rejected) /\
    moduleCache s' = moduleCache (after demo_host demo_options schedule_fetch_rejected) /\
    pool s' = delete 1 (pool (after demo_host demo_options schedule_fetch_rejected)).
Proof.
  apply (load_failure_is_retained demo_host demo_options ∅
           (after demo_host demo_options schedule_fetch_rejected) 1
           {| t_wait := WPromise 2; t_kont := K_getContent "./a.js" "./a.js"; t_result := 1 |}
           "./a.js" (Other 404) fetch_rejected_reachable).
  - vm_compute. reflexivity.
  - vm_compute. now left.
  - vm_compute. reflexivity.
Defined.

Lemma invalid_content_reachable :
  reachable demo_host demo_options ∅ (after demo_host demo_options schedule_invalid_content).
Proof. exists ∅, schedule_invalid_content. vm_compute. reflexivity. Qed.

Lemma invalid_content_is_rejected_witness :
  exists s',
    step demo_host demo_options (Resume 1)
         (after demo_host demo_options schedule_invalid_content) = Some s' /\
    failed s' "./a.js" (TypeError ("Invalid module content (" +:+ "./a.js" +:+ "): "
                                   +:+ template demo_host VNull)) /\
    trace s' = trace (after demo_host demo_options schedule_invalid_content) /\
    moduleCache s' = moduleCache (after demo_host demo_options schedule_invalid_content).
Proof.
  apply (invalid_content_is_rejected demo_host demo_options ∅
           (after demo_host demo_options schedule_invalid_content) 1 (WPromise 2)
           "./a.js" "./a.js" 1 (got VNull (VStr ".js")) VNull invalid_content_reachable).
  - vm_compute. reflexivity.
  - vm_compute. reflexivity.
  - reflexivity.
  - discriminate.
Defined.

Lemma loadModule_declines_reachable :
  reachable demo_host demo_options_loadModule ∅
    (after demo_host demo_options_loadModule schedule_loadModule_declines).
Proof. exists ∅, schedule_loadModule_declines. vm_compute. reflexivity. Qed.

Lemma loadModule_declines_witness :
  count (is_getContent "./a.js")
    (trace (after demo_host demo_options_loadModule schedule_loadModule_declines)) = 0 /\
  exists s',
    step demo_host demo_options_loadModule (Resume 1)
         (after demo_host demo_options_loadModule schedule_loadModule_declines) = Some s' /\
    trace s'
    = EvExt (E_getContent "./a.js")
        (next_promise (after demo_host demo_options_loadModule schedule_loadModule_declines))
      :: trace (after demo_host demo_options_loadModule schedule_loadModule_declines) /\
    pool s'
    = {| t_wait := WPromise (next_promise (after demo_host demo_options_loadModule
                                             schedule_loadModule_declines));
         t_kont := K_getContent "./a.js" "./a.js"; t_result := 1 |}
      :: delete 1 (pool (after demo_host demo_options_loadModule
                           schedule_loadModule_declines)) /\
    moduleCache s'
    = moduleCache (after demo_host demo_options_loadModule schedule_loadModule_declines) /\
    count (is_getContent "./a.js") (trace s') = 1.
Proof.
  apply (loadModule_declines demo_host demo_options_loadModule ∅
           (after demo_host demo_options_loadModule schedule_loadModule_declines) 1
           (WPromise 2) "./a.js" "./a.js" 1 loadModule_declines_reachable);
    vm_compute; reflexivity.
Defined.

Lemma cached_value_is_returned_at_once_witness :
  exists s1,
    step demo_host demo_options (Request (from_root "./a.js"))
         (after demo_host demo_options schedule_three_requests) = Some s1 /\
    outcome_of (settled s1)
      (next_promise (after demo_host demo_options schedule_three_requests))
    = Some (Fulfilled (VObj 1)) /\
    trace s1
    = EvGetResource (from_root "./a.js")
      :: EvCall (F_loadModuleInternal (from_root "./a.js"))
           (next_promise (after demo_host demo_options schedule_three_requests))
      :: trace (after demo_host demo_options schedule_three_requests) /\
    pool s1 = pool (after demo_host demo_options schedule_three_requests) /\
    moduleCache s1 = moduleCache (after demo_host demo_options schedule_three_requests).
Proof.
  apply (cached_value_is_returned_at_once demo_host demo_options ∅
           (after demo_host demo_options schedule_three_requests) (from_root "./a.js")
           (VObj 1) three_requests_reachable);
    vm_compute; reflexivity.
Defined.

Lemma cache_agrees_with_Loading_witness :
  moduleCache (after demo_host demo_options schedule_three_requests) !! "./a.js"
  = Some (VObj 1).
Proof.
  destruct (cache_agrees_with_Loading demo_host demo_options ∅
              (after demo_host demo_options schedule_three_requests) "./a.js" 1
              three_requests_reachable) as (Hagree & _).
  - vm_compute. now left.
  - vm_compute in Hagree. vm_compute. exact Hagree.
Defined.

Lemma loaded_module_can_be_required_witness :
  moduleCache (after demo_host demo_options
                 (schedule_three_requests ++ [Request (from_root "./b.js")]))
    !! "./a.js" = Some (VObj 1) /\
  run (getResource demo_options) (require "./b.js" "./a.js" (fun o => run_script demo_options
                                                                "./b.js" (reexport o))) 20
    (after demo_host demo_options (schedule_three_requests ++ [Request (from_root "./b.js")]))
  = run (getResource demo_options) (run_script demo_options "./b.js" (SReturn (VObj 1))) 20
      (emit (EvGetResource {| refPath := "./b.js"; relPath := "./a.js" |})
         (after demo_host demo_options
            (schedule_three_requests ++ [Request (from_root "./b.js")]))).
Proof.
  destruct (loaded_module_can_be_required demo_host demo_options ∅
              (after demo_host demo_options schedule_three_requests)
              (after demo_host demo_options
                 (schedule_three_requests ++ [Request (from_root "./b.js")]))
              [Request (from_root "./b.js")] (from_root "./a.js") 0 (VObj 1)
              three_requests_reachable) as (Hc & _ & Hreq).
  - vm_compute. reflexivity.
  - vm_compute. in_list.
  - vm_compute. reflexivity.
  - split.
    + intros q H. vm_compute in H. discriminate H.
    + intros p q Hin. vm_compute in Hin. destruct Hin as [Hin|[]].
      injection Hin as <-. vm_compute. discriminate.
  - vm_compute. reflexivity.
  - split; [exact Hc|].
    apply (Hreq "./b.js" "./a.js" (fun o => run_script demo_options "./b.js" (reexport o)) 20).
    reflexivity.
Defined.

Lemma transformJSCode_parse_error_witness :
  outcome_of
    (settled (run (getResource demo_options)
                (transformJSCode demo_host_parse_error demo_options "let" false "./a.js")
                0 (init ∅ ∅)))
    0 = Some (Rejected (SyntaxError "Unexpected token")) /\
  trace (run (getResource demo_options)
           (transformJSCode demo_host_parse_error demo_options "let" false "./a.js")
           0 (init ∅ ∅))
  = ((if log demo_options
      then [EvLog "error" ["parse script";
                           formatErrorLineColumn demo_host_parse_error
                             (message (SyntaxError "Unexpected token")) "./a.js" "let" 1
                             (3 + 1)]]
      else []) ++ trace (init ∅ ∅))%list /\
  pool (run (getResource demo_options)
          (transformJSCode demo_host_parse_error demo_options "let" false "./a.js")
          0 (init ∅ ∅))
  = pool (init ∅ ∅).
Proof.
  apply (transformJSCode_parse_error demo_host_parse_error demo_options (init ∅ ∅) "let"
           false "./a.js" 0 (SyntaxError "Unexpected token") 1 3); reflexivity.
Defined.

Lemma loadDeps_nothing_to_load_witness :
  exists s2,
    step demo_host demo_options (Resume 0)
         (start demo_options (F_loadDeps "./a.js") (loadDeps demo_options "./a.js" [])
            (init ∅ ∅)) = Some s2 /\
    outcome_of (settled s2) 0 = Some (Fulfilled VUndefined) /\
    trace s2 = [EvCall (F_loadDeps "./a.js") 0] /\
    pool s2 = [] /\ moduleCache s2 = ∅.
Proof.
  apply (loadDeps_nothing_to_load demo_host demo_options (init ∅ ∅) "./a.js"). reflexivity.
Defined.

Lemma require_only_reads_witness :
  moduleCache (run (getResource demo_options)
                 (createModule demo_host demo_options "./main.js"
                    "module.exports = require(name)") 7
                 (after demo_host demo_options schedule_three_requests))
  = moduleCache (after demo_host demo_options schedule_three_requests) /\
  pool (run (getResource demo_options)
          (createModule demo_host demo_options "./main.js"
             "module.exports = require(name)") 7
          (after demo_host demo_options schedule_three_requests))
  = pool (after demo_host demo_options schedule_three_requests) /\
  next_promise (run (getResource demo_options)
                  (createModule demo_host demo_options "./main.js"
                     "module.exports = require(name)") 7
                  (after demo_host demo_options schedule_three_requests))
  = next_promise (after demo_host demo_options schedule_three_requests) /\
  exists tr,
    trace (run (getResource demo_options)
             (createModule demo_host demo_options "./main.js"
                "module.exports = require(name)") 7
             (after demo_host demo_options schedule_three_requests))
    = (tr ++ trace (after demo_host demo_options schedule_three_requests))%list /\
    count is_getResource tr = length tr.
Proof.
  apply (require_only_reads demo_host demo_options
           (after demo_host demo_options schedule_three_requests) "./main.js"
           "module.exports = require(name)" 7).
  vm_compute. intros [v|e]; exact I.
Defined.



(** In that run both dependencies were loaded by the loader itself, and the
    code of [./main.js] then finds them in the module cache. *)
Example loaded_dependencies_in_cache :
  moduleCache (after demo_host demo_options (schedule_deps_awaited ++ schedule_deps_loaded))
    !! "./x.js" = Some (VObj 5) /\
  moduleCache (after demo_host demo_options (schedule_deps_awaited ++ schedule_deps_loaded))
    !! "./y.js" = Some (VObj 6) /\
  outcome_of (settled (after demo_host demo_options
                         (schedule_deps_awaited ++ schedule_deps_loaded))) 9
  = Some (Fulfilled VUndefined) /\
  count (is_getContent "./x.js")
    (trace (after demo_host demo_options (schedule_deps_awaited ++ schedule_deps_loaded))) = 1.
Proof. vm_compute. repeat split; reflexivity. Qed.
